(** * crypto-mcp-metrics: the rate limiter, the request gateway and the
      batched request scheduler

    A shallow embedding of [src/core/api_handler.py], [src/config.py] and
    [src/core/claude/batch_processor.py], with the properties of the
    natural-language specification stated over it.

    Conventions.
    - A Python [raise] is a [Raise e] result; state changed before the
      [raise] is kept, as in Python.
    - A [datetime] is an integer count of microseconds (the resolution of
      Python's [datetime]); [timedelta(seconds=w)] is [w * 1000000].
    - The limiter's and the configuration's dictionaries are [gmap string _];
      a payload or reply, a [Dict[str, Any]] whose values nest, is the list
      of its items. *)

From Stdlib Require Import ZArith Lia Ascii.
From stdpp Require Import gmap strings list pretty.

Set Warnings "-register-all".

Local Open Scope Z_scope.

(** ** Results of fallible code *)

Inductive result (E A : Type) : Type :=
| Ok (a : A)
| Raise (e : E).
Arguments Ok {E A} a.
Arguments Raise {E A} e.

Definition is_ok {E A} (r : result E A) : bool :=
  match r with Ok _ => true | Raise _ => false end.

(** ** src/config.py and the rate limiter of src/core/api_handler.py *)

Module RateLimiter.

(** The exception classes that the gateway layer distinguishes. *)
Inductive exn : Type :=
| APIError (msg : string)
| ClientError (msg : string)      (* aiohttp.ClientError *)
| TimeoutError                    (* asyncio.TimeoutError *)
| ValueError (msg : string).      (* json.JSONDecodeError *)

(** The two class attributes of [Config] that [RateLimiter] reads. *)
Record Config : Type := {
  RATE_LIMIT_WINDOW : Z;                       (* seconds *)
  MAX_REQUESTS_PER_WINDOW : gmap string Z
}.

(** The values of src/config.py. *)
Definition the_config : Config := {|
  RATE_LIMIT_WINDOW := 60;
  MAX_REQUESTS_PER_WINDOW :=
    <["coingecko" := 50]> (<["coinmarketcap" := 30]>
    (<["social_searcher" := 100]> (<["github" := 5000]> ∅)))
|}.

Definition timedelta_seconds (w : Z) : Z := w * 1000000.

(** [self.requests.get(service, [])] *)
Definition get_requests (requests : gmap string (list Z)) (service : string)
  : list Z :=
  default [] (requests !! service).

Section WithConfig.
Variable cfg : Config.

(** [RateLimiter._cleanup_old_requests]; [now] is the clock reading. *)
Definition _cleanup_old_requests (service : string) (now : Z)
    (requests : gmap string (list Z)) : gmap string (list Z) :=
  let window_start := now - timedelta_seconds (RATE_LIMIT_WINDOW cfg) in
  <[service :=
      filter (λ timestamp, window_start < timestamp)
             (get_requests requests service)]> requests.

Definition rate_limit_message (service : string) : string :=
  "Rate limit exceeded for " +:+ service.

(** [RateLimiter.check_limit]. The method reads the clock twice: [now]
    inside [_cleanup_old_requests] and [now'] for the recorded
    timestamp. *)
Definition check_limit (service : string) (now now' : Z)
    (requests : gmap string (list Z))
  : result exn () * gmap string (list Z) :=
  let requests := _cleanup_old_requests service now requests in
  let current_requests := Z.of_nat (length (get_requests requests service)) in
  let max_requests := default 0 (MAX_REQUESTS_PER_WINDOW cfg !! service) in
  if bool_decide (max_requests ≤ current_requests) then
    (Raise (APIError (rate_limit_message service)), requests)
  else
    let requests :=
      match requests !! service with
      | None => <[service := []]> requests
      | Some _ => requests
      end in
    (Ok (), <[service := get_requests requests service ++ [now']]> requests).

(** A run of admission checks for one service, one per pair of clock
    readings, in order. *)
Fixpoint check_limits (service : string) (times : list (Z * Z))
    (requests : gmap string (list Z))
  : list (result exn ()) * gmap string (list Z) :=
  match times with
  | [] => ([], requests)
  | (now, now') :: times =>
      let '(r, requests) := check_limit service now now' requests in
      let '(rs, requests) := check_limits service times requests in
      (r :: rs, requests)
  end.

End WithConfig.

End RateLimiter.

(** ** The request gateway of src/core/api_handler.py *)

Module APIHandler.
Import RateLimiter.

(** What one [session.request(...)] does: the upstream answers with a
    status and a body, the connection fails ([aiohttp.ClientError]), or
    the attempt times out ([asyncio.TimeoutError]). *)
Inductive attempt : Type :=
| Responds (status : Z) (text : string)
| ConnectionFails (msg : string)
| TimesOut.

(** [Config.get_base_url] *)
Definition get_base_url (service : string) : string :=
  if bool_decide (service = "coingecko") then "https://api.coingecko.com/api/v3"
  else if bool_decide (service = "coinmarketcap")
    then "https://pro-api.coinmarketcap.com/v1"
  else if bool_decide (service = "social_searcher")
    then "https://api.social-searcher.com/v2"
  else if bool_decide (service = "github") then "https://api.github.com"
  else "".

(** [endpoint.lstrip("/")] *)
Fixpoint lstrip_slash (endpoint : string) : string :=
  match endpoint with
  | String c rest => if bool_decide (c = "/"%char) then lstrip_slash rest
                     else endpoint
  | EmptyString => EmptyString
  end.

(** The exceptions that the [backoff.on_exception] decorator of
    [APIHandler.request] retries:
    [(aiohttp.ClientError, asyncio.TimeoutError)]. *)
Definition retried (e : exn) : bool :=
  match e with
  | ClientError _ | TimeoutError => true
  | APIError _ | ValueError _ => false
  end.

Section WithEnvironment.
Variable cfg : Config.
(** [Config.get_api_key]: the keys come from the process environment. *)
Variable get_api_key : string → option string.
(** [await response.json()]: the decoded body, or the exception that
    decoding raises: [aiohttp.ContentTypeError], an
    [aiohttp.ClientError], on a body that is not declared as JSON, and
    [json.JSONDecodeError], a [ValueError], on text that is not JSON. *)
Context {J : Type}.
Variable json : string → result exn J.
(** The clock readings of the [k]-th admission check, and the outcome of
    the [k]-th network attempt for a method, url, params and headers. *)
Variable clock_at : nat → Z * Z.
Variable network_at :
  nat → string → string → option (gmap string string) →
  gmap string string → attempt.

Record state : Type := mkState {
  session : bool;                    (* self.session is not None *)
  requests : gmap string (list Z);   (* rate_limiter.requests *)
  checks : nat;                      (* admission checks made *)
  attempts : nat;                    (* network attempts made *)
  backoffs : list Z                  (* waits between tries, seconds *)
}.

(** [APIHandler.initialize] *)
Definition initialize (st : state) : state :=
  if session st then st
  else mkState true (requests st) (checks st) (attempts st) (backoffs st).

(** The body of [APIHandler.request], under the decorator. *)
Definition request_body (method service endpoint : string)
    (params headers : option (gmap string string)) (st : state)
  : result exn J * state :=
  let st := initialize st in
  let '(now, now') := clock_at (checks st) in
  let '(verdict, rq) := check_limit cfg service now now' (requests st) in
  let st := mkState (session st) rq (S (checks st)) (attempts st)
                    (backoffs st) in
  match verdict with
  | Raise e => (Raise e, st)
  | Ok _ =>
      let base_url := get_base_url service in
      let api_key := get_api_key service in
      let headers := default ∅ headers in
      let headers :=
        match api_key with
        | Some (String _ _ as api_key) =>
            <["Authorization" := "Bearer " +:+ api_key]> headers
        | _ => headers
        end in
      let url := base_url +:+ "/" +:+ lstrip_slash endpoint in
      let outcome := network_at (attempts st) method url params headers in
      let st := mkState (session st) (requests st) (checks st)
                        (S (attempts st)) (backoffs st) in
      match outcome with
      | Responds status text =>
          if bool_decide (400 ≤ status) then
            (Raise (APIError ("API request failed: " +:+ pretty status
                              +:+ " " +:+ text)), st)
          else
            match json text with
            | Ok decoded => (Ok decoded, st)
            | Raise (ClientError msg) =>
                (* except aiohttp.ClientError as e: raise APIError(...) *)
                (Raise (APIError ("API request failed: " +:+ msg)), st)
            | Raise e => (Raise e, st)
            end
      | ConnectionFails msg =>
          (* except aiohttp.ClientError as e: raise APIError(...) *)
          (Raise (APIError ("API request failed: " +:+ msg)), st)
      | TimesOut => (Raise TimeoutError, st)
      end
  end.

(** [backoff.on_exception(backoff.expo, exceptions, max_tries)]: call
    the target; on one of the listed exceptions give up when
    [tries = max_tries], else wait and call again. The wait before
    retry [n] is drawn from [0, 2^n] seconds (full jitter); its bound
    [2^n] is recorded. [fuel] bounds the number of further tries. *)
Fixpoint on_exception (fuel : nat) (max_tries : nat) (tries : nat)
    (target : state → result exn J * state) (st : state)
  : result exn J * state :=
  let tries := S tries in
  match target st with
  | (Ok ret, st) => (Ok ret, st)
  | (Raise e, st) =>
      if retried e then
        if bool_decide (tries = max_tries) then (Raise e, st)
        else
          match fuel with
          | O => (Raise e, st)
          | S fuel =>
              let st := mkState (session st) (requests st) (checks st)
                          (attempts st)
                          (backoffs st ++ [2 ^ Z.of_nat (tries - 1)]) in
              on_exception fuel max_tries tries target st
          end
      else (Raise e, st)
  end.

(** [APIHandler.request]: the body under
    [@backoff.on_exception(..., max_tries=3)]. *)
Definition request (method service endpoint : string)
    (params headers : option (gmap string string)) (st : state)
  : result exn J * state :=
  on_exception 3 3 0 (request_body method service endpoint params headers) st.

(** [APIHandler.get] and [APIHandler.post] *)
Definition get (service endpoint : string)
    (params headers : option (gmap string string)) (st : state)
  : result exn J * state :=
  request "GET" service endpoint params headers st.
Definition post (service endpoint : string)
    (params headers : option (gmap string string)) (st : state)
  : result exn J * state :=
  request "POST" service endpoint params headers st.

End WithEnvironment.

End APIHandler.

(** ** src/core/claude/batch_processor.py *)

Module BatchProcessor.

(** *** Python values

    The payloads and responses are [Dict[str, Any]]: a dictionary is kept
    as its list of items, in insertion order. *)
Inductive value : Type :=
| VNone
| VInt (n : Z)
| VStr (s : string)
| VList (items : list value)
| VDict (items : list (string * value)).

Abbreviation dict := (list (string * value)).

(** [k in d] and [d[k]] on a dictionary given by its items. *)
Fixpoint dict_get (d : dict) (k : string) : option value :=
  match d with
  | [] => None
  | (k', v) :: d => if bool_decide (k' = k) then Some v else dict_get d k
  end.

Definition type_name (v : value) : string :=
  match v with
  | VNone => "NoneType"
  | VInt _ => "int"
  | VStr _ => "str"
  | VList _ => "list"
  | VDict _ => "dict"
  end.

(** [len(v)]; [None] where Python raises [TypeError]. *)
Definition py_len (v : value) : option nat :=
  match v with
  | VList items => Some (length items)
  | VDict items => Some (length items)
  | VStr s => Some (String.length s)
  | VNone | VInt _ => None
  end.

Fixpoint chars (s : string) : list value :=
  match s with
  | EmptyString => []
  | String c s => VStr (String c EmptyString) :: chars s
  end.

(** The elements [iter(v)] yields, for the values that have a length. *)
Definition py_iter (v : value) : list value :=
  match v with
  | VList items => items
  | VDict items => (λ kv, VStr kv.1) <$> items
  | VStr s => chars s
  | VNone | VInt _ => []
  end.

Inductive exn : Type :=
| BatchProcessingError (msg : string)
| TypeError (msg : string)
| InvalidStateError (msg : string)   (* asyncio.InvalidStateError *)
| TimeoutError                       (* asyncio.TimeoutError *)
| ClientException (msg : string).    (* whatever the client raises *)

(** [str(e)] *)
Definition exn_str (e : exn) : string :=
  match e with
  | BatchProcessingError msg | TypeError msg
  | InvalidStateError msg | ClientException msg => msg
  | TimeoutError => ""
  end.

(** *** Futures and requests

    An [asyncio.Future] is an object shared between the submitter and
    the scheduler: the futures live in a store and a request holds the
    address of its own. *)
Inductive Future : Type :=
| Pending
| Finished (result : value)
| Failed (exception : exn)
| Cancelled.

Record BatchRequest : Type := mkBatchRequest {
  id : string;
  data : dict;
  priority : Z;
  timestamp : Z;
  future : nat
}.

Inductive event : Type :=
| Call (payload : dict)        (* client.process_request(payload) *)
| Sleep (seconds : Z)          (* asyncio.sleep(seconds) *)
| Metric (name : string)       (* a point recorded by the monitor *)
| Resolve (fut : nat) (outcome : Future).
                               (* fut.set_result / fut.set_exception *)

(** The number of times the future at [fut] was resolved in a trace. *)
Definition resolves (fut : nat) (ev : event) : Prop :=
  match ev with
  | Resolve f _ => f = fut
  | _ => False
  end.

#[export] Instance resolves_dec fut ev : Decision (resolves fut ev) :=
  match ev with
  | Resolve f _ => decide (f = fut)
  | Call _ | Sleep _ | Metric _ => right (λ H : False, H)
  end.

Definition resolutions (fut : nat) (tr : list event) : nat :=
  length (filter (resolves fut) tr).

(** The payloads of the client calls and the waits of a trace. *)
Definition calls_of (tr : list event) : list dict :=
  omap (λ ev, match ev with Call payload => Some payload | _ => None end) tr.
Definition sleeps_of (tr : list event) : list Z :=
  omap (λ ev, match ev with Sleep seconds => Some seconds | _ => None end) tr.

(** A future that holds a result or an exception. *)
Definition settled (fut : Future) : Prop :=
  match fut with
  | Finished _ | Failed _ => True
  | Pending | Cancelled => False
  end.

(** What a client reply makes of a pending future. *)
Definition outcome_of (reply : result exn dict) : Future :=
  match reply with
  | Ok d => Finished (VDict d)
  | Raise e => Failed e
  end.

(** The calls and waits of an individual run that makes [k] retries,
    the first of them being retry number [attempt]. *)
Fixpoint retry_events (payload : dict) (attempt k : nat) : list event :=
  match k with
  | O => [Call payload]
  | S k => Call payload :: Sleep (2 ^ Z.of_nat attempt)
                        :: retry_events payload (S attempt) k
  end.

(** In this section every await of the scheduler is taken as
    uninterrupted: nothing happens to the futures while the client is
    called or the scheduler sleeps. [Cancellation] below has the same
    functions among callers that are cancelled meanwhile. *)
Section WithClient.
(** The downstream client: a state and its [process_request]. *)
Context {C : Type}.
Variable process_request : dict → C → result exn dict * C.
(** [self.max_retries] *)
Variable max_retries : nat.

Record state : Type := mkState {
  futures : list Future;
  client : C;
  trace : list event
}.

(** Computations of the scheduler: state passing with exceptions. *)
Definition M (A : Type) : Type := state → result exn A * state.

#[export] Instance M_ret : MRet M := λ A a st, (Ok a, st).
#[export] Instance M_bind : MBind M := λ A B f m st,
  match m st with
  | (Ok a, st) => f a st
  | (Raise e, st) => (Raise e, st)
  end.

Definition raise {A} (e : exn) : M A := λ st, (Raise e, st).

(** [try: m  except Exception as e: h(e)] *)
Definition try_except {A} (m : M A) (h : exn → M A) : M A := λ st,
  match m st with
  | (Ok a, st) => (Ok a, st)
  | (Raise e, st) => h e st
  end.

Definition emit (ev : event) : M () := λ st,
  (Ok (), mkState (futures st) (client st) (trace st ++ [ev])).

(** [await self.client.process_request(payload)] *)
Definition call_client (payload : dict) : M dict := λ st,
  let '(r, c) := process_request payload (client st) in
  (r, mkState (futures st) c (trace st ++ [Call payload])).

(** [fut.done()] *)
Definition done (fut : nat) : M bool := λ st,
  (Ok (match futures st !! fut with
       | Some Pending => false
       | _ => true
       end), st).

(** [fut.set_result(v)] and [fut.set_exception(e)]: asyncio raises
    [InvalidStateError] on a future that is already done. *)
Definition resolve (fut : nat) (outcome : Future) : M () := λ st,
  match futures st !! fut with
  | Some Pending =>
      (Ok (), mkState (<[fut := outcome]> (futures st)) (client st)
                      (trace st ++ [Resolve fut outcome]))
  | _ => (Raise (InvalidStateError "invalid state"), st)
  end.
Definition set_result (fut : nat) (v : value) : M () :=
  resolve fut (Finished v).
Definition set_exception (fut : nat) (e : exn) : M () :=
  resolve fut (Failed e).

(** [with self.monitor.measure(name): m] records the duration on both
    exits. *)
Definition measure {A} (name : string) (m : M A) : M A := λ st,
  let '(r, st) := m st in
  (r, snd (emit (Metric (name +:+ "_duration")) st)).

(** [BatchProcessor._combine_contexts] *)
Definition _combine_contexts (contexts : list dict) : dict :=
  [("type", VStr "batch");
   ("requests", VList (VDict <$> contexts));
   ("batch_size", VInt (Z.of_nat (length contexts)))].

(** [BatchProcessor._split_response] *)
Definition _split_response (response : dict) (batch_size : nat) : M value :=
  match dict_get response "results" with
  | None => raise (BatchProcessingError "Invalid batch response format")
  | Some results =>
      match py_len results with
      | None =>
          raise (TypeError ("object of type '" +:+ type_name results
                            +:+ "' has no len()"))
      | Some n =>
          if bool_decide (n ≠ batch_size)
          then raise (BatchProcessingError "Invalid batch response format")
          else mret results
      end
  end.

(** [BatchProcessor._process_batch] *)
Definition _process_batch (batch : list BatchRequest) : M value :=
  measure "batch_processing"
    (try_except
       (let combined_context := _combine_contexts (data <$> batch) in
        response ← call_client combined_context;
        _split_response response (length batch))
       (λ e, raise (BatchProcessingError
                      ("Failed to process batch: " +:+ exn_str e)))).

(** [BatchProcessor._distribute_results]: the loop over
    [zip(batch, results)]. *)
Fixpoint distribute_loop (batch : list BatchRequest) (results : list value)
  : M () :=
  match batch, results with
  | request :: batch, result :: results =>
      is_done ← done (future request);
      (if is_done : bool then mret () else set_result (future request) result);;
      distribute_loop batch results
  | _, _ => mret ()
  end.

Definition _distribute_results (batch : list BatchRequest) (results : value)
  : M () :=
  distribute_loop batch (py_iter results).

(** [BatchProcessor._process_with_retry]. The recursion of the source
    is on [attempt], which grows until [max_retries]; [fuel] bounds the
    remaining number of recursive calls. *)
Fixpoint process_with_retry_fuel (fuel : nat) (request : BatchRequest)
    (attempt : nat) : M dict :=
  try_except (call_client (data request))
    (λ e,
       if bool_decide (attempt < max_retries)%nat then
         match fuel with
         | S fuel =>
             emit (Sleep (2 ^ Z.of_nat attempt));;
             process_with_retry_fuel fuel request (attempt + 1)
         | O => raise e
         end
       else raise e).

Definition _process_with_retry (request : BatchRequest) (attempt : nat)
  : M dict :=
  process_with_retry_fuel (max_retries - attempt) request attempt.

(** One iteration of the loop of [_handle_batch_error]. *)
Definition handle_request (request : BatchRequest) : M () :=
  is_done ← done (future request);
  if is_done : bool then mret ()
  else
    try_except
      (result ← _process_with_retry request 0;
       set_result (future request) (VDict result))
      (λ e, set_exception (future request) e).

Fixpoint handle_loop (batch : list BatchRequest) : M () :=
  match batch with
  | [] => mret ()
  | request :: batch => handle_request request;; handle_loop batch
  end.

(** [BatchProcessor._handle_batch_error] *)
Definition _handle_batch_error (batch : list BatchRequest) (error : exn)
  : M () :=
  emit (Metric "batch_errors");;
  handle_loop batch.

(** How a run of the scheduler may change the futures: the trace
    grows by [new]; a future that was not pending is kept and not
    resolved; a pending one is either left alone or resolved once, with
    a result or an exception. *)
Definition evolves (st st' : state) (new : list event) : Prop :=
  trace st' = trace st ++ new ∧
  length (futures st') = length (futures st) ∧
  ∀ f fut, futures st !! f = Some fut →
    (futures st' !! f = Some fut ∧ resolutions f new = 0%nat) ∨
    (fut = Pending ∧ resolutions f new = 1%nat ∧
     ∃ fut', settled fut' ∧ futures st' !! f = Some fut').

(** The state after the combined call of a batch: the client has
    answered and the call and its duration are recorded; no future is
    touched. *)
Definition after_batch_call (batch : list BatchRequest) (st : state) : state :=
  mkState (futures st)
    (process_request (_combine_contexts (data <$> batch)) (client st)).2
    (trace st ++ [Call (_combine_contexts (data <$> batch));
                  Metric "batch_processing_duration"]).

(** The body of the loop of [BatchProcessor._process_batches] for a
    collected, non-empty [batch]. *)
Definition process_collected (batch : list BatchRequest) : M () :=
  try_except
    (results ← _process_batch batch;
     _distribute_results batch results)
    (λ e, _handle_batch_error batch e).

End WithClient.

(** *** Collecting a batch

    The collector runs concurrently with the submitters, so what
    [queue.get()] returns and when is given by the environment:
    [arrivals] lists the requests the queue will hand over, each with the
    time (microseconds) that passes from the moment a [get] is issued
    until the request is there. Time advances only while waiting. What
    [queue.get()] does on the heap itself, where a comparison of two
    entries can raise, is [PriorityQueue.heappop] below. *)
Record queue_env : Type := mkEnv {
  clock : Z;
  arrivals : list (N * BatchRequest)
}.

(** [await asyncio.wait_for(self.queue.get(), timeout)] *)
Definition wait_for_get (timeout : Z) (env : queue_env)
  : result exn BatchRequest * queue_env :=
  match arrivals env with
  | (delay, request) :: rest =>
      if bool_decide (Z.of_N delay < timeout) then
        (Ok request, mkEnv (clock env + Z.of_N delay) rest)
      else
        (Raise TimeoutError,
         mkEnv (clock env + Z.max 0 timeout)
               (((delay - Z.to_N timeout)%N, request) :: rest))
  | [] => (Raise TimeoutError, mkEnv (clock env + Z.max 0 timeout) [])
  end.

Section Collect.
(** [self.batch_size] and [self.batch_timeout] (microseconds). *)
Variable batch_size : nat.
Variable batch_timeout : Z.

(** The loop of [BatchProcessor._collect_batch]; an iteration appends
    to [batch] or leaves the loop, so [batch_size] iterations are
    enough and [fuel] counts them. *)
Fixpoint collect_loop (fuel : nat) (start_time : Z)
    (batch : list BatchRequest) (env : queue_env)
  : result exn (list BatchRequest) * queue_env :=
  if bool_decide (length batch < batch_size)%nat then
    match fuel with
    | O => (Ok batch, env)
    | S fuel =>
        match wait_for_get batch_timeout env with
        | (Raise TimeoutError, env) => (Ok batch, env)
        | (Raise e, env) => (Raise e, env)
        | (Ok request, env) =>
            let batch := batch ++ [request] in
            if bool_decide (batch_timeout ≤ clock env - start_time)
            then (Ok batch, env)
            else collect_loop fuel start_time batch env
        end
    end
  else (Ok batch, env).

(** [BatchProcessor._collect_batch] *)
Definition _collect_batch (env : queue_env)
  : result exn (list BatchRequest) * queue_env :=
  collect_loop batch_size (clock env) [] env.

End Collect.

(** *** The pending queue: [asyncio.PriorityQueue] of
    [(priority, request)] tuples, a binary heap kept by [heapq]. *)

(** [a == b] on values. *)
Fixpoint value_eqb (a b : value) {struct a} : bool :=
  match a, b with
  | VNone, VNone => true
  | VInt x, VInt y => bool_decide (x = y)
  | VStr s, VStr t => bool_decide (s = t)
  | VList xs, VList ys =>
      (fix go (xs ys : list value) : bool :=
         match xs, ys with
         | [], [] => true
         | x :: xs, y :: ys => value_eqb x y && go xs ys
         | _, _ => false
         end) xs ys
  | VDict d1, VDict d2 =>
      bool_decide (length d1 = length d2) &&
      (fix go (d : dict) : bool :=
         match d with
         | [] => true
         | (k, v) :: d =>
             match dict_get d2 k with
             | Some v' => value_eqb v v'
             | None => false
             end && go d
         end) d1
  | _, _ => false
  end.

(** [r1 == r2], the [__eq__] that [@dataclass] generates: the tuples of
    fields are compared; a future is equal to itself only. *)
Definition request_eqb (r1 r2 : BatchRequest) : bool :=
  bool_decide (id r1 = id r2) && value_eqb (VDict (data r1)) (VDict (data r2))
  && bool_decide (priority r1 = priority r2)
  && bool_decide (timestamp r1 = timestamp r2)
  && bool_decide (future r1 = future r2).

Abbreviation entry := (Z * BatchRequest)%type.

(** [a < b] on two queue entries: tuples are compared at their first
    differing position, and [BatchRequest] defines no order. *)
Definition entry_lt (a b : entry) : result exn bool :=
  if bool_decide (a.1 ≠ b.1) then Ok (bool_decide (a.1 < b.1))
  else if request_eqb a.2 b.2 then Ok false
  else Raise (TypeError
    "'<' not supported between instances of 'BatchRequest' and 'BatchRequest'").

(** [heapq._siftdown(heap, startpos, pos)] with [newitem = heap[pos]];
    [pos] decreases in every iteration and [fuel] bounds it. A raised
    comparison leaves the list as it is at that moment. *)
Fixpoint _siftdown (fuel : nat) (heap : list entry) (startpos pos : nat)
    (newitem : entry) : result exn () * list entry :=
  if bool_decide (startpos < pos)%nat then
    match fuel with
    | O => (Ok (), <[pos := newitem]> heap)
    | S fuel =>
        let parentpos := ((pos - 1) / 2)%nat in
        match heap !! parentpos with
        | None => (Ok (), <[pos := newitem]> heap)
        | Some parent =>
            match entry_lt newitem parent with
            | Raise e => (Raise e, heap)
            | Ok true =>
                _siftdown fuel (<[pos := parent]> heap) startpos parentpos
                          newitem
            | Ok false => (Ok (), <[pos := newitem]> heap)
            end
        end
    end
  else (Ok (), <[pos := newitem]> heap).

(** [heapq.heappush(heap, item)], which is [PriorityQueue._put]. *)
Definition heappush (heap : list entry) (item : entry)
  : result exn () * list entry :=
  let heap := heap ++ [item] in
  _siftdown (length heap) heap 0 (length heap - 1) item.

Section Submit.
(** [str(hash(str(data)))]: Python salts the hash per process. *)
Variable hash_id : dict → string.

(** [BatchProcessor.submit] up to and including
    [await self.queue.put((priority, request))], at clock reading
    [now]: the new future is allocated at the end of the store. *)
Definition submit_put (data : dict) (priority : Z) (now : Z)
    (st : list Future * list entry)
  : result exn BatchRequest * (list Future * list entry) :=
  let '(store, queue) := st in
  let future := length store in
  let store := store ++ [Pending] in
  let request := mkBatchRequest (hash_id data) data priority now future in
  match heappush queue (priority, request) with
  | (Ok _, queue) => (Ok request, (store, queue))
  | (Raise e, queue) => (Raise e, (store, queue))
  end.

End Submit.

End BatchProcessor.

(** ** Vocabulary of the further properties *)

Module SchedulerSpec.
Import BatchProcessor.

(** The time until the last of a sequence of arrivals is there, each
    delay counting from the previous arrival. *)
Fixpoint total_delay (first : list (N * BatchRequest)) : Z :=
  match first with
  | [] => 0
  | (delay, _) :: first => Z.of_N delay + total_delay first
  end.

End SchedulerSpec.

(** ** The other half of the pending queue: [queue.get()]

    [asyncio.PriorityQueue._get] is [heapq.heappop]; the definitions
    follow [heapq] as [_siftdown] and [heappush] above do. *)

Module PriorityQueue.
Import BatchProcessor.

(** The choice of the child in the loop of [heapq._siftup]:
    [rightpos = childpos + 1;
     if rightpos < endpos and not heap[childpos] < heap[rightpos]:
         childpos = rightpos]. *)
Definition smaller_child (heap : list entry) (endpos childpos : nat)
  : result exn nat :=
  let rightpos := (childpos + 1)%nat in
  if bool_decide (rightpos < endpos)%nat then
    match heap !! childpos, heap !! rightpos with
    | Some lchild, Some rchild =>
        match entry_lt lchild rchild with
        | Ok true => Ok childpos
        | Ok false => Ok rightpos
        | Raise e => Raise e
        end
    | _, _ => Ok childpos
    end
  else Ok childpos.

(** The loop of [heapq._siftup(heap, pos)]: the smaller child moves up
    into the hole at [pos] until the hole is a leaf; the result is the
    position of the hole. [fuel] bounds the number of iterations. *)
Fixpoint siftup_loop (fuel : nat) (heap : list entry) (endpos pos : nat)
  : result exn nat * list entry :=
  let childpos := (2 * pos + 1)%nat in
  if bool_decide (childpos < endpos)%nat then
    match fuel with
    | O => (Ok pos, heap)
    | S fuel =>
        match smaller_child heap endpos childpos with
        | Raise e => (Raise e, heap)
        | Ok childpos =>
            match heap !! childpos with
            | Some child =>
                siftup_loop fuel (<[pos := child]> heap) endpos childpos
            | None => (Ok pos, heap)
            end
        end
    end
  else (Ok pos, heap).

(** [heapq._siftup(heap, pos)] *)
Definition _siftup (heap : list entry) (pos : nat) : result exn () * list entry :=
  match heap !! pos with
  | None => (Ok (), heap)
  | Some newitem =>
      match siftup_loop (length heap) heap (length heap) pos with
      | (Raise e, heap) => (Raise e, heap)
      | (Ok pos', heap) =>
          let heap := <[pos' := newitem]> heap in
          _siftdown (length heap) heap pos pos' newitem
      end
  end.

(** [heapq.heappop(heap)] on a queue that is not empty ([queue.get()]
    waits while it is): [None] stands for the empty queue. *)
Definition heappop (heap : list entry)
  : option (result exn entry * list entry) :=
  match last heap with
  | None => None
  | Some lastelt =>
      let heap := take (length heap - 1) heap in
      match heap with
      | [] => Some (Ok lastelt, [])
      | returnitem :: _ =>
          let heap := <[0%nat := lastelt]> heap in
          match _siftup heap 0 with
          | (Ok _, heap) => Some (Ok returnitem, heap)
          | (Raise e, heap) => Some (Raise e, heap)
          end
      end
  end.

(** The heap order of [heapq]: no entry has a lower priority value than
    its parent, the parent of position [j] being [(j - 1) / 2]. *)
Definition heap_ordered (heap : list entry) : Prop :=
  ∀ j child parent, (0 < j)%nat →
    heap !! j = Some child → heap !! ((j - 1) / 2)%nat = Some parent →
    parent.1 ≤ child.1.

End PriorityQueue.

(** ** src/utils/monitoring.py: [PerformanceMonitor]

    The values and clock readings are Python floats: they are kept
    abstract, with the comparison [<] ([lt]), the subtraction of two
    clock readings ([sub]) and the mean [sum(values) / len(values)]
    ([mean]) as the operations the code uses. *)

Module PerformanceMonitor.

Section WithValues.
Context {V : Type}.
Variable lt : V → V → bool.
Variable sub : V → V → V.
Variable mean : list V → V.

Record MetricPoint : Type := mkMetricPoint {
  value : V;
  timestamp : V;
  tags : gmap string string
}.

(** [self.metrics], a [defaultdict(list)]. *)
Abbreviation metrics_map := (gmap string (list MetricPoint)).

(** [PerformanceMonitor.get_metrics] *)
Definition get_metrics (name : string) (metrics : metrics_map)
  : list MetricPoint :=
  default [] (metrics !! name).

(** [PerformanceMonitor.record_metric]; [now] is [time.time()]. *)
Definition record_metric (name : string) (v : V)
    (tags : option (gmap string string)) (now : V) (metrics : metrics_map)
  : metrics_map :=
  <[name := default [] (metrics !! name)
            ++ [mkMetricPoint v now (default ∅ tags)]]> metrics.

(** [with monitor.measure(name, tags): body]: [start] and [stop] are
    the clock readings around the body, [now] the one of the recorded
    point; the point is recorded in the [finally] clause. *)
Definition measure {E A} (name : string) (tags : option (gmap string string))
    (start stop now : V)
    (body : metrics_map → result E A * metrics_map) (metrics : metrics_map)
  : result E A * metrics_map :=
  let start_time := start in
  let '(r, metrics) := body metrics in
  let end_time := stop in
  let duration := sub end_time start_time in
  (r, record_metric (name +:+ "_duration") duration tags now metrics).

(** [PerformanceMonitor.get_latest] *)
Definition get_latest (name : string) (metrics : metrics_map)
  : option MetricPoint :=
  last (get_metrics name metrics).

(** [min(values)] and [max(values)] of a list that is not empty: the
    first smallest and the first largest value. *)
Definition py_min (first : V) (rest : list V) : V :=
  foldl (λ current item, if lt item current then item else current) first rest.
Definition py_max (first : V) (rest : list V) : V :=
  foldl (λ current item, if lt current item then item else current) first rest.

(** [PerformanceMonitor.get_average] *)
Definition get_average (name : string) (metrics : metrics_map) : option V :=
  match get_metrics name metrics with
  | [] => None
  | points => Some (mean (value <$> points))
  end.

Record summary : Type := mkSummary {
  s_min : V; s_max : V; s_avg : V; s_count : nat
}.

(** [PerformanceMonitor.get_summary]; [None] is the empty dictionary. *)
Definition get_summary (name : string) (metrics : metrics_map)
  : option summary :=
  match value <$> get_metrics name metrics with
  | [] => None
  | v :: values =>
      Some (mkSummary (py_min v values) (py_max v values)
                      (mean (v :: values)) (length (v :: values)))
  end.

End WithValues.

End PerformanceMonitor.

(** ** src/core/claude/context.py: the summary of historical data *)

Module ContextManager.

Section WithPoints.
Context {A : Type}.

(** [data[::step]] for [step >= 1]: the first element, then the slice
    of what is left after [step] elements. [fuel] bounds the length. *)
Fixpoint slice_step (fuel : nat) (data : list A) (step : nat) : list A :=
  match fuel, data with
  | S fuel, x :: _ => x :: slice_step fuel (drop step data) step
  | _, _ => []
  end.

(** [ContextManager._summarize_historical_data] *)
Definition _summarize_historical_data (data : list A) : list A :=
  match data with
  | [] => []
  | _ =>
      let summary_size := Nat.min (length data) 10 in
      let step := Nat.max 1 (length data / summary_size) in
      slice_step (length data) data step
  end.

End WithPoints.

End ContextManager.
(** ** The scheduler among its callers

    [submit] ends in [return await future]: a caller that is cancelled
    while it waits there cancels its future. Callers and scheduler share
    one event loop, so this happens only while the scheduler itself
    awaits: during a client call or an [asyncio.sleep]. The definitions of
    [BatchProcessor] take every await as uninterrupted; the ones below
    follow the same source lines with the callers made explicit: the
    environment tells which futures are cancelled during each await. *)

Module Cancellation.
Import BatchProcessor.

(** [fut.cancel()]: a pending future becomes cancelled, a done one is
    left as it is. *)
Definition cancel (futs : list Future) (fut : nat) : list Future :=
  match futs !! fut with
  | Some Pending => <[fut := Cancelled]> futs
  | _ => futs
  end.

Section WithCallers.
Context {C : Type}.
Variable process_request : dict → C → result exn dict * C.
Variable max_retries : nat.
(** The futures whose callers are cancelled while the scheduler is
    suspended in the await that the given trace ends with. *)
Variable cancelled_at : list event → list nat.

(** What the callers do to the futures during an await. *)
Definition suspended : @M C () := λ st,
  (Ok (), mkState (foldl cancel (futures st) (cancelled_at (trace st)))
                  (client st) (trace st)).

(** [await self.client.process_request(payload)] *)
Definition call_client (payload : dict) : @M C dict := λ st,
  let '(r, st) := BatchProcessor.call_client process_request payload st in
  (r, (suspended st).2).

(** [await asyncio.sleep(seconds)] *)
Definition sleep (seconds : Z) : @M C () :=
  emit (Sleep seconds);; suspended.

(** [BatchProcessor._process_batch] *)
Definition _process_batch (batch : list BatchRequest) : @M C value :=
  measure "batch_processing"
    (try_except
       (let combined_context := _combine_contexts (data <$> batch) in
        response ← call_client combined_context;
        _split_response response (length batch))
       (λ e, raise (BatchProcessingError
                      ("Failed to process batch: " +:+ exn_str e)))).

(** [BatchProcessor._process_with_retry], with [fuel] as above. *)
Fixpoint process_with_retry_fuel (fuel : nat) (request : BatchRequest)
    (attempt : nat) : @M C dict :=
  try_except (call_client (data request))
    (λ e,
       if bool_decide (attempt < max_retries)%nat then
         match fuel with
         | S fuel =>
             sleep (2 ^ Z.of_nat attempt);;
             process_with_retry_fuel fuel request (attempt + 1)
         | O => raise e
         end
       else raise e).

Definition _process_with_retry (request : BatchRequest) (attempt : nat)
  : @M C dict :=
  process_with_retry_fuel (max_retries - attempt) request attempt.

(** One iteration of the loop of [_handle_batch_error]: the check of
    [done()] comes before the await, the resolution after it. *)
Definition handle_request (request : BatchRequest) : @M C () :=
  is_done ← done (future request);
  if is_done : bool then mret ()
  else
    try_except
      (result ← _process_with_retry request 0;
       set_result (future request) (VDict result))
      (λ e, set_exception (future request) e).

Fixpoint handle_loop (batch : list BatchRequest) : @M C () :=
  match batch with
  | [] => mret ()
  | request :: batch => handle_request request;; handle_loop batch
  end.

(** [BatchProcessor._handle_batch_error] *)
Definition _handle_batch_error (batch : list BatchRequest) (error : exn)
  : @M C () :=
  emit (Metric "batch_errors");;
  handle_loop batch.

(** The body of the loop of [BatchProcessor._process_batches] for a
    collected, non-empty [batch]. *)
Definition process_collected (batch : list BatchRequest) : @M C () :=
  try_except
    (results ← _process_batch batch;
     _distribute_results batch results)
    (λ e, _handle_batch_error batch e).

(** How a run of the scheduler among its callers may change the
    futures: as [evolves] says, and a pending future may also have
    been cancelled by its caller, unresolved. *)
Definition evolves_or_cancelled (st st' : @state C) (new : list event)
  : Prop :=
  trace st' = trace st ++ new ∧
  length (futures st') = length (futures st) ∧
  ∀ f fut, futures st !! f = Some fut →
    (futures st' !! f = Some fut ∧ resolutions f new = 0%nat) ∨
    (fut = Pending ∧ futures st' !! f = Some Cancelled ∧
     resolutions f new = 0%nat) ∨
    (fut = Pending ∧ resolutions f new = 1%nat ∧
     ∃ fut', settled fut' ∧ futures st' !! f = Some fut').

(** The replies of the client to [n] calls in a row with one
    payload. *)
Fixpoint replies (payload : dict) (n : nat) (c : C)
  : list (result exn dict) :=
  match n with
  | O => []
  | S n => let '(r, c) := process_request payload c in
           r :: replies payload n c
  end.

End WithCallers.

End Cancellation.

(** ** Concrete environments used in the examples *)

Module Fixtures.
Import RateLimiter APIHandler.

(** A clock that advances one second per admission check. *)
Definition one_second_clock (k : nat) : Z * Z :=
  (Z.of_nat k * 1000000, Z.of_nat k * 1000000).

Definition fresh_gateway : APIHandler.state := APIHandler.mkState false ∅ 0 0 [].

Definition refused_network (k : nat) (method url : string)
    (params : option (gmap string string)) (headers : gmap string string)
  : attempt :=
  ConnectionFails "Cannot connect to host".

Definition stalled_network (k : nat) (method url : string)
    (params : option (gmap string string)) (headers : gmap string string)
  : attempt :=
  TimesOut.

Import BatchProcessor.

(** Three requests with their futures at addresses 0, 1 and 2. *)
Definition req_a : BatchRequest :=
  mkBatchRequest "a" [("q", VStr "a")] 0 0 0.
Definition req_b : BatchRequest :=
  mkBatchRequest "b" [("q", VStr "b")] 0 1 1.
Definition req_c : BatchRequest :=
  mkBatchRequest "c" [("q", VStr "c")] 0 2 2.
Definition abc : list BatchRequest := [req_a; req_b; req_c].

(** A client that plays a script of replies, one per call. *)
Definition scripted (payload : dict) (script : list (result exn dict))
  : result exn dict * list (result exn dict) :=
  match script with
  | reply :: script => (reply, script)
  | [] => (Raise (ClientException "no reply left"), [])
  end.

(** A client that rejects every combined call and every payload about
    ["c"], and echoes the others. *)
Definition picky (payload : dict) (calls : nat) : result exn dict * nat :=
  (match dict_get payload "q" with
   | Some (VStr s) =>
       if bool_decide (s = "c") then Raise (ClientException "rejected")
       else Ok [("echo", VStr s)]
   | _ => Raise (ClientException "batch not supported")
   end, S calls).

Definition all_pending {C} (c : C) : BatchProcessor.state :=
  BatchProcessor.mkState [Pending; Pending; Pending] c [].

Definition one_two_three : result exn dict :=
  Ok [("results", VList [VInt 1; VInt 2; VInt 3])].
Definition one_two : result exn dict :=
  Ok [("results", VList [VInt 1; VInt 2])].

End Fixtures.

Module MoreFixtures.
Import RateLimiter APIHandler.

(** An upstream that answers every attempt with the same status and
    body. *)
Definition answering (status : Z) (text : string) (k : nat)
    (method url : string) (params : option (gmap string string))
    (headers : gmap string string) : attempt :=
  Responds status text.

Import BatchProcessor.

(** A client that fails every call. *)
Definition failing (payload : dict) (calls : nat) : result BatchProcessor.exn dict * nat :=
  (Raise (ClientException "unavailable"), S calls).

(** Three futures that are done: one with a result, one cancelled, one
    with an exception. *)
Definition all_done {C} (c : C) : BatchProcessor.state :=
  BatchProcessor.mkState
    [Finished VNone; Cancelled; Failed (ClientException "late")] c [].

(** Two queue entries of priorities 1 and 2, futures 0 and 1. *)
Definition entry_one : entry := (1, mkBatchRequest "one" [] 1 0 0).
Definition entry_two : entry := (2, mkBatchRequest "two" [] 2 1 1).
Definition entry_zero : entry := (0, mkBatchRequest "zero" [] 0 3 3).
(** An entry that ties with [entry_one]. *)
Definition entry_tie : entry := (1, mkBatchRequest "tie" [] 1 2 2).

End MoreFixtures.

(** ** Callers that give up *)

Module Callers.
Import BatchProcessor.

(** No caller is ever cancelled. *)
Definition nobody (tr : list event) : list nat := [].

(** The caller of request ["a"] (future 0) is cancelled while the
    scheduler awaits the individual call for ["a"]. *)
Definition a_during_own_call (tr : list event) : list nat :=
  match last tr with
  | Some (Call payload) =>
      match dict_get payload "q" with
      | Some (VStr s) => if bool_decide (s = "a") then [0%nat] else []
      | _ => []
      end
  | _ => []
  end.

(** The caller of request ["c"] (future 2) waits no longer than five
    seconds: it is cancelled during the third wait of the retries,
    which begins after three seconds and lasts four. *)
Definition c_after_five_seconds (tr : list event) : list nat :=
  match last tr with
  | Some (Sleep seconds) => if bool_decide (seconds = 4) then [2%nat] else []
  | _ => []
  end.

End Callers.

(** * Properties *)

(** ** The rate limiter *)

Section RateLimiterFacts.
Import RateLimiter.
Variable cfg : Config.
Implicit Types (service : string) (requests : gmap string (list Z)).

Lemma get_requests_insert service l requests :
  get_requests (<[service := l]> requests) service = l.
Proof. unfold get_requests. by rewrite lookup_insert_eq. Qed.

Lemma get_requests_cleanup service now requests :
  get_requests (_cleanup_old_requests cfg service now requests) service =
  filter (λ timestamp, now - timedelta_seconds (RATE_LIMIT_WINDOW cfg) < timestamp)
         (get_requests requests service).
Proof. unfold _cleanup_old_requests. apply get_requests_insert. Qed.

(** The check rejects exactly when the pruned list has reached the
    ceiling, and then leaves the pruned state. *)
Lemma check_limit_raise service now now' requests :
  default 0 (MAX_REQUESTS_PER_WINDOW cfg !! service) ≤
    Z.of_nat (length (get_requests
                        (_cleanup_old_requests cfg service now requests) service)) →
  check_limit cfg service now now' requests =
    (Raise (APIError (rate_limit_message service)),
     _cleanup_old_requests cfg service now requests).
Proof.
  intros Hfull. unfold check_limit. cbv zeta.
  by rewrite bool_decide_eq_true_2.
Qed.

(** Otherwise it admits and appends the second clock reading. *)
Lemma check_limit_ok service now now' requests :
  Z.of_nat (length (get_requests
                      (_cleanup_old_requests cfg service now requests) service))
    < default 0 (MAX_REQUESTS_PER_WINDOW cfg !! service) →
  ∃ requests',
    check_limit cfg service now now' requests = (Ok (), requests') ∧
    get_requests requests' service =
      get_requests (_cleanup_old_requests cfg service now requests) service
        ++ [now'].
Proof.
  intros Hroom. unfold check_limit. cbv zeta.
  rewrite bool_decide_eq_false_2 by lia.
  eexists. split; [reflexivity|].
  rewrite get_requests_insert. f_equal.
  unfold _cleanup_old_requests. by rewrite lookup_insert_eq.
Qed.

Lemma filter_all_kept (P : Z → Prop) `{!∀ x, Decision (P x)} (l : list Z) :
  Forall P l → filter P l = l.
Proof.
  induction 1 as [|x l Hx _ IH]; [done|].
  by rewrite filter_cons_True, IH.
Qed.

(** A run of checks whose clock readings stay inside the first window:
    as long as fewer than the ceiling are recorded, each one is admitted
    and its timestamp recorded. *)
Lemma check_limits_within_window service (N : nat) times requests :
  MAX_REQUESTS_PER_WINDOW cfg !! service = Some (Z.of_nat N) →
  Forall (λ t, t.1 < timedelta_seconds (RATE_LIMIT_WINDOW cfg) ∧ 0 ≤ t.2) times →
  Forall (λ ts, 0 ≤ ts) (get_requests requests service) →
  (length (get_requests requests service) + length times ≤ N)%nat →
  ∃ requests',
    check_limits cfg service times requests =
      (replicate (length times) (Ok ()), requests') ∧
    get_requests requests' service =
      get_requests requests service ++ times.*2.
Proof.
  intros Hmax Htimes. revert requests.
  induction Htimes as [|[now now'] times [Hnow Hnow'] _ IH];
    intros requests Hpos Hlen; simpl in *.
  { eexists. split; [done|]. by rewrite app_nil_r. }
  assert (Hkeep : get_requests (_cleanup_old_requests cfg service now requests)
                    service = get_requests requests service).
  { rewrite get_requests_cleanup. apply filter_all_kept.
    eapply Forall_impl; [exact Hpos|]. simpl. intros ts Hts. lia. }
  destruct (check_limit_ok service now now' requests) as (rq1 & Hck & Hrq1).
  { rewrite Hkeep, Hmax. simpl. lia. }
  rewrite Hck. rewrite Hkeep in Hrq1.
  destruct (IH rq1) as (rq2 & Hrun & Hrq2).
  { rewrite Hrq1. apply Forall_app. split; [done|]. by apply Forall_singleton. }
  { rewrite Hrq1, length_app. simpl. lia. }
  rewrite Hrun. eexists. split; [done|].
  by rewrite Hrq2, Hrq1, <- app_assoc.
Qed.

End RateLimiterFacts.

Section RateLimiterClaims.
Import RateLimiter.
Variable cfg : Config.
Implicit Types (service : string) (requests : gmap string (list Z)).

Lemma filter_filter_weaker (P Q : Z → Prop)
    `{!∀ x, Decision (P x)} `{!∀ x, Decision (Q x)} (l : list Z) :
  (∀ x, P x → Q x) → filter P (filter Q l) = filter P l.
Proof.
  intros HPQ. induction l as [|x l IH]; [done|].
  destruct (decide (Q x)) as [HQ|HQ].
  - rewrite (filter_cons_True Q) by done.
    destruct (decide (P x)).
    + rewrite !(filter_cons_True P) by done. by rewrite IH.
    + rewrite !(filter_cons_False P) by done. done.
  - rewrite (filter_cons_False Q) by done.
    rewrite (filter_cons_False P) by (intros HP; apply HQ, HPQ, HP). done.
Qed.

(** Pruning at a later clock reading subsumes an earlier pruning. *)
Lemma cleanup_cleanup service now later requests :
  now ≤ later →
  _cleanup_old_requests cfg service later
    (_cleanup_old_requests cfg service now requests) =
  _cleanup_old_requests cfg service later requests.
Proof.
  intros Hle. unfold _cleanup_old_requests at 1 3.
  rewrite get_requests_cleanup.
  unfold _cleanup_old_requests. rewrite insert_insert_eq. f_equal.
  apply filter_filter_weaker. intros x. lia.
Qed.

(** [check_limit] looks at the state only through its pruning. *)
Lemma check_limit_after_cleanup service now now' later requests :
  later ≤ now →
  check_limit cfg service now now'
    (_cleanup_old_requests cfg service later requests) =
  check_limit cfg service now now' requests.
Proof.
  intros Hle. unfold check_limit. cbv zeta.
  by rewrite cleanup_cleanup.
Qed.

(** C5. Sliding window: for a service with ceiling [N > 0] and window
    [W], starting with no recorded timestamp, [N] admissions whose first
    is stamped [t = 0] and which fall before [W] all succeed; the next
    one at any [t < W] fails with the rate-limit error; and one at any
    [u >= W], when the timestamp [0] has left the trailing window,
    succeeds again. *)
Theorem rate_limiter_sliding_window service (N : nat) times t t' u u' requests :
  let W := timedelta_seconds (RATE_LIMIT_WINDOW cfg) in
  MAX_REQUESTS_PER_WINDOW cfg !! service = Some (Z.of_nat N) →
  (0 < N)%nat →
  get_requests requests service = [] →
  length times = N →
  times.*2 !! 0%nat = Some 0 →
  Forall (λ p, p.1 < W ∧ 0 ≤ p.2) times →
  t < W → W ≤ u →
  let run := check_limits cfg service times requests in
  let second := check_limit cfg service t t' run.2 in
  let third := check_limit cfg service u u' second.2 in
  run.1 = replicate N (Ok ()) ∧
  second.1 = Raise (APIError (rate_limit_message service)) ∧
  third.1 = Ok ().
Proof.
  intros W Hmax HN Hempty Hlen Hfirst Htimes Ht Hu run second third.
  destruct (check_limits_within_window cfg service N times requests)
    as (rq1 & Hrun & Hrq1); try done.
  { rewrite Hempty. constructor. }
  { rewrite Hempty. simpl. lia. }
  rewrite Hempty in Hrq1. simpl in Hrq1.
  assert (Hstamps : Forall (λ ts, 0 ≤ ts) (times.*2)).
  { apply Forall_fmap. eapply Forall_impl; [exact Htimes|]. simpl. tauto. }
  assert (Hsecond : second = (Raise (APIError (rate_limit_message service)),
                              _cleanup_old_requests cfg service t rq1)).
  { subst second run. rewrite Hrun. simpl. apply check_limit_raise.
    rewrite get_requests_cleanup, Hrq1, Hmax. simpl.
    rewrite filter_all_kept.
    - rewrite length_fmap. lia.
    - eapply Forall_impl; [exact Hstamps|]. simpl. intros ts Hts.
      fold W. lia. }
  split; [|split].
  - subst run. rewrite Hrun. simpl. by rewrite Hlen.
  - by rewrite Hsecond.
  - subst third. rewrite Hsecond. simpl.
    destruct (check_limit_ok cfg service u u'
                (_cleanup_old_requests cfg service t rq1)) as (rq3 & Hck & _).
    + rewrite !get_requests_cleanup, Hrq1, Hmax. simpl.
      destruct (times.*2) as [|ts0 stamps] eqn:Hst; [done|].
      simpl in Hfirst. injection Hfirst as ->.
      assert (Hl : length stamps = (N - 1)%nat).
      { apply (f_equal length) in Hst. rewrite length_fmap in Hst.
        simpl in Hst. lia. }
      rewrite (filter_cons_True (λ ts, t - _ < ts)) by (fold W; lia).
      rewrite (filter_cons_False (λ ts, u - _ < ts)) by (fold W; lia).
      pose proof (length_filter (λ ts, u - timedelta_seconds
                                   (RATE_LIMIT_WINDOW cfg) < ts)
                    (filter (λ ts, t - timedelta_seconds
                               (RATE_LIMIT_WINDOW cfg) < ts) stamps)) as H1.
      pose proof (length_filter (λ ts, t - timedelta_seconds
                                   (RATE_LIMIT_WINDOW cfg) < ts) stamps) as H2.
      lia.
    + by rewrite Hck.
Qed.

(** C9. A rejected admission consumes no budget: when [check_limit]
    raises, the state it leaves is the state after pruning alone, the
    list of the service holds the pruned timestamps and nothing more,
    and any later check behaves exactly as if the rejected one had not
    taken place. *)
Theorem rejected_admission_consumes_no_budget
    service now now' requests e :
  (check_limit cfg service now now' requests).1 = Raise e →
  (check_limit cfg service now now' requests).2 =
    _cleanup_old_requests cfg service now requests ∧
  get_requests (check_limit cfg service now now' requests).2 service =
    filter (λ ts, now - timedelta_seconds (RATE_LIMIT_WINDOW cfg) < ts)
           (get_requests requests service) ∧
  ∀ later later', now ≤ later →
    check_limit cfg service later later'
      (check_limit cfg service now now' requests).2 =
    check_limit cfg service later later' requests.
Proof.
  intros Hraise.
  assert (Hst : (check_limit cfg service now now' requests).2 =
                _cleanup_old_requests cfg service now requests).
  { revert Hraise. unfold check_limit. cbv zeta.
    case_bool_decide; simpl; [done|discriminate]. }
  rewrite Hst. split; [done|]. split.
  - apply get_requests_cleanup.
  - intros later later' Hle. by apply check_limit_after_cleanup.
Qed.

(** C10. A service without a configured ceiling is never admitted: the
    ceiling defaults to 0, so the check raises at every clock reading
    and from every state. *)
Theorem unknown_service_always_rejected service now now' requests :
  MAX_REQUESTS_PER_WINDOW cfg !! service = None →
  (check_limit cfg service now now' requests).1 =
    Raise (APIError (rate_limit_message service)).
Proof.
  intros Hnone. rewrite check_limit_raise; [done|].
  rewrite Hnone. simpl. lia.
Qed.

End RateLimiterClaims.

Lemma rate_limiter_sliding_window_witness :
  let cfg := RateLimiter.Build_Config 60 (<["svc" := 2]> ∅) in
  let run := RateLimiter.check_limits cfg "svc" [(0, 0); (1000000, 1000000)] ∅ in
  let second := RateLimiter.check_limit cfg "svc" 2000000 2000000 run.2 in
  let third := RateLimiter.check_limit cfg "svc" 61000000 61000000 second.2 in
  run.1 = replicate 2 (Ok ()) ∧
  second.1 = Raise (RateLimiter.APIError (RateLimiter.rate_limit_message "svc")) ∧
  third.1 = Ok ().
Proof.
  intros cfg.
  apply (rate_limiter_sliding_window cfg "svc" 2
           [(0, 0); (1000000, 1000000)] 2000000 2000000 61000000 61000000 ∅).
  - reflexivity.
  - lia.
  - reflexivity.
  - reflexivity.
  - reflexivity.
  - repeat constructor; simpl; unfold RateLimiter.timedelta_seconds; simpl; lia.
  - unfold RateLimiter.timedelta_seconds; simpl; lia.
  - unfold RateLimiter.timedelta_seconds; simpl; lia.
Defined.

Lemma rejected_admission_consumes_no_budget_witness :
  let cfg := RateLimiter.Build_Config 60 (<["svc" := 1]> ∅) in
  let requests : gmap string (list Z) := <["svc" := [5000000]]> ∅ in
  (RateLimiter.check_limit cfg "svc" 7000000 7000000 requests).2 =
    RateLimiter._cleanup_old_requests cfg "svc" 7000000 requests.
Proof.
  intros cfg requests.
  apply (rejected_admission_consumes_no_budget cfg "svc" 7000000 7000000 requests
           (RateLimiter.APIError (RateLimiter.rate_limit_message "svc"))).
  vm_compute. reflexivity.
Defined.

Lemma unknown_service_always_rejected_witness :
  (RateLimiter.check_limit RateLimiter.the_config "binance" 0 0 ∅).1 =
    Raise (RateLimiter.APIError (RateLimiter.rate_limit_message "binance")).
Proof.
  apply (unknown_service_always_rejected RateLimiter.the_config "binance" 0 0 ∅).
  vm_compute. reflexivity.
Defined.

(** ** The request gateway *)

Section GatewayFacts.
Import RateLimiter APIHandler.
Variable cfg : Config.
Variable get_api_key : string → option string.
Context {J : Type}.
Variable json : string → result exn J.
Variable clock_at : nat → Z * Z.
Variable network_at :
  nat → string → string → option (gmap string string) →
  gmap string string → attempt.

Local Abbreviation body := (request_body cfg get_api_key json clock_at network_at).
Local Abbreviation run := (request cfg get_api_key json clock_at network_at).

Lemma initialize_fields st :
  requests (initialize st) = requests st ∧ checks (initialize st) = checks st ∧
  attempts (initialize st) = attempts st ∧
  backoffs (initialize st) = backoffs st.
Proof. unfold initialize. by destruct (session st). Qed.

(** An exception that the decorator does not list leaves [request] at
    once: one call of the body, no wait. *)
Lemma request_not_retried method service endpoint params headers st e st' :
  body method service endpoint params headers st = (Raise e, st') →
  retried e = false →
  run method service endpoint params headers st = (Raise e, st').
Proof.
  intros Hbody Hnot. unfold request. simpl.
  by rewrite Hbody, Hnot.
Qed.

(** The body turns every exception of the transport or of the decoding
    that is an [aiohttp.ClientError] into an [APIError], and so does it
    with a status of 400 or more: of the exceptions that leave it, only
    a timeout is one that the decorator retries. *)
Lemma request_body_raises method service endpoint params headers st e st' :
  body method service endpoint params headers st = (Raise e, st') →
  e = TimeoutError ∨ retried e = false.
Proof.
  unfold request_body. generalize (initialize st). clear st. intros st.
  destruct (clock_at (checks st)) as [now now'].
  destruct (check_limit cfg service now now' (requests st)) as [[[]|e0] rq] eqn:Hck.
  - match goal with |- context [network_at ?a ?b ?c ?d ?h] =>
      destruct (network_at a b c d h) as [status text|msg|] end.
    + case_bool_decide; [intros [= <- <-]; eauto|].
      destruct (json text) as [decoded|[]]; intros [= <- <-]; eauto.
    + intros [= <- <-]; eauto.
    + intros [= <- <-]; eauto.
  - intros [= <- <-]. right.
    revert Hck. unfold check_limit. cbv zeta.
    case_bool_decide; intros [= <- <-]; eauto.
Qed.

(** No call of the body ever raises [aiohttp.ClientError], the first of
    the two classes the decorator retries. *)
Lemma request_body_never_client_error method service endpoint params headers st msg st' :
  body method service endpoint params headers st ≠ (Raise (ClientError msg), st').
Proof.
  intros Hbody. apply request_body_raises in Hbody as [?|?]; discriminate.
Qed.

(** A connection failure at the first attempt of an admitted call ends
    the call: one network attempt, no wait, an [APIError]. *)
Lemma request_connection_failure method service endpoint params headers st msg :
  (check_limit cfg service (clock_at (checks st)).1 (clock_at (checks st)).2
     (requests st)).1 = Ok () →
  (∀ url ps hs, network_at (attempts st) method url ps hs = ConnectionFails msg) →
  let out := run method service endpoint params headers st in
  out.1 = Raise (APIError ("API request failed: " +:+ msg)) ∧
  attempts out.2 = S (attempts st) ∧
  backoffs out.2 = backoffs st.
Proof.
  intros Hadm Hnet out. subst out.
  assert (Hbody : ∃ st', body method service endpoint params headers st =
            (Raise (APIError ("API request failed: " +:+ msg)), st') ∧
            attempts st' = S (attempts st) ∧ backoffs st' = backoffs st).
  { unfold request_body.
    destruct (initialize_fields st) as (Hr & Hc & Ha & Hb).
    rewrite Hc, Hr.
    destruct (clock_at (checks st)) as [now now']. simpl in Hadm.
    destruct (check_limit cfg service now now' (requests st)) as [adm rq].
    simpl in Hadm. subst adm. cbv zeta. simpl. rewrite Ha, Hb, Hnet.
    eexists. split; [reflexivity|]. done. }
  destruct Hbody as (st' & Hbody & Hatt & Hback).
  rewrite (request_not_retried _ _ _ _ _ _ _ _ Hbody eq_refl). done.
Qed.


End GatewayFacts.

Section GatewayRuns.
Import RateLimiter APIHandler.

(** C4, timeouts: an upstream that never answers in time is tried three
    times, with two waits of at most 1 and 2 seconds, and three
    admissions are spent. *)
Example gateway_timeouts_are_retried :
  let out := request the_config (λ _, None) (λ s, Ok s) Fixtures.one_second_clock
               Fixtures.stalled_network "GET" "coingecko" "/ping" None None Fixtures.fresh_gateway in
  out.1 = Raise TimeoutError ∧ attempts out.2 = 3%nat ∧
  backoffs out.2 = [1; 2] ∧
  get_requests (requests out.2) "coingecko" = [0; 1000000; 2000000].
Proof. vm_compute. done. Qed.

(** C4, connection errors: with an upstream whose every connection
    attempt fails, [request] makes one network attempt and no wait, and
    raises [APIError]: the [except aiohttp.ClientError] clause of the body
    turns the failure into an exception that the decorator does not
    retry, although it lists [aiohttp.ClientError]. *)
Theorem gateway_connection_error_not_retried :
  let out := request the_config (λ _, None) (λ s, Ok s) Fixtures.one_second_clock
               Fixtures.refused_network "GET" "coingecko" "/ping" None None Fixtures.fresh_gateway in
  out.1 = Raise (APIError "API request failed: Cannot connect to host") ∧
  attempts out.2 = 1%nat ∧
  backoffs out.2 = [].
Proof. vm_compute. done. Qed.

End GatewayRuns.

(** ** The batch scheduler *)

Section SchedulerFacts.
Import BatchProcessor.
Context {C : Type}.
Variable process_request : dict → C → result exn dict * C.
Variable max_retries : nat.

Local Abbreviation state := (@BatchProcessor.state C).
Implicit Types (st : state) (batch : list BatchRequest) (new : list event).

(** *** The monad *)

Lemma bind_ok {A B} (m : M A) (f : A → M B) st a st1 :
  m st = (Ok a, st1) → (m ≫= f) st = f a st1.
Proof. intros H. unfold mbind, M_bind. by rewrite H. Qed.

Lemma bind_raise {A B} (m : M A) (f : A → M B) st e st1 :
  m st = (Raise e, st1) → (m ≫= f) st = (Raise e, st1).
Proof. intros H. unfold mbind, M_bind. by rewrite H. Qed.

(** *** Counting resolutions *)

Lemma resolutions_app f new1 new2 :
  resolutions f (new1 ++ new2) = (resolutions f new1 + resolutions f new2)%nat.
Proof. unfold resolutions. by rewrite filter_app, length_app. Qed.

Lemma resolutions_nil f : resolutions f [] = 0%nat.
Proof. done. Qed.

Lemma resolutions_retry_events f payload attempt k :
  resolutions f (retry_events payload attempt k) = 0%nat.
Proof.
  revert attempt. induction k as [|k IH]; intros attempt; [done|].
  simpl. unfold resolutions in *. simpl.
  rewrite !filter_cons_False by (simpl; tauto). apply IH.
Qed.

Lemma resolutions_resolve f g outcome :
  resolutions f [Resolve g outcome] = if decide (g = f) then 1%nat else 0%nat.
Proof.
  unfold resolutions. destruct (decide (g = f)) as [->|Hne].
  - by rewrite filter_cons_True.
  - by rewrite filter_cons_False.
Qed.

Lemma settled_not_pending fut : settled fut → fut ≠ Pending.
Proof. by destruct fut. Qed.

(** *** How states evolve *)

Lemma evolves_refl st : evolves st st [].
Proof.
  split; [by rewrite app_nil_r|]. split; [done|].
  intros f fut Hf. left. done.
Qed.

Lemma evolves_trans st st1 st2 new1 new2 :
  evolves st st1 new1 → evolves st1 st2 new2 → evolves st st2 (new1 ++ new2).
Proof.
  intros (Ht1 & Hl1 & H1) (Ht2 & Hl2 & H2).
  split; [by rewrite Ht2, Ht1, app_assoc|].
  split; [congruence|].
  intros f fut Hf. rewrite resolutions_app.
  destruct (H1 f fut Hf) as [[Hkeep Hn1]|(-> & Hn1 & fut' & Hset & Hf')].
  - destruct (H2 f fut Hkeep) as [[Hkeep2 Hn2]|(-> & Hn2 & fut' & Hset & Hf')].
    + left. split; [done|lia].
    + right. split; [done|]. split; [lia|]. eauto.
  - destruct (H2 f fut' Hf') as [[Hkeep2 Hn2]|(-> & _)].
    + right. split; [done|]. split; [lia|]. eauto.
    + destruct Hset.
Qed.

(** A change of the client and of the trace by events that resolve
    nothing. *)
Lemma evolves_quiet st c new :
  (∀ f, resolutions f new = 0%nat) →
  evolves st (mkState (futures st) c (trace st ++ new)) new.
Proof.
  intros Hq. split; [done|]. split; [done|].
  intros f fut Hf. left. by split.
Qed.

Lemma emit_evolves ev st :
  (∀ f, ¬ resolves f ev) →
  emit ev st = (Ok (), (emit ev st).2) ∧
  evolves st (emit ev st).2 [ev].
Proof.
  intros Hev. split; [done|]. unfold emit. simpl.
  apply evolves_quiet. intros f. unfold resolutions.
  by rewrite filter_cons_False.
Qed.

Lemma call_client_spec payload st :
  let out := call_client process_request payload st in
  out.1 = (process_request payload (client st)).1 ∧
  futures out.2 = futures st ∧
  client out.2 = (process_request payload (client st)).2 ∧
  trace out.2 = trace st ++ [Call payload].
Proof.
  unfold call_client. by destruct (process_request payload (client st)).
Qed.

Lemma resolve_pending f outcome st :
  futures st !! f = Some Pending →
  settled outcome →
  let st' := mkState (<[f := outcome]> (futures st)) (client st)
                     (trace st ++ [Resolve f outcome]) in
  resolve f outcome st = (Ok (), st') ∧
  evolves st st' [Resolve f outcome] ∧
  futures st' !! f = Some outcome.
Proof.
  intros Hf Hset st'. unfold resolve. rewrite Hf.
  assert (Hlt : (f < length (futures st))%nat) by by eapply lookup_lt_Some.
  split; [done|]. split.
  - split; [done|]. split; [apply length_insert|].
    intros g fut Hg. rewrite resolutions_resolve. simpl.
    destruct (decide (f = g)) as [->|Hne].
    + right. rewrite Hf in Hg. injection Hg as <-.
      split; [done|]. split; [done|]. exists outcome.
      split; [done|]. by apply list_lookup_insert_eq.
    + left. split; [|done]. by rewrite list_lookup_insert_ne.
  - simpl. by apply list_lookup_insert_eq.
Qed.

Lemma done_pending f st :
  futures st !! f = Some Pending → done f st = (Ok false, st).
Proof. intros H. unfold done. by rewrite H. Qed.

Lemma done_not_pending f st :
  futures st !! f ≠ Some Pending → done f st = (Ok true, st).
Proof. intros H. unfold done. by destruct (futures st !! f) as [[]|]. Qed.

Lemma evolves_kept st st' new f fut :
  evolves st st' new → futures st !! f = Some fut → fut ≠ Pending →
  futures st' !! f = Some fut ∧ resolutions f new = 0%nat.
Proof.
  intros (_ & _ & H) Hf Hne.
  destruct (H f fut Hf) as [?|(-> & _)]; [done|by destruct Hne].
Qed.

Lemma evolves_lookup st st' new f fut :
  evolves st st' new → futures st !! f = Some fut →
  ∃ fut', futures st' !! f = Some fut'.
Proof.
  intros (_ & _ & H) Hf.
  destruct (H f fut Hf) as [[? _]|(_ & _ & fut' & _ & ?)]; eauto.
Qed.

Lemma evolves_new_unique st st' new1 new2 :
  evolves st st' new1 → evolves st st' new2 → new1 = new2.
Proof.
  intros (H1 & _) (H2 & _). rewrite H1 in H2. by apply app_inv_head in H2.
Qed.

(** *** The individual path: [_process_with_retry] *)

Local Abbreviation retry_fuel := (process_with_retry_fuel process_request max_retries).
Local Abbreviation retry := (_process_with_retry process_request max_retries).

(** The equation of the source: call the client; on an exception, wait
    [2 ** attempt] and try again while [attempt < max_retries], else
    raise it. *)
Lemma process_with_retry_unfold request attempt st :
  retry request attempt st =
  try_except (call_client process_request (data request))
    (λ e, if bool_decide (attempt < max_retries)%nat
          then emit (Sleep (2 ^ Z.of_nat attempt));;
               retry request (attempt + 1)
          else raise e) st.
Proof.
  unfold _process_with_retry.
  destruct (max_retries - attempt)%nat as [|n] eqn:Hn; simpl;
    unfold try_except;
    destruct (call_client process_request (data request) st) as [[d|e] st1];
    try done; case_bool_decide; try done; try lia.
  by replace (max_retries - (attempt + 1))%nat with n by lia.
Qed.

Lemma retry_fuel_spec fuel request attempt st :
  (max_retries - attempt ≤ fuel)%nat →
  let out := retry_fuel fuel request attempt st in
  ∃ k, (attempt + k ≤ Nat.max attempt max_retries)%nat ∧
       futures out.2 = futures st ∧
       trace out.2 = trace st ++ retry_events (data request) attempt k ∧
       (∀ e, out.1 = Raise e → (max_retries ≤ attempt + k)%nat).
Proof.
  revert attempt st. induction fuel as [|fuel IH]; intros attempt st Hfuel; simpl.
  - unfold try_except.
    pose proof (call_client_spec (data request) st) as (H1 & H2 & H3 & H4).
    destruct (call_client process_request (data request) st) as [[d|e] st1];
      simpl in *.
    + exists 0%nat. split; [lia|]. split; [done|]. split; [done|]. done.
    + rewrite bool_decide_eq_false_2 by lia. unfold raise. simpl.
      exists 0%nat. split; [lia|]. split; [done|]. split; [done|].
      intros _ _. lia.
  - unfold try_except.
    pose proof (call_client_spec (data request) st) as (H1 & H2 & H3 & H4).
    destruct (call_client process_request (data request) st) as [[d|e] st1];
      simpl in *.
    + exists 0%nat. split; [lia|]. split; [done|]. split; [done|]. done.
    + case_bool_decide as Hlt.
      * unfold mbind, M_bind. simpl.
        match goal with |- context [retry_fuel fuel request (attempt + 1) ?s] =>
          destruct (IH (attempt + 1)%nat s) as (k & Hk & Hf & Ht & Hr); [lia|]
        end.
        simpl in *. exists (S k). split; [lia|]. split; [congruence|]. split.
        { rewrite Ht, H4, Nat.add_1_r, <- !app_assoc. done. }
        intros e0 He0. specialize (Hr e0 He0). lia.
      * unfold raise. simpl.
        exists 0%nat. split; [lia|]. split; [done|]. split; [done|].
        intros _ _. lia.
Qed.

(** An individual run makes [k <= max_retries] retries, waits
    [2^0, ..., 2^(k-1)] between its [k + 1] calls, touches no future, and
    raises only when all [max_retries] retries are spent. *)
Lemma process_with_retry_spec request st :
  let out := retry request 0 st in
  ∃ k, (k ≤ max_retries)%nat ∧
       futures out.2 = futures st ∧
       trace out.2 = trace st ++ retry_events (data request) 0 k ∧
       (∀ e, out.1 = Raise e → k = max_retries).
Proof.
  destruct (retry_fuel_spec (max_retries - 0) request 0 st) as (k & Hk & Hf & Ht & Hr);
    [done|].
  exists k. split; [lia|]. split; [done|]. split; [done|].
  intros e He. specialize (Hr e He). lia.
Qed.

Lemma process_with_retry_evolves request st :
  ∃ k, (k ≤ max_retries)%nat ∧
    evolves st (retry request 0 st).2 (retry_events (data request) 0 k).
Proof.
  destruct (process_with_retry_spec request st) as (k & Hk & Hf & Ht & _).
  exists k. split; [done|]. split; [done|]. split; [by rewrite Hf|].
  intros f fut Hfut. left. rewrite Hf. split; [done|].
  apply resolutions_retry_events.
Qed.

(** *** The fallback: one request *)

Local Abbreviation handle := (handle_request process_request max_retries).

Lemma handle_request_done request st :
  futures st !! future request ≠ Some Pending →
  handle request st = (Ok (), st).
Proof.
  intros Hd. unfold handle_request.
  by rewrite (bind_ok _ _ _ _ _ (done_not_pending _ _ Hd)).
Qed.

Lemma handle_request_pending request st :
  futures st !! future request = Some Pending →
  let own := retry request 0 st in
  handle request st =
    (Ok (), mkState (<[future request := outcome_of own.1]> (futures st))
                    (client own.2)
                    (trace own.2 ++ [Resolve (future request) (outcome_of own.1)])).
Proof.
  intros Hp own. unfold handle_request.
  rewrite (bind_ok _ _ _ _ _ (done_pending _ _ Hp)). simpl.
  destruct (process_with_retry_spec request st) as (k & _ & Hf & _).
  fold own in Hf. unfold try_except, mbind, M_bind.
  fold own. destruct own as [[d|e] st1] eqn:Hown; simpl in *.
  - unfold set_result, resolve. rewrite Hf, Hp. done.
  - unfold set_exception, resolve. rewrite Hf, Hp. done.
Qed.

Lemma outcome_settled reply : settled (outcome_of reply).
Proof. by destruct reply. Qed.

Lemma handle_request_evolves request st :
  ∃ new, handle request st = (Ok (), (handle request st).2) ∧
         evolves st (handle request st).2 new ∧
         (∀ f, f ≠ future request →
            futures (handle request st).2 !! f = futures st !! f ∧
            resolutions f new = 0%nat) ∧
         futures (handle request st).2 !! future request ≠ Some Pending.
Proof.
  destruct (futures st !! future request) as [fut|] eqn:Hfut.
  - assert (Hcases : fut = Pending ∨ fut ≠ Pending) by (destruct fut; eauto).
    destruct Hcases as [->|Hne].
    + rewrite (handle_request_pending _ _ Hfut). simpl.
      destruct (process_with_retry_evolves request st) as (k & _ & Hev).
      destruct (process_with_retry_spec request st) as (k' & _ & Hf & Ht & _).
      set (own := retry request 0 st) in *.
      assert (Hp1 : futures own.2 !! future request = Some Pending)
        by by rewrite Hf.
      destruct (resolve_pending (future request) (outcome_of own.1) own.2 Hp1
                  (outcome_settled _)) as (_ & Hev2 & Hlk).
      rewrite Hf in Hev2, Hlk.
      eexists. split; [done|]. split; [exact (evolves_trans _ _ _ _ _ Hev Hev2)|].
      split.
      * intros f Hne. rewrite list_lookup_insert_ne by done. split; [done|].
        rewrite resolutions_app, resolutions_retry_events, resolutions_resolve.
        by rewrite decide_False.
      * simpl in Hlk. rewrite Hlk. intros [= Heq].
        by destruct (own.1).
    + assert (Hd : futures st !! future request ≠ Some Pending) by congruence.
      rewrite (handle_request_done _ _ Hd). simpl.
      exists []. split; [done|]. split; [apply evolves_refl|]. split; [|done].
      intros f _. done.
  - assert (Hd : futures st !! future request ≠ Some Pending) by congruence.
    rewrite (handle_request_done _ _ Hd). simpl.
    exists []. split; [done|]. split; [apply evolves_refl|]. split; [|done].
    intros f _. done.
Qed.

Lemma evolves_not_pending st st' new f :
  evolves st st' new → futures st !! f ≠ Some Pending →
  futures st' !! f ≠ Some Pending.
Proof.
  intros Hev Hf. destruct (futures st !! f) as [fut|] eqn:Hfut.
  - destruct (evolves_kept _ _ _ _ _ Hev Hfut) as [-> _]; congruence.
  - destruct Hev as (_ & Hlen & _).
    apply lookup_ge_None in Hfut. rewrite <- Hlen in Hfut.
    apply lookup_ge_None in Hfut. by rewrite Hfut.
Qed.

(** *** The fallback: the whole batch *)

Local Abbreviation handle_all := (handle_loop process_request max_retries).

Lemma handle_loop_cons request batch st :
  handle_all (request :: batch) st = handle_all batch (handle request st).2.
Proof.
  destruct (handle_request_evolves request st) as (new & Hok & _).
  simpl. by rewrite (bind_ok _ _ _ _ _ Hok).
Qed.

Lemma handle_loop_spec batch st :
  ∃ new, handle_all batch st = (Ok (), (handle_all batch st).2) ∧
         evolves st (handle_all batch st).2 new ∧
         (∀ f, f ∉ future <$> batch →
            futures (handle_all batch st).2 !! f = futures st !! f ∧
            resolutions f new = 0%nat) ∧
         (∀ r, r ∈ batch →
            futures (handle_all batch st).2 !! future r ≠ Some Pending).
Proof.
  revert st. induction batch as [|request batch IH]; intros st.
  - exists []. split; [done|]. split; [apply evolves_refl|].
    split; [done|]. intros r Hr. by apply elem_of_nil in Hr.
  - rewrite handle_loop_cons.
    destruct (handle_request_evolves request st) as (new1 & _ & Hev1 & Hfr1 & Hset1).
    destruct (IH (handle request st).2) as (new2 & Hok2 & Hev2 & Hfr2 & Hset2).
    exists (new1 ++ new2). split; [done|].
    split; [exact (evolves_trans _ _ _ _ _ Hev1 Hev2)|]. split.
    + intros f Hf. rewrite fmap_cons, not_elem_of_cons in Hf.
      destruct Hf as [Hne Hnin].
      destruct (Hfr1 f Hne) as [<- Hn1]. destruct (Hfr2 f Hnin) as [-> Hn2].
      split; [done|]. rewrite resolutions_app. lia.
    + intros r Hr. apply elem_of_cons in Hr as [->|Hr]; [|by apply Hset2].
      by eapply evolves_not_pending.
Qed.

Lemma handle_loop_app pre post st :
  handle_all (pre ++ post) st = handle_all post (handle_all pre st).2.
Proof.
  revert st. induction pre as [|request pre IH]; intros st; [done|].
  rewrite <- app_comm_cons, !handle_loop_cons. apply IH.
Qed.

Local Abbreviation fallback := (_handle_batch_error process_request max_retries).

Lemma handle_batch_error_unfold batch error st :
  fallback batch error st =
  handle_all batch (mkState (futures st) (client st)
                            (trace st ++ [Metric "batch_errors"])).
Proof. done. Qed.

Lemma handle_batch_error_spec batch error st :
  ∃ new, fallback batch error st = (Ok (), (fallback batch error st).2) ∧
         evolves st (fallback batch error st).2 new ∧
         (∀ f, f ∉ future <$> batch →
            futures (fallback batch error st).2 !! f = futures st !! f ∧
            resolutions f new = 0%nat) ∧
         (∀ r, r ∈ batch →
            futures (fallback batch error st).2 !! future r ≠ Some Pending).
Proof.
  rewrite handle_batch_error_unfold.
  set (st0 := mkState (futures st) (client st)
                      (trace st ++ [Metric "batch_errors"])).
  destruct (handle_loop_spec batch st0) as (new & Hok & Hev & Hfr & Hset).
  assert (Hev0 : evolves st st0 [Metric "batch_errors"]).
  { apply evolves_quiet. intros f. unfold resolutions.
    by rewrite filter_cons_False by (simpl; tauto). }
  exists ([Metric "batch_errors"] ++ new). split; [done|].
  split; [exact (evolves_trans _ _ _ _ _ Hev0 Hev)|]. split; [|done].
  intros f Hf. destruct (Hfr f Hf) as [-> Hn]. split; [done|].
  rewrite resolutions_app, Hn. done.
Qed.

(** *** Distribution of the results of a batch *)

Local Abbreviation distribute := (distribute_loop (C:=C)).

Lemma distribute_loop_cons request batch (result : value) results st :
  distribute (request :: batch) (result :: results) st =
  distribute batch results
    (match futures st !! future request with
     | Some Pending =>
         mkState (<[future request := Finished result]> (futures st))
                 (client st)
                 (trace st ++ [Resolve (future request) (Finished result)])
     | _ => st
     end).
Proof.
  simpl. destruct (futures st !! future request) as [fut|] eqn:Hfut.
  - assert (Hcases : fut = Pending ∨ fut ≠ Pending) by (destruct fut; eauto).
    destruct Hcases as [->|Hne].
    + rewrite (bind_ok _ _ _ _ _ (done_pending _ _ Hfut)).
      unfold set_result.
      destruct (resolve_pending (future request) (Finished result) st Hfut I)
        as (Hres & _).
      by rewrite (bind_ok _ _ _ _ _ Hres).
    + assert (Hd : futures st !! future request ≠ Some Pending) by congruence.
      rewrite (bind_ok _ _ _ _ _ (done_not_pending _ _ Hd)).
      destruct fut; done.
  - assert (Hd : futures st !! future request ≠ Some Pending) by congruence.
    rewrite Hfut in Hd.
    by rewrite (bind_ok _ _ _ _ _ (done_not_pending _ _ ltac:(by rewrite Hfut))).
Qed.

Lemma distribute_step_spec request (result : value) st :
  let st1 := match futures st !! future request with
             | Some Pending =>
                 mkState (<[future request := Finished result]> (futures st))
                         (client st)
                         (trace st ++ [Resolve (future request) (Finished result)])
             | _ => st
             end in
  ∃ new, evolves st st1 new ∧ client st1 = client st ∧
         (∀ f, f ≠ future request →
            futures st1 !! f = futures st !! f ∧ resolutions f new = 0%nat) ∧
         futures st1 !! future request ≠ Some Pending ∧
         (futures st !! future request = Some Pending →
            futures st1 !! future request = Some (Finished result) ∧
            resolutions (future request) new = 1%nat) ∧
         (∀ ev, ev ∈ new → ∃ f o, ev = Resolve f o).
Proof.
  intros st1. subst st1.
  destruct (futures st !! future request) as [fut|] eqn:Hfut.
  - assert (Hcases : fut = Pending ∨ fut ≠ Pending) by (destruct fut; eauto).
    destruct Hcases as [->|Hne].
    + destruct (resolve_pending (future request) (Finished result) st Hfut I)
        as (_ & Hev & Hlk).
      exists [Resolve (future request) (Finished result)].
      split; [done|]. split; [done|]. split; [|split; [|split]].
      * intros f Hf. simpl. rewrite list_lookup_insert_ne by done.
        split; [done|]. rewrite resolutions_resolve. by rewrite decide_False.
      * rewrite Hlk. done.
      * intros _. split; [done|]. rewrite resolutions_resolve.
        by rewrite decide_True.
      * intros ev Hev'. apply list_elem_of_singleton in Hev' as ->. eauto.
    + exists []. assert (Hst : match fut with Pending =>
          mkState (<[future request := Finished result]> (futures st))
            (client st) (trace st ++ [Resolve (future request) (Finished result)])
          | _ => st end = st) by (destruct fut; done).
      rewrite Hst. split; [apply evolves_refl|]. split; [done|].
      split; [done|]. split; [congruence|]. split; [congruence|].
      intros ev Hev. by apply elem_of_nil in Hev.
  - exists []. split; [apply evolves_refl|]. split; [done|].
    split; [done|]. split; [congruence|]. split; [congruence|].
    intros ev Hev. by apply elem_of_nil in Hev.
Qed.

Lemma distribute_loop_spec batch (results : list value) st :
  ∃ new, distribute batch results st =
           (Ok (), (distribute batch results st).2) ∧
         evolves st (distribute batch results st).2 new ∧
         client (distribute batch results st).2 = client st ∧
         (∀ f, f ∉ future <$> batch →
            futures (distribute batch results st).2 !! f = futures st !! f ∧
            resolutions f new = 0%nat) ∧
         (∀ i r, batch !! i = Some r → (i < length results)%nat →
            futures (distribute batch results st).2 !! future r ≠ Some Pending) ∧
         (∀ ev, ev ∈ new → ∃ f o, ev = Resolve f o).
Proof.
  revert results st. induction batch as [|request batch IH];
    intros results st.
  { exists []. split; [by destruct results|].
    assert (Hst : (distribute [] results st).2 = st) by by destruct results.
    rewrite Hst. split; [apply evolves_refl|]. split; [done|].
    split; [done|]. split; [intros i r Hi; by rewrite lookup_nil in Hi|].
    intros ev Hev. by apply elem_of_nil in Hev. }
  destruct results as [|result results].
  { exists []. split; [done|]. split; [apply evolves_refl|]. split; [done|].
    split; [done|]. split; [simpl; intros; lia|].
    intros ev Hev. by apply elem_of_nil in Hev. }
  rewrite distribute_loop_cons.
  destruct (distribute_step_spec request result st)
    as (new1 & Hev1 & Hc1 & Hfr1 & Hset1 & _ & Hres1).
  set (st1 := match futures st !! future request with
              | Some Pending => _ | _ => st end) in *.
  destruct (IH results st1) as (new2 & Hok2 & Hev2 & Hc2 & Hfr2 & Hset2 & Hres2).
  exists (new1 ++ new2). split; [done|].
  split; [exact (evolves_trans _ _ _ _ _ Hev1 Hev2)|].
  split; [congruence|]. split; [|split].
  - intros f Hf. rewrite fmap_cons, not_elem_of_cons in Hf.
    destruct Hf as [Hne Hnin].
    destruct (Hfr1 f Hne) as [<- Hn1]. destruct (Hfr2 f Hnin) as [-> Hn2].
    split; [done|]. rewrite resolutions_app. lia.
  - intros [|i] r Hi Hlt; simpl in *.
    + injection Hi as <-. by eapply evolves_not_pending.
    + apply (Hset2 i r Hi). lia.
  - intros ev Hev. apply elem_of_app in Hev as [Hev|Hev]; eauto.
Qed.

(** With distinct futures, request [i] receives result [i]. *)
Lemma distribute_loop_positional batch (results : list value) st i r v :
  NoDup (future <$> batch) →
  batch !! i = Some r → results !! i = Some v →
  futures st !! future r = Some Pending →
  ∃ new, evolves st (distribute batch results st).2 new ∧
         futures (distribute batch results st).2 !! future r =
           Some (Finished v) ∧
         resolutions (future r) new = 1%nat.
Proof.
  revert results st i. induction batch as [|request batch IH];
    intros results st i Hnd Hi Hv Hp; [by rewrite lookup_nil in Hi|].
  destruct results as [|result results]; [by rewrite lookup_nil in Hv|].
  rewrite fmap_cons in Hnd. apply NoDup_cons in Hnd as [Hnin Hnd].
  rewrite distribute_loop_cons.
  destruct (distribute_step_spec request result st)
    as (new1 & Hev1 & _ & Hfr1 & _ & Hpos1 & _).
  set (st1 := match futures st !! future request with
              | Some Pending => _ | _ => st end) in *.
  destruct i as [|i]; simpl in Hi, Hv.
  - injection Hi as ->. injection Hv as ->.
    destruct (Hpos1 Hp) as [Hlk Hn1].
    destruct (distribute_loop_spec batch results st1)
      as (new2 & _ & Hev2 & _ & Hfr2 & _).
    destruct (Hfr2 _ Hnin) as [Hsame Hn2].
    exists (new1 ++ new2). split; [exact (evolves_trans _ _ _ _ _ Hev1 Hev2)|].
    split; [by rewrite Hsame|]. rewrite resolutions_app. lia.
  - assert (Hne : future r ≠ future request).
    { intros Heq. apply Hnin. rewrite <- Heq.
      apply list_elem_of_fmap. exists r. split; [done|].
      by eapply list_elem_of_lookup_2. }
    destruct (Hfr1 _ Hne) as [Hsame Hn1].
    destruct (IH results st1 i Hnd Hi Hv) as (new2 & Hev2 & Hlk & Hn2);
      [by rewrite Hsame|].
    exists (new1 ++ new2). split; [exact (evolves_trans _ _ _ _ _ Hev1 Hev2)|].
    split; [done|]. rewrite resolutions_app. lia.
Qed.

(** *** The combined call: [_process_batch] *)

Local Abbreviation run_batch := (_process_batch process_request).
Local Abbreviation after_call := (after_batch_call process_request).

Lemma py_len_iter (v : value) n : py_len v = Some n → length (py_iter v) = n.
Proof.
  destruct v as [| |s|items|items]; simpl; intros [= <-]; try done.
  - induction s as [|c s IH]; simpl; [done|]. by rewrite IH.
  - by rewrite length_fmap.
Qed.

Lemma process_batch_state batch st :
  (run_batch batch st).2 = after_call batch st.
Proof.
  unfold _process_batch, measure, try_except, mbind, M_bind, call_client,
    _split_response, after_batch_call.
  destruct (process_request _ (client st)) as [[response|e] c]; simpl.
  - destruct (dict_get response "results") as [results|]; simpl.
    + destruct (py_len results) as [n|]; simpl.
      * case_bool_decide; simpl; by rewrite <- app_assoc.
      * by rewrite <- app_assoc.
    + by rewrite <- app_assoc.
  - by rewrite <- app_assoc.
Qed.

(** The combined call succeeds exactly on a reply that has a ['results']
    entry with one element per request, and returns that entry; every
    failure is a [BatchProcessingError]. *)
Lemma process_batch_result batch st :
  match (process_request (_combine_contexts (data <$> batch)) (client st)).1 with
  | Ok response =>
      match dict_get response "results" with
      | Some results =>
          if bool_decide (py_len results = Some (length batch))
          then (run_batch batch st).1 = Ok results
          else ∃ msg, (run_batch batch st).1 = Raise (BatchProcessingError msg)
      | None => ∃ msg, (run_batch batch st).1 = Raise (BatchProcessingError msg)
      end
  | Raise e =>
      (run_batch batch st).1 =
        Raise (BatchProcessingError ("Failed to process batch: " +:+ exn_str e))
  end.
Proof.
  unfold _process_batch, measure, try_except, mbind, M_bind, call_client,
    _split_response.
  destruct (process_request _ (client st)) as [[response|e] c]; simpl; [|done].
  destruct (dict_get response "results") as [results|]; simpl; [|eauto].
  destruct (py_len results) as [n|] eqn:Hlen; simpl.
  - destruct (decide (n = length batch)) as [->|Hne].
    + rewrite (bool_decide_eq_true_2 (Some _ = Some _)) by done.
      rewrite (bool_decide_eq_false_2 (_ ≠ _)) by (intros H; by apply H).
      done.
    + rewrite (bool_decide_eq_false_2 (Some _ = Some _)) by congruence.
      rewrite (bool_decide_eq_true_2 (_ ≠ _)) by done.
      simpl. eauto.
  - eauto.
Qed.

Lemma process_batch_cases batch st :
  (∃ results, run_batch batch st = (Ok results, after_call batch st) ∧
              length (py_iter results) = length batch) ∨
  (∃ msg, run_batch batch st =
            (Raise (BatchProcessingError msg), after_call batch st)).
Proof.
  pose proof (process_batch_result batch st) as Hres.
  pose proof (process_batch_state batch st) as Hst.
  destruct (run_batch batch st) as [r st1]. simpl in *. subst st1.
  destruct (process_request _ (client st)).1 as [response|e].
  - destruct (dict_get response "results") as [results|].
    + case_bool_decide as Hlen.
      * left. exists results. rewrite Hres. split; [done|].
        by apply py_len_iter.
      * right. destruct Hres as [msg ->]. eauto.
    + right. destruct Hres as [msg ->]. eauto.
  - right. rewrite Hres. eauto.
Qed.

Lemma after_call_evolves batch st :
  evolves st (after_call batch st)
    [Call (_combine_contexts (data <$> batch));
     Metric "batch_processing_duration"].
Proof.
  apply evolves_quiet. intros f. unfold resolutions.
  by rewrite !filter_cons_False by (simpl; tauto).
Qed.

Local Abbreviation collected := (process_collected process_request max_retries).

Lemma process_collected_ok batch st results :
  run_batch batch st = (Ok results, after_call batch st) →
  collected batch st = distribute batch (py_iter results) (after_call batch st).
Proof.
  intros Hrun. unfold process_collected, try_except.
  rewrite (bind_ok _ _ _ _ _ Hrun). unfold _distribute_results.
  destruct (distribute_loop_spec batch (py_iter results) (after_call batch st))
    as (new & Hok & _).
  rewrite Hok at 1. by rewrite <- Hok.
Qed.

Lemma process_collected_raise batch st e :
  run_batch batch st = (Raise e, after_call batch st) →
  collected batch st = fallback batch e (after_call batch st).
Proof.
  intros Hrun. unfold process_collected, try_except.
  by rewrite (bind_raise _ _ _ _ _ Hrun).
Qed.

(** *** A second resolution attempt is a no-op *)

Lemma distribute_loop_noop batch (results : list value) st :
  (∀ r, r ∈ batch → futures st !! future r ≠ Some Pending) →
  distribute batch results st = (Ok (), st).
Proof.
  revert results. induction batch as [|request batch IH]; intros results Hd.
  { by destruct results. }
  destruct results as [|result results]; [done|].
  rewrite distribute_loop_cons.
  assert (Hreq : futures st !! future request ≠ Some Pending)
    by (apply Hd; left).
  destruct (futures st !! future request) as [[]|]; try done;
    apply IH; intros r Hr; apply Hd; by right.
Qed.

Lemma handle_loop_noop batch st :
  (∀ r, r ∈ batch → futures st !! future r ≠ Some Pending) →
  handle_all batch st = (Ok (), st).
Proof.
  induction batch as [|request batch IH]; intros Hd; [done|].
  rewrite handle_loop_cons, handle_request_done by (apply Hd; left).
  apply IH. intros r Hr. apply Hd. by right.
Qed.

(** *** A request of the fallback gets the outcome of its own run *)

Lemma fallback_own_outcome pre r post error st :
  NoDup (future <$> pre ++ r :: post) →
  futures st !! future r = Some Pending →
  let before := (fallback pre error st).2 in
  futures before !! future r = Some Pending ∧
  futures (fallback (pre ++ r :: post) error st).2 !! future r =
    Some (outcome_of (retry r 0 before).1).
Proof.
  intros Hnd Hp before. subst before.
  rewrite fmap_app, fmap_cons in Hnd.
  apply NoDup_app in Hnd as (_ & Hpre & Hnd).
  apply NoDup_cons in Hnd as [Hpost _].
  assert (Hnpre : future r ∉ future <$> pre).
  { intros Hin. apply (Hpre _ Hin). left. }
  destruct (handle_batch_error_spec pre error st) as (new & _ & _ & Hfr & _).
  destruct (Hfr _ Hnpre) as [Hsame _]. rewrite <- Hsame in Hp.
  split; [done|].
  rewrite !handle_batch_error_unfold, handle_loop_app, handle_loop_cons.
  rewrite <- handle_batch_error_unfold with (error := error).
  set (before := (fallback pre error st).2) in *.
  destruct (handle_loop_spec post (handle r before).2) as (new2 & _ & _ & Hfr2 & _).
  destruct (Hfr2 _ Hpost) as [-> _].
  rewrite (handle_request_pending _ _ Hp). simpl.
  apply list_lookup_insert_eq. by eapply lookup_lt_Some.
Qed.

(** With a client whose reply to a payload does not depend on what it
    was asked before, the outcome of an individual run is the reply to
    the request's own payload. *)
Lemma retry_fuel_stateless (reply : dict → result exn dict) fuel request attempt st :
  (∀ payload c, (process_request payload c).1 = reply payload) →
  (retry_fuel fuel request attempt st).1 = reply (data request).
Proof.
  intros Hreply. revert attempt st.
  induction fuel as [|fuel IH]; intros attempt st; simpl; unfold try_except;
    pose proof (call_client_spec (data request) st) as (H1 & _);
    rewrite Hreply in H1;
    destruct (call_client process_request (data request) st) as [[d|e] st1];
    simpl in *; try done.
  - case_bool_decide; done.
  - case_bool_decide; [|done]. unfold mbind, M_bind. simpl. apply IH.
Qed.

(** *** Handling a collected batch *)

Lemma process_collected_spec batch st :
  ∃ new, collected batch st = (Ok (), (collected batch st).2) ∧
         evolves st (collected batch st).2 new ∧
         (∀ r, r ∈ batch →
            futures (collected batch st).2 !! future r ≠ Some Pending).
Proof.
  pose proof (after_call_evolves batch st) as Hev0.
  destruct (process_batch_cases batch st) as [(results & Hrun & Hlen)|(msg & Hrun)].
  - rewrite (process_collected_ok _ _ _ Hrun).
    destruct (distribute_loop_spec batch (py_iter results) (after_call batch st))
      as (new & Hok & Hev & _ & _ & Hset & _).
    eexists. split; [done|].
    split; [exact (evolves_trans _ _ _ _ _ Hev0 Hev)|].
    intros r Hr. apply list_elem_of_lookup in Hr as [i Hi].
    apply (Hset i r Hi). rewrite Hlen. by eapply lookup_lt_Some.
  - rewrite (process_collected_raise _ _ _ Hrun).
    destruct (handle_batch_error_spec batch (BatchProcessingError msg)
                (after_call batch st)) as (new & Hok & Hev & _ & Hset).
    eexists. split; [done|].
    split; [exact (evolves_trans _ _ _ _ _ Hev0 Hev)|]. done.
Qed.

(** Exactly-once resolution when no await is interrupted. Handling a
    collected batch, by distribution or by the per-item fallback, never
    raises (no resolution is attempted on a future that is done); a
    future that was not pending is left as it was, and a pending one is
    resolved at most once, with a result or with an exception;
    afterwards no future of the batch is pending, and one that was
    pending has been resolved exactly once. Distributing results or
    running the fallback again on the handled batch changes no future. *)
Lemma exactly_once_uninterrupted batch st :
  (∀ r, r ∈ batch → is_Some (futures st !! future r)) →
  let final := collected batch st in
  ∃ new,
    final.1 = Ok () ∧
    evolves st final.2 new ∧
    (∀ r, r ∈ batch →
       ∃ fut, futures final.2 !! future r = Some fut ∧ fut ≠ Pending) ∧
    (∀ r, r ∈ batch → futures st !! future r = Some Pending →
       resolutions (future r) new = 1%nat ∧
       ∃ fut, settled fut ∧ futures final.2 !! future r = Some fut) ∧
    (∀ results error,
       _distribute_results batch results final.2 = (Ok (), final.2) ∧
       (fallback batch error final.2).1 = Ok () ∧
       futures (fallback batch error final.2).2 = futures final.2).
Proof.
  intros Halloc final. subst final.
  destruct (process_collected_spec batch st) as (new & Hok & Hev & Hset).
  exists new. split; [by rewrite Hok|]. split; [done|].
  assert (Hnp : ∀ r, r ∈ batch →
            ∃ fut, futures (collected batch st).2 !! future r = Some fut ∧
                   fut ≠ Pending).
  { intros r Hr. destruct (Halloc r Hr) as [fut0 Hfut0].
    destruct (evolves_lookup _ _ _ _ _ Hev Hfut0) as [fut Hfut].
    exists fut. split; [done|]. intros ->. by apply (Hset r Hr). }
  split; [done|]. split.
  - intros r Hr Hp. destruct Hev as (_ & _ & Hfut).
    destruct (Hfut _ _ Hp) as [[Hkeep _]|(_ & Hone & Hres)]; [|done].
    by destruct (Hset r Hr).
  - intros results error. split; [|split].
    + by apply distribute_loop_noop.
    + destruct (handle_batch_error_spec batch error (collected batch st).2)
        as (new' & Hok' & _). by rewrite Hok'.
    + rewrite handle_batch_error_unfold, handle_loop_noop; [done|].
      intros r Hr. by apply Hset.
Qed.

(** C7. Positional result mapping. When the combined call returns a
    ['results'] collection with one entry per request, request [i] of the
    batch has its future resolved, once, with entry [i] if the future
    was pending, and left as it was, unresolved, if it was already done. *)
Theorem positional_result_mapping batch st response results :
  (process_request (_combine_contexts (data <$> batch)) (client st)).1
    = Ok response →
  dict_get response "results" = Some results →
  py_len results = Some (length batch) →
  NoDup (future <$> batch) →
  (∀ r, r ∈ batch → is_Some (futures st !! future r)) →
  let final := collected batch st in
  ∃ new,
    final.1 = Ok () ∧
    evolves st final.2 new ∧
    ∀ i r, batch !! i = Some r →
      ∃ result, py_iter results !! i = Some result ∧
        ((futures st !! future r = Some Pending ∧
          futures final.2 !! future r = Some (Finished result) ∧
          resolutions (future r) new = 1%nat) ∨
         (futures st !! future r ≠ Some Pending ∧
          futures final.2 !! future r = futures st !! future r ∧
          resolutions (future r) new = 0%nat)).
Proof.
  intros Hreply Hget Hlen Hnd Halloc final. subst final.
  pose proof (process_batch_result batch st) as Hres.
  rewrite Hreply, Hget, bool_decide_eq_true_2 in Hres by done.
  pose proof (process_batch_state batch st) as Hst.
  assert (Hrun : run_batch batch st = (Ok results, after_call batch st)).
  { destruct (run_batch batch st). simpl in *. congruence. }
  rewrite (process_collected_ok _ _ _ Hrun).
  pose proof (after_call_evolves batch st) as Hev0.
  destruct (distribute_loop_spec batch (py_iter results) (after_call batch st))
    as (new & Hok & Hev & _).
  pose proof (evolves_trans _ _ _ _ _ Hev0 Hev) as Hall.
  eexists. split; [by rewrite Hok|]. split; [exact Hall|].
  intros i r Hi.
  destruct (lookup_lt_is_Some_2 (py_iter results) i) as [result Hresult].
  { rewrite (py_len_iter _ _ Hlen). by eapply lookup_lt_Some. }
  exists result. split; [done|].
  destruct (Halloc r) as [fut Hfut]; [by eapply list_elem_of_lookup_2|].
  assert (Hcases : fut = Pending ∨ fut ≠ Pending) by (destruct fut; eauto).
  destruct Hcases as [->|Hne].
  - left. split; [done|].
    destruct (distribute_loop_positional batch (py_iter results)
                (after_call batch st) i r result Hnd Hi Hresult Hfut)
      as (new' & Hev' & Hlk & Hone).
    rewrite (evolves_new_unique _ _ _ _ Hev Hev').
    split; [done|]. rewrite resolutions_app, Hone.
    unfold resolutions. by rewrite !filter_cons_False by (simpl; tauto).
  - right. destruct (evolves_kept _ _ _ _ _ Hall Hfut Hne) as [Hkeep Hzero].
    split; [congruence|]. split; [congruence|]. done.
Qed.


(** Isolation in the fallback when no await is interrupted. A request
    whose future is pending is run on its own payload: its run makes
    [k <= max_retries] retries, waits [2^attempt] before retry number
    [attempt], and raises only when all [max_retries] retries have
    failed; the future is resolved with the result of that run, or with
    its exception; the run changes no other future, and the fallback as a
    whole never raises, whatever the runs of the other requests did. With
    a client that answers a payload regardless of what it was asked
    before, the future holds the answer to the request's own payload. *)
Lemma fallback_isolation_uninterrupted pre r post error st :
  NoDup (future <$> pre ++ r :: post) →
  futures st !! future r = Some Pending →
  let before := (fallback pre error st).2 in
  let own := retry r 0 before in
  let final := fallback (pre ++ r :: post) error st in
  final.1 = Ok () ∧
  (∃ k, (k ≤ max_retries)%nat ∧
        trace own.2 = trace before ++ retry_events (data r) 0 k ∧
        futures own.2 = futures before ∧
        (∀ e, own.1 = Raise e → k = max_retries)) ∧
  futures final.2 !! future r = Some (outcome_of own.1) ∧
  (∀ f, f ≠ future r →
     futures (handle r before).2 !! f = futures before !! f) ∧
  (∀ reply, (∀ payload c, (process_request payload c).1 = reply payload) →
     futures final.2 !! future r = Some (outcome_of (reply (data r)))).
Proof.
  intros Hnd Hp before own final.
  destruct (fallback_own_outcome pre r post error st Hnd Hp) as [Hpb Hown].
  fold before in Hpb, Hown. fold own in Hown. fold final in Hown.
  split; [|split; [|split; [|split]]].
  - subst final.
    destruct (handle_batch_error_spec (pre ++ r :: post) error st)
      as (new & Hok & _). by rewrite Hok.
  - destruct (process_with_retry_spec r before) as (k & Hk & Hf & Ht & Hr).
    exists k. done.
  - done.
  - intros f Hne.
    destruct (handle_request_evolves r before) as (new & _ & _ & Hfr & _).
    by destruct (Hfr f Hne).
  - intros reply Hreply. rewrite Hown. do 2 f_equal.
    by apply retry_fuel_stateless.
Qed.

End SchedulerFacts.

(** *** The examples of the specification, run *)

Section SchedulerRuns.
Import BatchProcessor Fixtures.

(** Payloads [{a}, {b}, {c}] and a reply [{results: [1, 2, 3]}]: the
    three futures hold 1, 2 and 3. *)
Example positional_mapping_run :
  let final := process_collected scripted 3 abc (all_pending [one_two_three]) in
  final.1 = Ok () ∧
  futures final.2 = [Finished (VInt 1); Finished (VInt 2); Finished (VInt 3)].
Proof. vm_compute. done. Qed.

(** A reply [{results: [1, 2]}] for three requests: nothing of it is
    delivered; each request is run on its own. *)
Example shape_mismatch_run :
  let final := process_collected scripted 3 abc
                 (all_pending [one_two; Ok [("r", VStr "a")];
                               Ok [("r", VStr "b")]; Ok [("r", VStr "c")]]) in
  final.1 = Ok () ∧
  futures final.2 = [Finished (VDict [("r", VStr "a")]);
                     Finished (VDict [("r", VStr "b")]);
                     Finished (VDict [("r", VStr "c")])] ∧
  calls_of (trace final.2) =
    [_combine_contexts (data <$> abc); data req_a; data req_b; data req_c].
Proof. vm_compute. done. Qed.

(** The combined call fails, two requests succeed on their own and the
    third always fails: with [max_retries = 3] it is called four times,
    with waits of 1, 2 and 4 seconds, and fails alone. *)
Example fallback_isolation_run :
  let final := process_collected picky 3 abc (all_pending 0%nat) in
  final.1 = Ok () ∧
  futures final.2 = [Finished (VDict [("echo", VStr "a")]);
                     Finished (VDict [("echo", VStr "b")]);
                     Failed (ClientException "rejected")] ∧
  sleeps_of (trace final.2) = [1; 2; 4] ∧
  client final.2 = 7%nat.
Proof. vm_compute. done. Qed.

End SchedulerRuns.

Lemma positional_result_mapping_witness :
  (BatchProcessor.process_collected Fixtures.scripted 3 Fixtures.abc
     (Fixtures.all_pending [Fixtures.one_two_three])).1 = Ok ().
Proof.
  destruct (positional_result_mapping Fixtures.scripted 3 Fixtures.abc
              (Fixtures.all_pending [Fixtures.one_two_three])
              [("results", BatchProcessor.VList
                  [BatchProcessor.VInt 1; BatchProcessor.VInt 2;
                   BatchProcessor.VInt 3])]
              (BatchProcessor.VList
                 [BatchProcessor.VInt 1; BatchProcessor.VInt 2;
                  BatchProcessor.VInt 3]))
    as (new & Hok & _).
  - reflexivity.
  - reflexivity.
  - reflexivity.
  - apply (bool_decide_unpack _). vm_compute. exact I.
  - intros r Hr. unfold Fixtures.abc in Hr.
    repeat (apply elem_of_cons in Hr as [->|Hr]); try (by eexists).
    by apply elem_of_nil in Hr.
  - exact Hok.
Defined.


(** ** The scheduler among its callers *)

Section CancellationFacts.
Import BatchProcessor.
Context {C : Type}.
Variable process_request : dict → C → result exn dict * C.
Variable max_retries : nat.
Variable cancelled_at : list event → list nat.

Local Abbreviation state := (@BatchProcessor.state C).
Implicit Types (st : state) (batch : list BatchRequest).

Local Abbreviation call :=
  (Cancellation.call_client process_request cancelled_at).
Local Abbreviation retry_fuel :=
  (Cancellation.process_with_retry_fuel process_request max_retries cancelled_at).
Local Abbreviation retry :=
  (Cancellation._process_with_retry process_request max_retries cancelled_at).
Local Abbreviation handle :=
  (Cancellation.handle_request process_request max_retries cancelled_at).
Local Abbreviation handle_all :=
  (Cancellation.handle_loop process_request max_retries cancelled_at).
Local Abbreviation fallback :=
  (Cancellation._handle_batch_error process_request max_retries cancelled_at).
Local Abbreviation collected :=
  (Cancellation.process_collected process_request max_retries cancelled_at).

(** *** The awaits *)

Lemma call_spec payload st :
  let out := call payload st in
  out.1 = (process_request payload (client st)).1 ∧
  client out.2 = (process_request payload (client st)).2 ∧
  trace out.2 = trace st ++ [Call payload].
Proof.
  unfold Cancellation.call_client, call_client.
  by destruct (process_request payload (client st)).
Qed.

Lemma sleep_spec seconds st :
  let out := Cancellation.sleep cancelled_at seconds st in
  out.1 = Ok () ∧ client out.2 = client st ∧
  trace out.2 = trace st ++ [Sleep seconds].
Proof. done. Qed.

(** *** The individual run *)

Lemma replies_cons payload n c :
  Cancellation.replies process_request payload (S n) c =
  (process_request payload c).1 ::
    Cancellation.replies process_request payload n (process_request payload c).2.
Proof. simpl. by destruct (process_request payload c). Qed.

Lemma retry_fuel_replies fuel request attempt st :
  (max_retries - attempt ≤ fuel)%nat →
  let out := retry_fuel fuel request attempt st in
  ∃ k failures,
    (attempt + k ≤ Nat.max attempt max_retries)%nat ∧
    length failures = k ∧
    Cancellation.replies process_request (data request) (S k) (client st) =
      (Raise <$> failures) ++ [out.1] ∧
    (is_ok out.1 = false → (max_retries ≤ attempt + k)%nat) ∧
    trace out.2 = trace st ++ retry_events (data request) attempt k.
Proof.
  revert attempt st. induction fuel as [|fuel IH]; intros attempt st Hfuel;
    cbn [Cancellation.process_with_retry_fuel]; unfold try_except;
    pose proof (call_spec (data request) st) as (H1 & H2 & H3);
    destruct (call (data request) st) as [[d|e] st1]; simpl in H1, H2, H3.
  - exists 0%nat, []. rewrite replies_cons, <- H1. simpl.
    split; [lia|]. done.
  - rewrite bool_decide_eq_false_2 by lia. unfold raise.
    exists 0%nat, []. rewrite replies_cons, <- H1. simpl.
    split; [lia|]. split; [done|]. split; [done|]. split; [lia|done].
  - exists 0%nat, []. rewrite replies_cons, <- H1. simpl.
    split; [lia|]. done.
  - case_bool_decide as Hlt; cycle 1.
    { unfold raise.
      exists 0%nat, []. rewrite replies_cons, <- H1. simpl.
      split; [lia|]. split; [done|]. split; [done|]. split; [lia|done]. }
    unfold mbind, M_bind.
    pose proof (sleep_spec (2 ^ Z.of_nat attempt) st1) as (Hs1 & Hs2 & Hs3).
    destruct (Cancellation.sleep cancelled_at (2 ^ Z.of_nat attempt) st1)
      as [r2 st2]. simpl in Hs1, Hs2, Hs3. subst r2.
    destruct (IH (attempt + 1)%nat st2) as (k & failures & Hk & Hlen & Hrep & Hex & Htr);
      [lia|].
    exists (S k), (e :: failures).
    split; [lia|]. split; [simpl; lia|]. split.
    { rewrite replies_cons, <- H1, <- H2, <- Hs2, Hrep. done. }
    split; [intros Hno; specialize (Hex Hno); lia|].
    rewrite Htr, Hs3, H3, Nat.add_1_r, <- !app_assoc. done.
Qed.

(** X24. The retry schedule of an individual run, whatever the callers
    do: the client is called with the request's own payload until a call
    succeeds or [max_retries] retries are spent. The [k] calls that were
    retried all failed, the run ends with the reply to call [k + 1], a
    success at the first call that succeeds and a failure only when
    [k = max_retries]; the wait before retry [i] is [2^i] seconds. *)
Theorem retry_stops_at_first_success request st :
  let out := Cancellation._process_with_retry process_request max_retries
               cancelled_at request 0 st in
  ∃ k failures,
    (k ≤ max_retries)%nat ∧ length failures = k ∧
    Cancellation.replies process_request (data request) (S k) (client st) =
      (Raise <$> failures) ++ [out.1] ∧
    (is_ok out.1 = false → k = max_retries) ∧
    trace out.2 = trace st ++ retry_events (data request) 0 k.
Proof.
  destruct (retry_fuel_replies (max_retries - 0) request 0 st)
    as (k & failures & Hk & Hlen & Hrep & Hex & Htr); [done|].
  exists k, failures. split; [lia|]. split; [done|]. split; [done|].
  split; [|done]. intros Hno. specialize (Hex Hno). lia.
Qed.

(** *** The fallback *)

Lemma handle_request_skips request st :
  futures st !! future request ≠ Some Pending →
  handle request st = (Ok (), st).
Proof.
  intros Hd. unfold Cancellation.handle_request.
  by rewrite (bind_ok _ _ _ _ _ (done_not_pending _ _ Hd)).
Qed.

(** A request that is pending at its turn is run; its future is resolved
    if it is still pending after the run, and both [set_result] and the
    [set_exception] of the handler raise if it is not. *)
Lemma handle_request_runs request st :
  futures st !! future request = Some Pending →
  let own := retry request 0 st in
  handle request st =
    match futures own.2 !! future request with
    | Some Pending =>
        (Ok (), mkState (<[future request := outcome_of own.1]> (futures own.2))
                        (client own.2)
                        (trace own.2 ++
                           [Resolve (future request) (outcome_of own.1)]))
    | _ => (Raise (InvalidStateError "invalid state"), own.2)
    end.
Proof.
  intros Hp own. unfold Cancellation.handle_request.
  rewrite (bind_ok _ _ _ _ _ (done_pending _ _ Hp)). simpl.
  unfold try_except, mbind, M_bind. fold own.
  destruct own as [[d|e] st1]; simpl;
    unfold set_result, set_exception, resolve;
    destruct (futures st1 !! future request) as [[]|] eqn:Hf; simpl;
    rewrite ?Hf; done.
Qed.

Lemma handle_loop_split pre post st :
  handle_all (pre ++ post) st =
  match handle_all pre st with
  | (Ok _, st1) => handle_all post st1
  | (Raise e, st1) => (Raise e, st1)
  end.
Proof.
  revert st. induction pre as [|request pre IH]; intros st; [done|].
  simpl. unfold mbind, M_bind.
  destruct (handle request st) as [[[]|e] st1]; [apply IH|done].
Qed.

Lemma fallback_split pre post error st :
  fallback (pre ++ post) error st =
  match fallback pre error st with
  | (Ok _, st1) => handle_all post st1
  | (Raise e, st1) => (Raise e, st1)
  end.
Proof.
  unfold Cancellation._handle_batch_error, mbind, M_bind. simpl.
  apply handle_loop_split.
Qed.

(** X25. A caller that is cancelled during the run of its own request
    stops the fallback: when the future of a request was pending at its
    turn and is no longer so after its run, the fallback raises
    [InvalidStateError] and ends in the state that the run left, so the
    requests after it are not called and their futures are not
    resolved. *)
Theorem cancelled_future_aborts_fallback pre r post error st :
  let before := Cancellation._handle_batch_error process_request max_retries
                  cancelled_at pre error st in
  let own := Cancellation._process_with_retry process_request max_retries
               cancelled_at r 0 before.2 in
  before.1 = Ok () →
  futures before.2 !! future r = Some Pending →
  futures own.2 !! future r ≠ Some Pending →
  Cancellation._handle_batch_error process_request max_retries cancelled_at
    (pre ++ r :: post) error st =
  (Raise (InvalidStateError "invalid state"), own.2).
Proof.
  intros before own Hok Hp Hgone. rewrite fallback_split. fold before.
  destruct before as [[[]|e] st1]; [|done]. simpl in *.
  unfold mbind, M_bind. rewrite (handle_request_runs r st1 Hp). fold own.
  by destruct (futures own.2 !! future r) as [[]|].
Qed.

(** *** When no caller is cancelled *)

Section Quiet.
Hypothesis quiet : ∀ tr, cancelled_at tr = [].

Lemma suspended_quiet st :
  Cancellation.suspended cancelled_at st = (Ok (), st).
Proof. unfold Cancellation.suspended. rewrite quiet. by destruct st. Qed.

Lemma call_quiet payload st :
  call payload st = call_client process_request payload st.
Proof.
  unfold Cancellation.call_client.
  destruct (call_client process_request payload st) as [r st1].
  by rewrite suspended_quiet.
Qed.

Lemma sleep_quiet seconds st :
  Cancellation.sleep cancelled_at seconds st = emit (Sleep seconds) st.
Proof.
  unfold Cancellation.sleep, mbind, M_bind. simpl. by rewrite suspended_quiet.
Qed.

Lemma retry_fuel_quiet fuel request attempt st :
  retry_fuel fuel request attempt st =
  process_with_retry_fuel process_request max_retries fuel request attempt st.
Proof.
  revert attempt st. induction fuel as [|fuel IH]; intros attempt st; simpl;
    unfold try_except; rewrite call_quiet;
    destruct (call_client process_request (data request) st) as [[d|e] st1];
    try done.
  case_bool_decide; [|done]. unfold mbind, M_bind.
  rewrite sleep_quiet. simpl. apply IH.
Qed.

Lemma handle_request_quiet request st :
  handle request st = handle_request process_request max_retries request st.
Proof.
  unfold Cancellation.handle_request, handle_request, mbind, M_bind.
  destruct (done (future request) st) as [[[]|]  st1]; try done.
  unfold try_except, Cancellation._process_with_retry, _process_with_retry.
  by rewrite retry_fuel_quiet.
Qed.

Lemma handle_loop_quiet batch st :
  handle_all batch st = handle_loop process_request max_retries batch st.
Proof.
  revert st. induction batch as [|request batch IH]; intros st; [done|].
  simpl. unfold mbind, M_bind. rewrite handle_request_quiet.
  destruct (handle_request process_request max_retries request st)
    as [[[]|e] st1]; [apply IH|done].
Qed.

Lemma fallback_quiet batch error st :
  fallback batch error st =
  _handle_batch_error process_request max_retries batch error st.
Proof.
  unfold Cancellation._handle_batch_error, _handle_batch_error, mbind, M_bind.
  simpl. apply handle_loop_quiet.
Qed.

Lemma process_batch_quiet batch st :
  Cancellation._process_batch process_request cancelled_at batch st =
  _process_batch process_request batch st.
Proof.
  unfold Cancellation._process_batch, _process_batch, measure, try_except,
    mbind, M_bind.
  by rewrite call_quiet.
Qed.

Lemma process_collected_quiet batch st :
  collected batch st = process_collected process_request max_retries batch st.
Proof.
  unfold Cancellation.process_collected, process_collected, try_except,
    mbind, M_bind.
  rewrite process_batch_quiet.
  destruct (_process_batch process_request batch st) as [[results|e] st1].
  - by destruct (_distribute_results batch results st1) as [[[]|e] st2];
      [|rewrite fallback_quiet].
  - by rewrite fallback_quiet.
Qed.

End Quiet.

(** X26. Exactly-once resolution when no caller is cancelled while the
    scheduler handles the batch: handling a collected batch, by
    distribution or by the per-item fallback, does not raise; a future
    that was not pending is left as it was and a pending one is resolved
    at most once, with a result or with an exception; afterwards no
    future of the batch is pending, and one that was pending has been
    resolved exactly once. *)
Theorem exactly_once_without_cancellation batch st :
  (∀ tr, cancelled_at tr = []) →
  (∀ r, r ∈ batch → is_Some (futures st !! future r)) →
  let final := Cancellation.process_collected process_request max_retries
                 cancelled_at batch st in
  ∃ new,
    final.1 = Ok () ∧
    evolves st final.2 new ∧
    (∀ r, r ∈ batch →
       ∃ fut, futures final.2 !! future r = Some fut ∧ fut ≠ Pending) ∧
    (∀ r, r ∈ batch → futures st !! future r = Some Pending →
       resolutions (future r) new = 1%nat ∧
       ∃ fut, settled fut ∧ futures final.2 !! future r = Some fut).
Proof.
  intros Hquiet Halloc final. subst final.
  rewrite (process_collected_quiet Hquiet).
  destruct (exactly_once_uninterrupted process_request max_retries batch st Halloc)
    as (new & Hok & Hev & Hdone & Honce & _).
  exists new. done.
Qed.

(** X27. Isolation in the fallback when no caller is cancelled while it
    runs: the fallback does not raise; a request whose future is pending
    has it resolved with the outcome of its own run, whatever the runs of
    the requests before and after it did; the run touches no future; and
    with a client that answers a payload regardless of what it was asked
    before, the future holds the answer to the request's own payload. *)
Theorem fallback_isolation_without_cancellation pre r post error st :
  (∀ tr, cancelled_at tr = []) →
  NoDup (future <$> pre ++ r :: post) →
  futures st !! future r = Some Pending →
  let before := (Cancellation._handle_batch_error process_request max_retries
                   cancelled_at pre error st).2 in
  let own := Cancellation._process_with_retry process_request max_retries
               cancelled_at r 0 before in
  let final := Cancellation._handle_batch_error process_request max_retries
                 cancelled_at (pre ++ r :: post) error st in
  final.1 = Ok () ∧
  futures final.2 !! future r = Some (outcome_of own.1) ∧
  futures own.2 = futures before ∧
  (∀ reply, (∀ payload c, (process_request payload c).1 = reply payload) →
     futures final.2 !! future r = Some (outcome_of (reply (data r)))).
Proof.
  intros Hquiet Hnd Hp before own final. subst before own final.
  rewrite !(fallback_quiet Hquiet).
  unfold Cancellation._process_with_retry.
  rewrite (retry_fuel_quiet Hquiet).
  destruct (fallback_isolation_uninterrupted process_request max_retries
              pre r post error st Hnd Hp)
    as (Hok & (k & _ & _ & Hf & _) & Hown & _ & Hreply).
  done.
Qed.

(** *** What holds whatever the callers do *)

Local Abbreviation changes := (Cancellation.evolves_or_cancelled (C:=C)).

Lemma changes_of_evolves st st' new : evolves st st' new → changes st st' new.
Proof.
  intros (Ht & Hl & H). split; [done|]. split; [done|].
  intros f fut Hf. destruct (H f fut Hf) as [?|?]; eauto.
Qed.

Lemma changes_trans st st1 st2 new1 new2 :
  changes st st1 new1 → changes st1 st2 new2 → changes st st2 (new1 ++ new2).
Proof.
  intros (Ht1 & Hl1 & H1) (Ht2 & Hl2 & H2).
  split; [by rewrite Ht2, Ht1, app_assoc|].
  split; [congruence|].
  intros f fut Hf. rewrite resolutions_app.
  destruct (H1 f fut Hf)
    as [[Hkeep Hn1]|[(-> & Hc & Hn1)|(-> & Hn1 & fut' & Hset & Hf')]].
  - destruct (H2 f fut Hkeep)
      as [[Hkeep2 Hn2]|[(-> & Hc & Hn2)|(-> & Hn2 & fut' & Hset & Hf')]].
    + left. split; [done|lia].
    + right. left. split; [done|]. split; [done|lia].
    + right. right. split; [done|]. split; [lia|]. eauto.
  - destruct (H2 f Cancelled Hc) as [[Hkeep2 Hn2]|[(? & _)|(? & _)]];
      [|done|done].
    right. left. split; [done|]. split; [done|lia].
  - destruct (H2 f fut' Hf') as [[Hkeep2 Hn2]|[(-> & _)|(-> & _)]];
      [|by destruct Hset|by destruct Hset].
    right. right. split; [done|]. split; [lia|]. eauto.
Qed.

Lemma changes_not_pending st st' new f :
  changes st st' new → futures st !! f ≠ Some Pending →
  futures st' !! f ≠ Some Pending.
Proof.
  intros (_ & Hlen & H) Hf. destruct (futures st !! f) as [fut|] eqn:Hfut.
  - destruct (H f fut Hfut) as [[-> _]|[(-> & _)|(-> & _)]]; congruence.
  - apply lookup_ge_None in Hfut. rewrite <- Hlen in Hfut.
    apply lookup_ge_None in Hfut. by rewrite Hfut.
Qed.

Lemma resolutions_call f payload : resolutions f [Call payload] = 0%nat.
Proof. unfold resolutions. by rewrite filter_cons_False by (simpl; tauto). Qed.

Lemma resolutions_sleep f seconds : resolutions f [Sleep seconds] = 0%nat.
Proof. unfold resolutions. by rewrite filter_cons_False by (simpl; tauto). Qed.

(** Cancelling touches pending futures only. *)
Lemma cancel_all_spec fs (futs : list Future) :
  length (foldl Cancellation.cancel futs fs) = length futs ∧
  ∀ f fut, futs !! f = Some fut →
    foldl Cancellation.cancel futs fs !! f = Some fut ∨
    (fut = Pending ∧ foldl Cancellation.cancel futs fs !! f = Some Cancelled).
Proof.
  revert futs. induction fs as [|g fs IH]; intros futs; simpl; [by eauto|].
  destruct (IH (Cancellation.cancel futs g)) as [Hlen Hfs].
  assert (Hstep : length (Cancellation.cancel futs g) = length futs ∧
            ∀ f fut, futs !! f = Some fut →
              Cancellation.cancel futs g !! f = Some fut ∨
              (fut = Pending ∧ Cancellation.cancel futs g !! f = Some Cancelled)).
  { unfold Cancellation.cancel.
    destruct (futs !! g) as [[]|] eqn:Hg; try (split; [done|by eauto]).
    split; [apply length_insert|]. intros f fut Hf.
    destruct (decide (f = g)) as [->|Hne].
    - right. rewrite Hg in Hf. injection Hf as <-. split; [done|].
      apply list_lookup_insert_eq. by eapply lookup_lt_Some.
    - left. by rewrite list_lookup_insert_ne. }
  destruct Hstep as [Hlen1 Hstep]. split; [congruence|].
  intros f fut Hf. destruct (Hstep f fut Hf) as [H1|[-> H1]].
  - apply (Hfs f fut H1).
  - right. split; [done|].
    by destruct (Hfs f Cancelled H1) as [?|[? _]].
Qed.

Lemma suspended_changes st :
  changes st (Cancellation.suspended cancelled_at st).2 [].
Proof.
  unfold Cancellation.suspended. simpl.
  destruct (cancel_all_spec (cancelled_at (trace st)) (futures st)) as [Hlen H].
  split; [by rewrite app_nil_r|]. split; [done|].
  intros f fut Hf. destruct (H f fut Hf) as [?|[-> ?]]; [by left|].
  right. left. done.
Qed.

Lemma call_changes payload st :
  changes st (call payload st).2 [Call payload].
Proof.
  unfold Cancellation.call_client.
  pose proof (call_client_spec process_request payload st) as (_ & Hf & _ & Ht).
  destruct (call_client process_request payload st) as [r st1].
  cbn [fst snd] in *.
  assert (Hev : evolves st st1 [Call payload]).
  { split; [done|]. split; [by rewrite Hf|].
    intros f fut Hfut. left. rewrite Hf. split; [done|].
    apply resolutions_call. }
  exact (changes_trans st st1 _ [Call payload] []
           (changes_of_evolves _ _ _ Hev) (suspended_changes _)).
Qed.

Lemma sleep_changes seconds st :
  changes st (Cancellation.sleep cancelled_at seconds st).2 [Sleep seconds].
Proof.
  assert (Hev : evolves st (emit (Sleep seconds) st).2 [Sleep seconds]).
  { destruct (emit_evolves (Sleep seconds) st) as [_ H]; [|exact H].
    intros f. simpl. tauto. }
  exact (changes_trans st (emit (Sleep seconds) st).2 _ [Sleep seconds] []
           (changes_of_evolves _ _ _ Hev) (suspended_changes _)).
Qed.

Lemma retry_fuel_changes fuel request attempt st :
  ∃ new, changes st (retry_fuel fuel request attempt st).2 new ∧
         ∀ f, resolutions f new = 0%nat.
Proof.
  revert attempt st. induction fuel as [|fuel IH]; intros attempt st;
    cbn [Cancellation.process_with_retry_fuel]; unfold try_except;
    pose proof (call_changes (data request) st) as Hcall;
    destruct (call (data request) st) as [[d|e] st1]; simpl in Hcall;
    try (by exists [Call (data request)]; split; [done|];
            intros f; apply resolutions_call).
  - case_bool_decide; unfold raise; simpl;
      by exists [Call (data request)]; split; [done|];
         intros f; apply resolutions_call.
  - case_bool_decide; cycle 1.
    { by exists [Call (data request)]; split; [done|];
         intros f; apply resolutions_call. }
    unfold mbind, M_bind.
    pose proof (sleep_changes (2 ^ Z.of_nat attempt) st1) as Hsleep.
    pose proof (sleep_spec (2 ^ Z.of_nat attempt) st1) as (Hs1 & _).
    destruct (Cancellation.sleep cancelled_at (2 ^ Z.of_nat attempt) st1)
      as [r2 st2]. simpl in Hs1, Hsleep. subst r2.
    destruct (IH (attempt + 1)%nat st2) as (new & Hnew & Hzero).
    eexists. split.
    + exact (changes_trans _ _ _ _ _ (changes_trans _ _ _ _ _ Hcall Hsleep) Hnew).
    + intros f.
      by rewrite !resolutions_app, Hzero, resolutions_call, resolutions_sleep.
Qed.

Local Abbreviation invalid_state := (InvalidStateError "invalid state").

Lemma pending_or_not (fut : option Future) :
  fut = Some Pending ∨ fut ≠ Some Pending.
Proof. destruct fut as [[]|]; eauto. Qed.

Lemma handle_request_changes request st :
  let out := handle request st in
  ∃ new, changes st out.2 new ∧
    (out.1 = Ok () ∨ out.1 = Raise invalid_state) ∧
    (out.1 = Ok () → futures out.2 !! future request ≠ Some Pending).
Proof.
  destruct (pending_or_not (futures st !! future request)) as [Hp|Hd].
  - rewrite (handle_request_runs request st Hp).
    destruct (retry_fuel_changes (max_retries - 0) request 0 st)
      as (new0 & Hnew0 & _).
    fold (retry request 0 st) in Hnew0.
    set (own := retry request 0 st) in *.
    destruct (pending_or_not (futures own.2 !! future request))
      as [Hstill|Hgone].
    + rewrite Hstill.
      destruct (resolve_pending (future request) (outcome_of own.1) own.2
                  Hstill (outcome_settled _)) as (_ & Hev & Hlk).
      eexists. split.
      { exact (changes_trans _ _ _ _ _ Hnew0 (changes_of_evolves _ _ _ Hev)). }
      split; [by left|]. intros _. cbn [snd]. rewrite Hlk. intros [= Heq].
      by destruct (own.1).
    + exists new0.
      destruct (futures own.2 !! future request) as [[]|]; try done;
        (split; [done|]; split; [by right|done]).
  - rewrite (handle_request_skips request st Hd).
    exists []. split; [apply changes_of_evolves, evolves_refl|].
    split; [by left|done].
Qed.

Lemma handle_loop_changes batch st :
  let out := handle_all batch st in
  ∃ new, changes st out.2 new ∧
    (out.1 = Ok () ∨ out.1 = Raise invalid_state) ∧
    (out.1 = Ok () →
       ∀ r, r ∈ batch → futures out.2 !! future r ≠ Some Pending).
Proof.
  revert st. induction batch as [|request batch IH]; intros st.
  { exists []. split; [apply changes_of_evolves, evolves_refl|].
    split; [by left|]. intros _ r Hr. by apply elem_of_nil in Hr. }
  cbn [Cancellation.handle_loop]. unfold mbind, M_bind.
  destruct (handle_request_changes request st) as (new1 & Hnew1 & Hres1 & Hset1).
  destruct (handle request st) as [[[]|e] st1]; cbn [fst snd] in *.
  - destruct (IH st1) as (new2 & Hnew2 & Hres2 & Hset2).
    exists (new1 ++ new2). split; [by eapply changes_trans|]. split; [done|].
    intros Hok r Hr. apply elem_of_cons in Hr as [->|Hr].
    + eapply changes_not_pending; [exact Hnew2|]. by apply Hset1.
    + by apply Hset2.
  - exists new1. split; [done|]. split; [done|]. by intros [=].
Qed.

Lemma fallback_changes batch error st :
  let out := fallback batch error st in
  ∃ new, changes st out.2 new ∧
    (out.1 = Ok () ∨ out.1 = Raise invalid_state) ∧
    (out.1 = Ok () →
       ∀ r, r ∈ batch → futures out.2 !! future r ≠ Some Pending).
Proof.
  unfold Cancellation._handle_batch_error, mbind, M_bind. cbn [emit].
  destruct (emit_evolves (C:=C) (Metric "batch_errors") st) as [_ Hev];
    [intros f; simpl; tauto|].
  unfold emit in Hev. cbn [snd] in Hev.
  match goal with |- context [handle_all batch ?s] =>
    destruct (handle_loop_changes batch s) as (new & Hnew & Hres & Hset) end.
  eexists. split; [|done].
  exact (changes_trans _ _ _ _ _ (changes_of_evolves _ _ _ Hev) Hnew).
Qed.

Lemma process_batch_changes batch st :
  let out := Cancellation._process_batch process_request cancelled_at batch st in
  ∃ new, changes st out.2 new ∧
    ((∃ results, out.1 = Ok results ∧
                 length (py_iter results) = length batch) ∨
     (∃ msg, out.1 = Raise (BatchProcessingError msg))).
Proof.
  unfold Cancellation._process_batch, measure, try_except, mbind, M_bind.
  pose proof (call_changes (_combine_contexts (data <$> batch)) st) as Hcall.
  destruct (call (_combine_contexts (data <$> batch)) st) as [[response|e] st1];
    cbn [snd] in Hcall.
  - assert (Hmetric : changes st1
              (emit (Metric ("batch_processing" +:+ "_duration")) st1).2
              [Metric ("batch_processing" +:+ "_duration")]).
    { apply changes_of_evolves.
      destruct (emit_evolves (C:=C) (Metric ("batch_processing" +:+ "_duration"))
                  st1) as [_ Hev]; [intros f; simpl; tauto|done]. }
    unfold _split_response.
    destruct (dict_get response "results") as [results|]; cbn.
    + destruct (py_len results) as [n|] eqn:Hlen; cbn.
      * case_bool_decide as Hn; cbn.
        -- eexists. split; [exact (changes_trans _ _ _ _ _ Hcall Hmetric)|].
           right. eauto.
        -- eexists. split; [exact (changes_trans _ _ _ _ _ Hcall Hmetric)|].
           left. exists results. split; [done|].
           rewrite (py_len_iter _ _ Hlen).
           destruct (decide (n = length batch)); [done|]. by destruct Hn.
      * eexists. split; [exact (changes_trans _ _ _ _ _ Hcall Hmetric)|].
        right. eauto.
    + eexists. split; [exact (changes_trans _ _ _ _ _ Hcall Hmetric)|].
      right. eauto.
  - cbn. eexists. split.
    + refine (changes_trans _ _ _ _ _ Hcall (changes_of_evolves _ _ _ _)).
      destruct (emit_evolves (C:=C) (Metric ("batch_processing" +:+ "_duration"))
                  st1) as [_ Hev]; [intros f; simpl; tauto|exact Hev].
    + right. eauto.
Qed.

(** X28. What holds of the handling of a collected batch whatever the
    callers do: a future that was done is not changed, a pending one is
    left pending, cancelled by its caller, or resolved exactly once with
    a result or an exception, never twice, and the store keeps its size;
    the handling either completes, and then no future of the batch is
    pending, or it raises [InvalidStateError]. *)
Theorem resolution_under_cancellation batch st :
  let final := Cancellation.process_collected process_request max_retries
                 cancelled_at batch st in
  ∃ new,
    Cancellation.evolves_or_cancelled st final.2 new ∧
    (final.1 = Ok () ∨ final.1 = Raise (InvalidStateError "invalid state")) ∧
    (final.1 = Ok () →
       ∀ r, r ∈ batch → futures final.2 !! future r ≠ Some Pending).
Proof.
  unfold Cancellation.process_collected, try_except, mbind, M_bind.
  destruct (process_batch_changes batch st) as (new1 & Hnew1 & Hres).
  destruct (Cancellation._process_batch process_request cancelled_at batch st)
    as [r st1]. cbn [fst snd] in *.
  destruct Hres as [(results & -> & Hlen)|(msg & ->)].
  - unfold _distribute_results.
    destruct (distribute_loop_spec batch (py_iter results) st1)
      as (new2 & Hok & Hev & _ & _ & Hset & _).
    rewrite Hok. cbn [fst snd].
    exists (new1 ++ new2). split.
    { exact (changes_trans _ _ _ _ _ Hnew1 (changes_of_evolves _ _ _ Hev)). }
    split; [by left|]. intros _ r Hr.
    apply list_elem_of_lookup in Hr as [i Hi].
    apply (Hset i r Hi). rewrite Hlen. by eapply lookup_lt_Some.
  - destruct (fallback_changes batch (BatchProcessingError msg) st1)
      as (new2 & Hnew2 & Hres2 & Hset2).
    exists (new1 ++ new2). split; [by eapply changes_trans|]. done.
Qed.

End CancellationFacts.

Section CancellationRuns.
Import BatchProcessor Fixtures.

(** C1, as the code has it. A batch of two requests whose combined call
    is rejected; the individual call for the first request succeeds, but
    its caller was cancelled while the scheduler awaited that call. The
    check of [done()] was made before the await: [set_result] raises
    [InvalidStateError] on the cancelled future, the [set_exception] of
    the handler raises it again, and it leaves [_handle_batch_error] and
    with it the scheduler. The second request is never called and its
    future stays pending. *)
Theorem cancelled_caller_breaks_resolution :
  let final := Cancellation.process_collected picky 3
                 Callers.a_during_own_call [req_a; req_b]
                 (all_pending 0%nat) in
  final.1 = Raise (InvalidStateError "invalid state") ∧
  futures final.2 !! future req_a = Some Cancelled ∧
  futures final.2 !! future req_b = Some Pending ∧
  calls_of (trace final.2) =
    [_combine_contexts [data req_a; data req_b]; data req_a] ∧
  resolutions (future req_b) (trace final.2) = 0%nat.
Proof. vm_compute. done. Qed.

(** C8, as the code has it. In the fallback for two requests, the first
    is rejected at every call and its caller, which waits no longer than
    five seconds, is cancelled during the third wait of the retries.
    When no caller is cancelled the second request gets its own result;
    here the [set_exception] for the first raises [InvalidStateError],
    the fallback ends, and the second request is never called: its
    future stays pending. *)
Theorem cancelled_caller_starves_sibling :
  let error := BatchProcessingError "Invalid batch response format" in
  let quiet := Cancellation._handle_batch_error picky 3 Callers.nobody
                 [req_c; req_b] error (all_pending 0%nat) in
  let raced := Cancellation._handle_batch_error picky 3
                 Callers.c_after_five_seconds
                 [req_c; req_b] error (all_pending 0%nat) in
  quiet.1 = Ok () ∧
  futures quiet.2 !! future req_b =
    Some (Finished (VDict [("echo", VStr "b")])) ∧
  raced.1 = Raise (InvalidStateError "invalid state") ∧
  futures raced.2 !! future req_b = Some Pending ∧
  calls_of (trace raced.2) = replicate 4 (data req_c) ∧
  sleeps_of (trace raced.2) = [1; 2; 4].
Proof. vm_compute. done. Qed.

End CancellationRuns.

(** ** Collecting a batch *)

Section CollectFacts.
Import BatchProcessor.
Variable batch_size : nat.
Variable batch_timeout : Z.

Local Abbreviation loop := (collect_loop batch_size batch_timeout).

(** A wait returns a request before its timeout, or raises
    [TimeoutError] when the timeout has passed. *)
Lemma wait_for_get_cases timeout env :
  let out := wait_for_get timeout env in
  (∃ request, out.1 = Ok request ∧
              clock env ≤ clock out.2 ∧ clock out.2 - clock env < timeout) ∨
  (out.1 = Raise TimeoutError ∧ clock out.2 = clock env + Z.max 0 timeout).
Proof.
  unfold wait_for_get. destruct (arrivals env) as [|[delay request] rest].
  - right. done.
  - case_bool_decide as Hd; simpl.
    + left. exists request. split; [done|]. lia.
    + right. done.
Qed.

(** Every single wait is bounded by the timeout it was given. *)
Lemma wait_for_get_bounded timeout env :
  0 ≤ clock (wait_for_get timeout env).2 - clock env ≤ Z.max 0 timeout.
Proof.
  destruct (wait_for_get_cases timeout env) as [(r & _ & H1 & H2)|[_ H]]; lia.
Qed.

(** More fuel than free places in the batch changes nothing. *)
Lemma collect_loop_fuel fuel start_time batch env :
  (batch_size ≤ length batch + fuel)%nat →
  loop (S fuel) start_time batch env = loop fuel start_time batch env.
Proof.
  revert batch env. induction fuel as [|fuel IH]; intros batch env Hfuel.
  - simpl. rewrite bool_decide_eq_false_2 by lia. done.
  - change (loop (S (S fuel)) start_time batch env) with
      (if bool_decide (length batch < batch_size)%nat then
         match wait_for_get batch_timeout env with
         | (Raise TimeoutError, env) => (Ok batch, env)
         | (Raise e, env) => (Raise e, env)
         | (Ok request, env) =>
             if bool_decide (batch_timeout ≤ clock env - start_time)
             then (Ok (batch ++ [request]), env)
             else loop (S fuel) start_time (batch ++ [request]) env
         end
       else (Ok batch, env)).
    change (loop (S fuel) start_time batch env) with
      (if bool_decide (length batch < batch_size)%nat then
         match wait_for_get batch_timeout env with
         | (Raise TimeoutError, env) => (Ok batch, env)
         | (Raise e, env) => (Raise e, env)
         | (Ok request, env) =>
             if bool_decide (batch_timeout ≤ clock env - start_time)
             then (Ok (batch ++ [request]), env)
             else loop fuel start_time (batch ++ [request]) env
         end
       else (Ok batch, env)).
    case_bool_decide; [|done].
    destruct (wait_for_get batch_timeout env) as [[request|e] env1]; [|done].
    case_bool_decide; [done|].
    apply IH. rewrite length_app. simpl. lia.
Qed.

(** The invariant of the loop: an iteration starts with less than
    [batch_timeout] elapsed, and its wait adds at most [batch_timeout]. *)
Lemma collect_loop_spec fuel start_time batch env :
  0 < batch_timeout →
  start_time ≤ clock env →
  clock env - start_time < batch_timeout →
  let out := loop fuel start_time batch env in
  (∃ batch', out.1 = Ok batch' ∧
             (length batch' ≤ Nat.max (length batch) batch_size)%nat) ∧
  clock env ≤ clock out.2 ∧
  clock out.2 - start_time < 2 * batch_timeout.
Proof.
  intros Hpos. revert batch env.
  induction fuel as [|fuel IH]; intros batch env Hstart Helapsed; simpl.
  - case_bool_decide; simpl; (split; [eexists; split; [done|lia]|lia]).
  - case_bool_decide as Hroom; simpl; [|split; [eexists; split; [done|lia]|lia]].
    destruct (wait_for_get_cases batch_timeout env)
      as [(request & Hout & Hle & Hlt)|[Hout Hclock]];
      destruct (wait_for_get batch_timeout env) as [r env1];
      simpl in *; subst r.
    + case_bool_decide as Hover; simpl.
      * split; [eexists; split; [done|]; rewrite length_app; simpl; lia|lia].
      * destruct (IH (batch ++ [request]) env1) as ((b & Hb & Hlen) & Hc1 & Hc2);
          [lia|lia|].
        split; [|lia]. exists b. split; [done|].
        rewrite length_app in Hlen. simpl in Hlen. lia.
    + simpl. split; [eexists; split; [done|lia]|lia].
Qed.

(** C2, as the code has it. With a positive [batch_timeout], collecting
    a batch always returns, with at most [batch_size] requests; every
    wait for a next request is bounded by the whole [batch_timeout], not
    by what is left of it; and the collection as a whole takes less than
    twice [batch_timeout]. *)
Theorem collect_batch_duration_bound env :
  0 < batch_timeout →
  let out := _collect_batch batch_size batch_timeout env in
  (∃ batch, out.1 = Ok batch ∧ (length batch ≤ batch_size)%nat) ∧
  (∀ env', 0 ≤ clock (wait_for_get batch_timeout env').2 - clock env'
           ≤ batch_timeout) ∧
  0 ≤ clock out.2 - clock env < 2 * batch_timeout.
Proof.
  intros Hpos out. subst out. unfold _collect_batch.
  destruct (collect_loop_spec batch_size (clock env) [] env)
    as ((batch & Hb & Hlen) & Hc1 & Hc2); [done|lia|lia|].
  split; [exists batch; split; [done|simpl in Hlen; lia]|].
  split; [|lia].
  intros env'. pose proof (wait_for_get_bounded batch_timeout env'). lia.
Qed.

End CollectFacts.

(** C2, as stated, fails: with [batch_size = 3] and a timeout of one
    second, a request that arrives after 0.9 s is followed by a wait of a
    whole second, where 0.1 s of the budget was left, and the collection
    takes 1.9 s. *)
Lemma collect_batch_exceeds_timeout :
  let env := BatchProcessor.mkEnv 0 [(900000%N, Fixtures.req_a)] in
  let out := BatchProcessor._collect_batch 3 1000000 env in
  out.1 = Ok [Fixtures.req_a] ∧
  BatchProcessor.clock out.2 - BatchProcessor.clock env = 1900000 ∧
  ¬ (BatchProcessor.clock out.2 - BatchProcessor.clock env ≤ 1000000) ∧
  ¬ (BatchProcessor.clock
       (BatchProcessor.wait_for_get 1000000
          (BatchProcessor.mkEnv 900000 [])).2 - 900000
     ≤ 1000000 - 900000).
Proof. vm_compute. repeat split; try done; by intros H. Qed.

Lemma collect_batch_duration_bound_witness :
  let env := BatchProcessor.mkEnv 0 [(900000%N, Fixtures.req_a)] in
  0 ≤ BatchProcessor.clock (BatchProcessor._collect_batch 3 1000000 env).2
      - BatchProcessor.clock env < 2 * 1000000.
Proof.
  intros env.
  destruct (collect_batch_duration_bound 3 1000000 env) as (_ & _ & H).
  - lia.
  - exact H.
Defined.

(** The batch bound of the specification: five requests that are there
    at once are collected as three and then two. *)
Example collect_three_then_two :
  let r := Fixtures.req_a in
  let env := BatchProcessor.mkEnv 0
               [(0%N, r); (0%N, r); (0%N, r); (0%N, r); (0%N, r)] in
  let first := BatchProcessor._collect_batch 3 1000000 env in
  let second := BatchProcessor._collect_batch 3 1000000 first.2 in
  first.1 = Ok [r; r; r] ∧ second.1 = Ok [r; r] ∧
  BatchProcessor.clock second.2 = 1000000.
Proof. vm_compute. done. Qed.

(** ** The pending queue *)

Section QueueFacts.
Import BatchProcessor.

Lemma request_eqb_future r1 r2 :
  future r1 ≠ future r2 → request_eqb r1 r2 = false.
Proof.
  intros Hne. unfold request_eqb.
  rewrite (bool_decide_eq_false_2 (future r1 = future r2)) by done.
  apply andb_false_r.
Qed.

(** Two entries of equal priority that hold different requests cannot
    be compared. *)
Lemma entry_lt_tie (a b : entry) :
  a.1 = b.1 → future a.2 ≠ future b.2 →
  ∃ msg, entry_lt a b = Raise (TypeError msg).
Proof.
  intros Hp Hf. unfold entry_lt.
  rewrite bool_decide_eq_false_2 by (intros H; by apply H).
  rewrite request_eqb_future by done. eauto.
Qed.

(** Entries of different priorities are ordered by priority alone. *)
Lemma entry_lt_priority (a b : entry) :
  a.1 ≠ b.1 → entry_lt a b = Ok (bool_decide (a.1 < b.1)).
Proof. intros Hp. unfold entry_lt. by rewrite bool_decide_eq_true_2. Qed.

(** Putting a request on a queue that is not empty and whose entries all
    have the priority of the new one raises [TypeError]: the first
    comparison of [_siftdown] is between the new entry and its parent. *)
Lemma heappush_tie_raises (heap : list entry) (item : entry) :
  heap ≠ [] →
  Forall (λ e, e.1 = item.1 ∧ future e.2 ≠ future item.2) heap →
  ∃ msg, (heappush heap item).1 = Raise (TypeError msg).
Proof.
  intros Hne Hall. unfold heappush.
  rewrite length_app. simpl.
  destruct heap as [|e0 heap]; [done|]. simpl length.
  replace (S (length heap) + 1)%nat with (S (S (length heap))) by lia.
  replace (S (S (length heap)) - 1)%nat with (S (length heap)) by lia.
  cbn [_siftdown]. rewrite bool_decide_eq_true_2 by lia.
  set (parentpos := ((S (length heap) - 1) / 2)%nat).
  assert (Hlt : (parentpos < length (e0 :: heap))%nat).
  { subst parentpos. cbn [length].
    assert ((S (length heap) - 1) / 2 ≤ length heap)%nat
      by (apply Nat.Div0.div_le_upper_bound; lia).
    lia. }
  destruct (lookup_lt_is_Some_2 _ _ Hlt) as [parent Hparent].
  rewrite lookup_app_l by done. rewrite Hparent.
  assert (Hin : parent ∈ e0 :: heap) by by eapply list_elem_of_lookup_2.
  rewrite Forall_forall in Hall. destruct (Hall parent Hin) as [Hp Hf].
  destruct (entry_lt_tie item parent) as [msg Hmsg]; [done|done|].
  rewrite Hmsg. simpl. eauto.
Qed.

End QueueFacts.

Section QueueRuns.
Import BatchProcessor.

(** Different priorities: the entry with the lower value moves to the
    front of the heap. *)
Example submit_ascending_priority :
  let first := submit_put (λ _, "id") [("q", VStr "a")] 2 0 ([], []) in
  let second := submit_put (λ _, "id") [("q", VStr "b")] 1 1 first.2 in
  is_ok first.1 = true ∧ is_ok second.1 = true ∧
  (λ e : entry, (e.1, future e.2)) <$> second.2.2 = [(1, 1%nat); (2, 0%nat)].
Proof. vm_compute. done. Qed.

(** C3. Two submissions with the default priority 0, the second made
    while the first is still queued: the second [queue.put] raises
    [TypeError], so the second request is not served after the first in
    admission order — its [submit] fails. *)
Theorem equal_priority_submit_raises :
  let first := submit_put (λ _, "id") [("q", VStr "a")] 0 0 ([], []) in
  let second := submit_put (λ _, "id") [("q", VStr "b")] 0 1 first.2 in
  is_ok first.1 = true ∧
  second.1 = Raise (TypeError
    "'<' not supported between instances of 'BatchRequest' and 'BatchRequest'").
Proof. vm_compute. done. Qed.

End QueueRuns.

(** ** Further properties of the rate limiter *)

Section RateLimiterMore.
Import RateLimiter.
Variable cfg : Config.
Implicit Types (service : string) (requests : gmap string (list Z)).

Local Abbreviation ceiling service :=
  (default 0 (MAX_REQUESTS_PER_WINDOW cfg !! service)).
Local Abbreviation in_window now :=
  (λ ts : Z, now - timedelta_seconds (RATE_LIMIT_WINDOW cfg) < ts).

(** X1. The check admits exactly when fewer timestamps than the ceiling
    lie inside the trailing window: the outcome depends on the recorded
    history only through the number of timestamps newer than
    [now - window]. *)
Theorem check_limit_admits_iff service now now' requests :
  (check_limit cfg service now now' requests).1 = Ok () ↔
  Z.of_nat (length (filter (in_window now) (get_requests requests service)))
    < ceiling service.
Proof.
  rewrite <- get_requests_cleanup. split.
  - intros Hok. destruct (decide (Z.of_nat (length (get_requests
        (_cleanup_old_requests cfg service now requests) service))
        < ceiling service)) as [|Hfull]; [done|].
    rewrite check_limit_raise in Hok by lia. discriminate.
  - intros Hroom.
    destruct (check_limit_ok cfg service now now' requests Hroom)
      as (rq & -> & _). done.
Qed.

(** X2. The ceiling is an invariant: if the list of a service holds no
    more timestamps than its ceiling, it still does after any run of
    admission checks, whatever the clock readings; so from a fresh
    limiter the recorded timestamps of a service never exceed its
    ceiling. *)
Theorem check_limits_keep_ceiling service times requests :
  Z.of_nat (length (get_requests requests service)) ≤ Z.max 0 (ceiling service) →
  Z.of_nat (length (get_requests (check_limits cfg service times requests).2
                      service))
    ≤ Z.max 0 (ceiling service).
Proof.
  revert requests. induction times as [|[now now'] times IH];
    intros requests Hle; simpl; [done|].
  destruct (check_limit cfg service now now' requests) as [r rq] eqn:Hck.
  specialize (IH rq).
  destruct (check_limits cfg service times rq) as [rs rq']. simpl in *.
  apply IH.
  pose proof (length_filter (in_window now) (get_requests requests service))
    as Hprune.
  rewrite <- get_requests_cleanup in Hprune.
  destruct (decide (Z.of_nat (length (get_requests
      (_cleanup_old_requests cfg service now requests) service))
      < ceiling service)) as [Hroom|Hfull].
  - destruct (check_limit_ok cfg service now now' requests Hroom)
      as (rq1 & Hck1 & Hrq1).
    rewrite Hck in Hck1. injection Hck1 as _ <-.
    rewrite Hrq1, length_app. simpl. lia.
  - rewrite check_limit_raise in Hck by lia. injection Hck as _ <-. lia.
Qed.

(** X3. The budgets of the services are independent: a check for one
    service, admitted or rejected, leaves the list of every other
    service as it was. *)
Theorem check_limit_other_service service other now now' requests :
  other ≠ service →
  (check_limit cfg service now now' requests).2 !! other = requests !! other.
Proof.
  intros Hne. unfold check_limit. cbv zeta.
  assert (Hclean : _cleanup_old_requests cfg service now requests !! other
                   = requests !! other).
  { unfold _cleanup_old_requests. by rewrite lookup_insert_ne. }
  case_bool_decide; simpl; [done|].
  rewrite lookup_insert_ne by done.
  destruct (_cleanup_old_requests cfg service now requests !! service);
    [done|]. by rewrite lookup_insert_ne.
Qed.

End RateLimiterMore.

Lemma check_limits_keep_ceiling_witness :
  Z.of_nat (length (RateLimiter.get_requests
    (RateLimiter.check_limits RateLimiter.the_config "coinmarketcap"
       [(0, 0); (5, 6); (70000000, 70000001)] ∅).2 "coinmarketcap"))
  ≤ Z.max 0 30.
Proof.
  apply (check_limits_keep_ceiling RateLimiter.the_config "coinmarketcap"
           [(0, 0); (5, 6); (70000000, 70000001)] ∅).
  vm_compute. discriminate.
Defined.

Lemma check_limit_other_service_witness :
  (RateLimiter.check_limit RateLimiter.the_config "github" 10 11
     (<["coingecko" := [3]]> ∅)).2 !! "coingecko" = Some [3].
Proof.
  rewrite (check_limit_other_service RateLimiter.the_config "github" "coingecko"
             10 11 (<["coingecko" := [3]]> ∅)).
  - reflexivity.
  - discriminate.
Defined.

(** ** Further properties of the request gateway *)

Section GatewayMore.
Import RateLimiter APIHandler.
Variable cfg : Config.
Variable get_api_key : string → option string.
Context {J : Type}.
Variable json : string → result exn J.
Variable clock_at : nat → Z * Z.
Variable network_at :
  nat → string → string → option (gmap string string) →
  gmap string string → attempt.

Local Abbreviation body := (request_body cfg get_api_key json clock_at network_at).
Local Abbreviation run := (request cfg get_api_key json clock_at network_at).

(** One call of the body makes one admission check and at most one
    network attempt, and never waits. *)
Lemma request_body_counts method service endpoint params headers st :
  let out := body method service endpoint params headers st in
  checks out.2 = S (checks st) ∧
  backoffs out.2 = backoffs st ∧
  (attempts out.2 = attempts st ∨ attempts out.2 = S (attempts st)) ∧
  (out.1 = Raise TimeoutError → attempts out.2 = S (attempts st)).
Proof.
  unfold request_body.
  destruct (initialize_fields st) as (Hr & Hc & Ha & Hb).
  rewrite Hc, Hr.
  destruct (clock_at (checks st)) as [now now'].
  destruct (check_limit cfg service now now' (requests st)) as [[[]|e0] rq] eqn:Hck;
    cbv zeta; simpl.
  - rewrite Ha, Hb.
    match goal with |- context [network_at ?a ?b ?c ?d ?h] =>
      destruct (network_at a b c d h) as [status text|msg|] end;
      try case_bool_decide; try destruct (json text) as [decoded|[]];
      simpl; eauto.
  - rewrite Ha, Hb. split; [done|]. split; [done|]. split; [by left|].
    intros [= ->]. revert Hck. unfold check_limit. cbv zeta.
    case_bool_decide; discriminate.
Qed.

(** X4. Bounds of one [request]: it makes between one and three
    admission checks and at most three network attempts, never more
    attempts than checks, and one wait between consecutive tries; it
    never raises [aiohttp.ClientError]; and it raises
    [asyncio.TimeoutError] only after three attempts that all timed out,
    with waits bounded by 1 and 2 seconds. *)
Theorem request_bounds method service endpoint params headers st :
  let out := request cfg get_api_key json clock_at network_at
               method service endpoint params headers st in
  (checks st < checks out.2 ≤ checks st + 3)%nat ∧
  (attempts st ≤ attempts out.2)%nat ∧
  (attempts out.2 - attempts st ≤ checks out.2 - checks st)%nat ∧
  (∃ waits, backoffs out.2 = backoffs st ++ waits ∧
            S (length waits) = (checks out.2 - checks st)%nat) ∧
  (∀ msg, out.1 ≠ Raise (ClientError msg)) ∧
  (out.1 = Raise TimeoutError →
     attempts out.2 = (attempts st + 3)%nat ∧
     backoffs out.2 = backoffs st ++ [1; 2]).
Proof.
  unfold request. simpl.
  pose proof (request_body_counts method service endpoint params headers st)
    as (Hc1 & Hb1 & Ha1 & Ht1).
  pose proof (request_body_raises cfg get_api_key json clock_at network_at
                method service endpoint params headers st) as Hr1.
  destruct (body method service endpoint params headers st) as [[v|e] st1];
    simpl in *.
  { split; [lia|]. split; [lia|]. split; [lia|].
    split; [exists []; rewrite app_nil_r; split; [done|simpl; lia]|].
    split; [done|]. discriminate. }
  destruct (Hr1 e st1 eq_refl) as [->|Hnr]; simpl.
  2:{ rewrite Hnr. simpl. split; [lia|]. split; [lia|]. split; [lia|].
      split; [exists []; rewrite app_nil_r; split; [done|simpl; lia]|].
      split; [by intros msg [= ->]|]. by intros [= ->]. }
  specialize (Ht1 eq_refl).
  match goal with
  | |- context [request_body cfg get_api_key json clock_at network_at
                  method service endpoint params headers ?s] =>
      pose proof (request_body_counts method service endpoint params headers s)
        as (Hc2 & Hb2 & Ha2 & Ht2);
      pose proof (request_body_raises cfg get_api_key json clock_at network_at
                    method service endpoint params headers s) as Hr2;
      destruct (body method service endpoint params headers s) as [[v|e] st2]
  end; simpl in *.
  { split; [lia|]. split; [lia|]. split; [lia|].
    split; [exists [1]; rewrite Hb2, Hb1; split; [done|simpl; lia]|].
    split; [done|]. discriminate. }
  destruct (Hr2 e st2 eq_refl) as [->|Hnr]; simpl.
  2:{ rewrite Hnr. simpl. split; [lia|]. split; [lia|]. split; [lia|].
      split; [exists [1]; rewrite Hb2, Hb1; split; [done|simpl; lia]|].
      split; [by intros msg [= ->]|]. by intros [= ->]. }
  specialize (Ht2 eq_refl).
  match goal with
  | |- context [request_body cfg get_api_key json clock_at network_at
                  method service endpoint params headers ?s] =>
      pose proof (request_body_counts method service endpoint params headers s)
        as (Hc3 & Hb3 & Ha3 & Ht3);
      pose proof (request_body_raises cfg get_api_key json clock_at network_at
                    method service endpoint params headers s) as Hr3;
      destruct (body method service endpoint params headers s) as [[v|e] st3]
  end; simpl in *.
  { split; [lia|]. split; [lia|]. split; [lia|].
    split; [exists [1; 2]; rewrite Hb3, Hb2, Hb1, <- app_assoc;
            split; [done|simpl; lia]|].
    split; [done|]. discriminate. }
  assert (Hfinal : (if retried e then (Raise e, st3) else (Raise e, st3))
                   = (@Raise exn J e, st3)) by by destruct (retried e).
  rewrite Hfinal. simpl.
  split; [lia|]. split; [lia|]. split; [lia|].
  split; [exists [1; 2]; rewrite Hb3, Hb2, Hb1, <- app_assoc;
          split; [done|simpl; lia]|].
  split.
  - intros msg [= ->]. destruct (Hr3 _ st3 eq_refl) as [?|?]; discriminate.
  - intros [= ->]. specialize (Ht3 eq_refl).
    split; [lia|]. by rewrite Hb3, Hb2, Hb1, <- app_assoc.
Qed.

(** X5. A rejection by the rate limiter is surfaced at once: no network
    attempt is made, nothing is retried and no wait takes place. *)
Theorem request_rate_limited method service endpoint params headers st e :
  (check_limit cfg service (clock_at (checks st)).1 (clock_at (checks st)).2
     (requests st)).1 = Raise e →
  let out := run method service endpoint params headers st in
  out.1 = Raise (APIError (rate_limit_message service)) ∧
  attempts out.2 = attempts st ∧
  checks out.2 = S (checks st) ∧
  backoffs out.2 = backoffs st.
Proof.
  intros Hrej out. subst out.
  assert (Hbody : ∃ st', body method service endpoint params headers st =
            (Raise (APIError (rate_limit_message service)), st') ∧
            attempts st' = attempts st ∧ checks st' = S (checks st) ∧
            backoffs st' = backoffs st).
  { unfold request_body.
    destruct (initialize_fields st) as (Hr & Hc & Ha & Hb).
    rewrite Hc, Hr.
    destruct (clock_at (checks st)) as [now now']. simpl in Hrej.
    assert (Hck : (check_limit cfg service now now' (requests st)).1 =
                  Raise (APIError (rate_limit_message service))).
    { revert Hrej. unfold check_limit. cbv zeta.
      case_bool_decide; [done|discriminate]. }
    destruct (check_limit cfg service now now' (requests st)) as [adm rq].
    simpl in Hck. subst adm. cbv zeta. simpl.
    eexists. split; [reflexivity|]. simpl. by rewrite Ha, Hb. }
  destruct Hbody as (st' & Hbody & Hatt & Hchk & Hback).
  rewrite (request_not_retried _ _ _ _ _ _ _ _ _ _ _ _ _ Hbody eq_refl). done.
Qed.

(** X6. A response with a status below 400 to the first attempt of an
    admitted call: when the body decodes, the decoded body is returned;
    when decoding raises an [aiohttp.ClientError], an [APIError] with its
    text is raised; any other exception of the decoding that the
    decorator does not retry is raised as it is. Unless the decoding
    timed out, this takes one network attempt and no wait, and the
    admission has recorded its timestamp, which is not given back. *)
Theorem request_success method service endpoint params headers st status text :
  (check_limit cfg service (clock_at (checks st)).1 (clock_at (checks st)).2
     (requests st)).1 = Ok () →
  (∀ url ps hs, network_at (attempts st) method url ps hs = Responds status text) →
  status < 400 →
  let out := request cfg get_api_key json clock_at network_at
               method service endpoint params headers st in
  (∀ decoded, json text = Ok decoded → out.1 = Ok decoded) ∧
  (∀ msg, json text = Raise (ClientError msg) →
     out.1 = Raise (APIError ("API request failed: " +:+ msg))) ∧
  (∀ e, json text = Raise e → retried e = false → out.1 = Raise e) ∧
  (json text ≠ Raise TimeoutError →
     attempts out.2 = S (attempts st) ∧
     backoffs out.2 = backoffs st ∧
     requests out.2 =
       (check_limit cfg service (clock_at (checks st)).1
          (clock_at (checks st)).2 (requests st)).2).
Proof.
  intros Hadm Hnet Hstatus out. subst out.
  unfold request. simpl. unfold request_body.
  destruct (initialize_fields st) as (Hr & Hc & Ha & Hb).
  rewrite Hc, Hr.
  destruct (clock_at (checks st)) as [now now']. simpl in *.
  destruct (check_limit cfg service now now' (requests st)) as [adm rq].
  simpl in Hadm. subst adm. cbv zeta. simpl. rewrite Ha, Hb, Hnet.
  rewrite bool_decide_eq_false_2 by lia.
  destruct (json text) as [decoded|[msg|msg| |msg]]; simpl.
  - split; [by intros ? [= ->]|]. split; [done|]. split; [done|]. done.
  - split; [done|]. split; [done|]. split; [by intros ? [= <-]|]. done.
  - split; [done|]. split; [by intros ? [= ->]|].
    split; [by intros ? [= <-]|]. done.
  - split; [done|]. split; [done|]. split; [by intros ? [= <-]|]. done.
  - split; [done|]. split; [done|]. split; [by intros ? [= <-]|]. done.
Qed.


(** X8. [endpoint.lstrip("/")] removes exactly the leading slashes: the
    endpoint is some slashes followed by the result, and the result does
    not start with a slash; so an endpoint gives the same url with or
    without leading slashes. *)
Theorem lstrip_slash_spec (endpoint : string) :
  ∃ n, endpoint = String.concat "" (replicate n "/") +:+ lstrip_slash endpoint ∧
       (∀ rest, lstrip_slash endpoint ≠ String "/" rest) ∧
       lstrip_slash (lstrip_slash endpoint) = lstrip_slash endpoint.
Proof.
  induction endpoint as [|c rest (n & Heq & Hno & Hidem)].
  - exists 0%nat. done.
  - simpl. case_bool_decide as Hc.
    + subst c. exists (S n). split; [|done].
      rewrite Heq at 1. simpl. clear.
      destruct n; simpl; [done|].
      by destruct (replicate n "/").
    + exists 0%nat. split; [done|]. split; [congruence|].
      simpl. by rewrite bool_decide_eq_false_2.
Qed.

End GatewayMore.

(** ** Further properties of the batch scheduler *)

Section SchedulerMore.
Import BatchProcessor.
Context {C : Type}.
Variable process_request : dict → C → result exn dict * C.
Variable max_retries : nat.

Local Abbreviation state := (@BatchProcessor.state C).
Implicit Types (st : state) (batch : list BatchRequest) (new : list event).

Local Abbreviation run_batch := (_process_batch process_request).
Local Abbreviation after_call := (after_batch_call process_request).
Local Abbreviation collected := (process_collected process_request max_retries).
Local Abbreviation fallback := (_handle_batch_error process_request max_retries).
Local Abbreviation retry := (_process_with_retry process_request max_retries).
Local Abbreviation reply batch st :=
  (process_request (_combine_contexts (data <$> batch)) (client st)).

(** X9. The combined call returns a value exactly when the client's
    reply has a ['results'] entry with one element per request, and then
    it returns that entry; everything else - a reply without
    ['results'], a wrong count, a ['results'] without a length, an
    exception of the client - comes out as a [BatchProcessingError], an
    exception of the client with its text after ["Failed to process
    batch: "]. No future is touched. *)
Theorem process_batch_outcome batch st :
  (∀ results,
     (run_batch batch st).1 = Ok results ↔
     ∃ response, (reply batch st).1 = Ok response ∧
                 dict_get response "results" = Some results ∧
                 py_len results = Some (length batch)) ∧
  (∀ e, (run_batch batch st).1 = Raise e → ∃ msg, e = BatchProcessingError msg) ∧
  (∀ e, (reply batch st).1 = Raise e →
     (run_batch batch st).1 =
       Raise (BatchProcessingError ("Failed to process batch: " +:+ exn_str e))) ∧
  futures (run_batch batch st).2 = futures st.
Proof.
  pose proof (process_batch_result process_request batch st) as Hres.
  pose proof (process_batch_state process_request batch st) as Hst.
  split; [|split; [|split]].
  - intros results. split.
    + intros Hok. destruct (reply batch st).1 as [response|e].
      * exists response. split; [done|].
        destruct (dict_get response "results") as [results'|].
        -- case_bool_decide as Hlen.
           ++ rewrite Hres in Hok. injection Hok as ->. done.
           ++ destruct Hres as [msg Hmsg]. congruence.
        -- destruct Hres as [msg Hmsg]. congruence.
      * congruence.
    + intros (response & Hreply & Hget & Hlen).
      by rewrite Hreply, Hget, bool_decide_eq_true_2 in Hres.
  - intros e He. destruct (reply batch st).1 as [response|e0].
    + destruct (dict_get response "results") as [results'|].
      * case_bool_decide; [congruence|].
        destruct Hres as [msg Hmsg]. exists msg. congruence.
      * destruct Hres as [msg Hmsg]. exists msg. congruence.
    + rewrite Hres in He. injection He as <-. eauto.
  - intros e He. by rewrite He in Hres.
  - by rewrite Hst.
Qed.


Lemma calls_of_app new1 new2 :
  calls_of (new1 ++ new2) = calls_of new1 ++ calls_of new2.
Proof. unfold calls_of. apply omap_app. Qed.

Lemma sleeps_of_app new1 new2 :
  sleeps_of (new1 ++ new2) = sleeps_of new1 ++ sleeps_of new2.
Proof. unfold sleeps_of. apply omap_app. Qed.

Lemma resolve_events_quiet new :
  (∀ ev, ev ∈ new → ∃ f o, ev = Resolve f o) →
  calls_of new = [] ∧ sleeps_of new = [].
Proof.
  induction new as [|ev new IH]; intros Hres; [done|].
  destruct (Hres ev) as (f & o & ->); [left|].
  destruct IH as [IH1 IH2]; [intros ev' Hev'; apply Hres; by right|].
  split; simpl; done.
Qed.

(** X11. A batch that succeeds costs one client call: when the reply to
    the combined call has one result per request, the client is called
    once, with the combined payload, no wait takes place, and the client
    is left as that call left it. *)
Theorem batch_success_single_call batch st response results :
  (reply batch st).1 = Ok response →
  dict_get response "results" = Some results →
  py_len results = Some (length batch) →
  let final := collected batch st in
  ∃ new, trace final.2 = trace st ++ new ∧
         calls_of new = [_combine_contexts (data <$> batch)] ∧
         sleeps_of new = [] ∧
         client final.2 = (reply batch st).2.
Proof.
  intros Hreply Hget Hlen final. subst final.
  pose proof (process_batch_result process_request batch st) as Hres.
  rewrite Hreply, Hget, bool_decide_eq_true_2 in Hres by done.
  pose proof (process_batch_state process_request batch st) as Hst.
  assert (Hrun : run_batch batch st = (Ok results, after_call batch st)).
  { destruct (run_batch batch st). simpl in *. congruence. }
  rewrite (process_collected_ok process_request max_retries _ _ _ Hrun).
  destruct (distribute_loop_spec batch (py_iter results) (after_call batch st))
    as (new & _ & (Htrace & _) & Hclient & _ & _ & Hevents).
  destruct (resolve_events_quiet new Hevents) as [Hcalls Hsleeps].
  eexists. split.
  - rewrite Htrace. unfold after_batch_call. simpl.
    rewrite <- app_assoc. reflexivity.
  - rewrite calls_of_app, sleeps_of_app, Hcalls, Hsleeps, Hclient. done.
Qed.

(** X12. Handling a batch touches the futures of that batch only: the
    future of any other request is left as it was, and the store keeps
    its size, on the success path and on the fallback path alike. *)
Theorem other_futures_untouched batch st f :
  f ∉ future <$> batch →
  let out := process_collected process_request max_retries batch st in
  futures out.2 !! f = futures st !! f ∧
  length (futures out.2) = length (futures st).
Proof.
  intros Hf. cbv zeta.
  destruct (process_batch_cases process_request batch st)
    as [(results & Hrun & Hlen)|(msg & Hrun)].
  - rewrite (process_collected_ok process_request max_retries _ _ _ Hrun).
    destruct (distribute_loop_spec batch (py_iter results) (after_call batch st))
      as (new & _ & (_ & Hl & _) & _ & Hfr & _).
    destruct (Hfr f Hf) as [-> _]. done.
  - rewrite (process_collected_raise process_request max_retries _ _ _ Hrun).
    destruct (handle_batch_error_spec process_request max_retries batch
                (BatchProcessingError msg) (after_call batch st))
      as (new & _ & (_ & Hl & _) & Hfr & _).
    destruct (Hfr f Hf) as [-> _]. done.
Qed.

Lemma calls_of_retry_events payload attempt k :
  calls_of (retry_events payload attempt k) = replicate (S k) payload.
Proof.
  revert attempt. induction k as [|k IH]; intros attempt; [done|].
  simpl. f_equal. apply IH.
Qed.

Lemma sleeps_of_retry_events payload attempt k :
  foldr Z.add 0 (sleeps_of (retry_events payload attempt k)) =
  2 ^ Z.of_nat attempt * (2 ^ Z.of_nat k - 1).
Proof.
  revert attempt. induction k as [|k IH]; intros attempt.
  - simpl. lia.
  - simpl. rewrite IH.
    rewrite !Nat2Z.inj_succ, !Z.pow_succ_r by lia. lia.
Qed.

(** X13. The cost of one individual run: it calls the client between
    one and [max_retries + 1] times, always with the request's own
    payload, and waits [2^k - 1] seconds in all for [k] retries, so never
    more than [2^max_retries - 1] seconds. *)
Theorem process_with_retry_cost request st :
  let out := retry request 0 st in
  ∃ new k, trace out.2 = trace st ++ new ∧
           (k ≤ max_retries)%nat ∧
           calls_of new = replicate (S k) (data request) ∧
           foldr Z.add 0 (sleeps_of new) = 2 ^ Z.of_nat k - 1 ∧
           foldr Z.add 0 (sleeps_of new) ≤ 2 ^ Z.of_nat max_retries - 1.
Proof.
  intros out. subst out.
  destruct (process_with_retry_spec process_request max_retries request st)
    as (k & Hk & _ & Ht & _).
  exists (retry_events (data request) 0 k), k.
  split; [done|]. split; [done|]. split; [apply calls_of_retry_events|].
  rewrite sleeps_of_retry_events. simpl. split; [lia|].
  assert (2 ^ Z.of_nat k ≤ 2 ^ Z.of_nat max_retries)
    by (apply Z.pow_le_mono_r; lia).
  lia.
Qed.

(** X14. Requests that are already done cost nothing in the fallback: if
    no future of the batch is pending (their callers have cancelled, or
    they were resolved before), the fallback calls the client for none
    of them, waits for nothing and only records the batch error. *)
Theorem fallback_skips_done_requests batch error st :
  (∀ r, r ∈ batch → futures st !! future r ≠ Some Pending) →
  _handle_batch_error process_request max_retries batch error st =
    (Ok (), mkState (futures st) (client st)
                    (trace st ++ [Metric "batch_errors"])).
Proof.
  intros Hdone. rewrite handle_batch_error_unfold.
  by apply handle_loop_noop.
Qed.

End SchedulerMore.

(** ** Further properties of the collection of a batch *)

Section CollectMore.
Import BatchProcessor SchedulerSpec.
Variable batch_size : nat.
Variable batch_timeout : Z.

Local Abbreviation loop := (collect_loop batch_size batch_timeout).

Lemma wait_for_get_requests timeout env :
  match (wait_for_get timeout env).1 with
  | Ok request =>
      (arrivals env).*2 = request :: (arrivals (wait_for_get timeout env).2).*2
  | Raise e =>
      e = TimeoutError ∧
      (arrivals (wait_for_get timeout env).2).*2 = (arrivals env).*2
  end.
Proof.
  unfold wait_for_get. destruct (arrivals env) as [|[delay request] rest];
    [done|]. by case_bool_decide.
Qed.

Lemma collect_loop_requests fuel start_time batch env :
  ∃ batch', (loop fuel start_time batch env).1 = Ok batch' ∧
    batch ++ (arrivals env).*2 =
    batch' ++ (arrivals (loop fuel start_time batch env).2).*2.
Proof.
  revert batch env. induction fuel as [|fuel IH]; intros batch env; simpl.
  - case_bool_decide; eauto.
  - case_bool_decide; [|eauto].
    pose proof (wait_for_get_requests batch_timeout env) as Hwait.
    destruct (wait_for_get batch_timeout env) as [[request|e] env1];
      simpl in Hwait.
    + case_bool_decide.
      * exists (batch ++ [request]). split; [done|]. simpl.
        by rewrite Hwait, <- app_assoc.
      * destruct (IH (batch ++ [request]) env1) as (batch' & Hok & Heq).
        exists batch'. split; [done|].
        by rewrite <- Heq, Hwait, <- app_assoc.
    + destruct Hwait as [-> Hwait]. exists batch. split; [done|].
      simpl. by rewrite Hwait.
Qed.

(** X15. Collection neither loses, duplicates nor reorders requests:
    whenever it returns a batch, the batch followed by the requests
    still to be handed over is the sequence of requests the queue had to
    hand over. *)
Theorem collect_batch_keeps_requests env batch :
  (_collect_batch batch_size batch_timeout env).1 = Ok batch →
  (arrivals env).*2 =
    batch ++ (arrivals (_collect_batch batch_size batch_timeout env).2).*2.
Proof.
  unfold _collect_batch. intros Hout.
  destruct (collect_loop_requests batch_size (clock env) [] env)
    as (batch' & Hok & Heq).
  rewrite Hok in Hout. injection Hout as <-. exact Heq.
Qed.

Lemma total_delay_nonneg first : 0 ≤ total_delay first.
Proof. induction first as [|[d r] first IH]; simpl; lia. Qed.

Lemma collect_loop_fast fuel start_time batch env first rest :
  arrivals env = first ++ rest →
  (length batch + length first = batch_size)%nat →
  (length first ≤ fuel)%nat →
  0 ≤ clock env - start_time →
  clock env - start_time + total_delay first < batch_timeout →
  loop fuel start_time batch env =
    (Ok (batch ++ first.*2),
     mkEnv (clock env + total_delay first) rest).
Proof.
  revert fuel batch env.
  induction first as [|[delay request] first IH];
    intros fuel batch env Harr Hlen Hfuel Hstart Hsum; simpl in *.
  - rewrite app_nil_r, Z.add_0_r.
    assert (Henv : env = mkEnv (clock env) rest)
      by (destruct env; simpl in *; by subst).
    rewrite <- Henv.
    destruct fuel; simpl; rewrite bool_decide_eq_false_2 by lia; done.
  - destruct fuel as [|fuel]; [lia|]. simpl.
    rewrite bool_decide_eq_true_2 by lia.
    unfold wait_for_get. rewrite Harr.
    pose proof (total_delay_nonneg first) as Hpos.
    rewrite bool_decide_eq_true_2 by lia. simpl.
    destruct (decide (first = [])) as [->|Hne].
    + simpl in *. rewrite Z.add_0_r.
      case_bool_decide; [done|].
      destruct fuel; simpl; rewrite length_app; simpl;
        rewrite bool_decide_eq_false_2 by lia; done.
    + rewrite bool_decide_eq_false_2 by lia.
      rewrite (IH fuel (batch ++ [request])
                 (mkEnv (clock env + Z.of_N delay) (first ++ rest))); simpl.
      * by rewrite <- app_assoc, Z.add_assoc.
      * done.
      * rewrite length_app. simpl. lia.
      * lia.
      * lia.
      * lia.
Qed.

(** X16. A full batch: when the next [batch_size] requests become
    available within less than [batch_timeout] in all, the batch is
    exactly these requests, in order, collection ends at the moment the
    last of them arrives, and the later requests stay queued. *)
Theorem collect_full_batch env first rest :
  arrivals env = first ++ rest →
  length first = batch_size →
  total_delay first < batch_timeout →
  _collect_batch batch_size batch_timeout env =
    (Ok first.*2,
     mkEnv (clock env + total_delay first) rest).
Proof.
  intros Harr Hlen Hsum. unfold _collect_batch.
  rewrite (collect_loop_fast batch_size (clock env) [] env first rest);
    try done; simpl; lia.
Qed.

End CollectMore.

Lemma collect_full_batch_witness :
  let r := Fixtures.req_a in
  BatchProcessor._collect_batch 2 1000000
    (BatchProcessor.mkEnv 0 [(100%N, r); (200%N, r); (0%N, r)]) =
  (Ok [r; r], BatchProcessor.mkEnv 300 [(0%N, r)]).
Proof.
  intros r.
  apply (collect_full_batch 2 1000000
           (BatchProcessor.mkEnv 0 [(100%N, r); (200%N, r); (0%N, r)])
           [(100%N, r); (200%N, r)] [(0%N, r)]).
  - reflexivity.
  - reflexivity.
  - vm_compute. reflexivity.
Defined.

Lemma collect_batch_keeps_requests_witness :
  let r := Fixtures.req_a in
  let env := BatchProcessor.mkEnv 0 [(100%N, r); (200%N, r); (0%N, r)] in
  (BatchProcessor.arrivals env).*2 =
    [r; r] ++ (BatchProcessor.arrivals
                 (BatchProcessor._collect_batch 2 1000000 env).2).*2.
Proof.
  intros r env.
  apply (collect_batch_keeps_requests 2 1000000 env [r; r]).
  reflexivity.
Defined.

(** ** Further properties of the pending queue *)

Set Warnings "-inconsistent-scopes".

Section QueueMore.
Import BatchProcessor PriorityQueue.
Implicit Types (heap V H : list entry) (x : entry).

(** *** Positions in the heap *)

Lemma parent_spec (j : nat) :
  (0 < j)%nat →
  (j = 2 * ((j - 1) / 2) + 1 ∨ j = 2 * ((j - 1) / 2) + 2)%nat.
Proof.
  intros Hj. pose proof (Nat.div_mod_eq (j - 1) 2) as Hdm.
  pose proof (Nat.mod_upper_bound (j - 1) 2). lia.
Qed.

Lemma parent_lt (j : nat) : (0 < j)%nat → ((j - 1) / 2 < j)%nat.
Proof. intros Hj. pose proof (parent_spec j Hj). lia. Qed.

Lemma parent_of_child (j p : nat) :
  (j = 2 * p + 1 ∨ j = 2 * p + 2)%nat → ((j - 1) / 2)%nat = p.
Proof.
  intros [->| ->].
  - replace (2 * p + 1 - 1)%nat with (p * 2)%nat by lia.
    by rewrite Nat.div_mul.
  - replace (2 * p + 2 - 1)%nat with (1 + p * 2)%nat by lia.
    by rewrite Nat.div_add.
Qed.

(** In a heap the root has the lowest priority value. *)
Lemma heap_ordered_root heap root :
  heap_ordered heap → heap !! 0%nat = Some root →
  ∀ j x, heap !! j = Some x → root.1 ≤ x.1.
Proof.
  intros Hord Hroot j. induction (lt_wf j) as [j _ IH]. intros x Hx.
  destruct (decide (j = 0%nat)) as [->|Hj].
  - rewrite Hroot in Hx. injection Hx as ->. lia.
  - assert (Hlt : ((j - 1) / 2 < j)%nat) by (apply parent_lt; lia).
    destruct (lookup_lt_is_Some_2 heap ((j - 1) / 2)) as [p Hp].
    { apply lookup_lt_Some in Hx. lia. }
    pose proof (IH _ Hlt p Hp).
    pose proof (Hord j x p ltac:(lia) Hx Hp). lia.
Qed.

(** Entries of different priorities compare without an exception. *)
Lemma entry_lt_distinct V (i j : nat) a b :
  NoDup V.*1 → V !! i = Some a → V !! j = Some b → i ≠ j →
  entry_lt a b = Ok (bool_decide (a.1 < b.1)).
Proof.
  intros Hnd Ha Hb Hij. apply entry_lt_priority. intros Heq.
  apply Hij. apply (NoDup_lookup V.*1 i j a.1); [done| |].
  - by rewrite list_lookup_fmap, Ha.
  - by rewrite list_lookup_fmap, Hb, Heq.
Qed.

(** Among distinct priorities, the priority at one position occurs at
    no other. *)
Lemma distinct_elsewhere V (pos : nat) x :
  NoDup V.*1 → V !! pos = Some x →
  ∀ j e, j ≠ pos → V !! j = Some e → e.1 ≠ x.1.
Proof.
  intros Hnd Hx j e Hj He Heq. apply Hj.
  apply (NoDup_lookup V.*1 j pos e.1); [done| |].
  - by rewrite list_lookup_fmap, He.
  - by rewrite list_lookup_fmap, Hx, Heq.
Qed.

(** The list with the values at two positions exchanged. *)
Lemma lookup_exchange V (i j k : nat) a b :
  V !! i = Some a → V !! j = Some b → i ≠ j →
  <[j := a]> (<[i := b]> V) !! k =
    if decide (k = j) then Some a else if decide (k = i) then Some b else V !! k.
Proof.
  intros Ha Hb Hij.
  assert (Hi : (i < length V)%nat) by by eapply lookup_lt_Some.
  assert (Hj : (j < length V)%nat) by by eapply lookup_lt_Some.
  destruct (decide (k = j)) as [->|Hkj].
  - apply list_lookup_insert_eq. by rewrite length_insert.
  - rewrite list_lookup_insert_ne by done.
    destruct (decide (k = i)) as [->|Hki].
    + by apply list_lookup_insert_eq.
    + by rewrite list_lookup_insert_ne.
Qed.

(** *** [_siftdown]: the hole moves up *)

(** What holds of the list [V] in which the new item sits in the hole
    at [pos]: every entry but the one at [pos] respects its parent, and
    the children of [pos] respect the parent of [pos]. *)
Local Abbreviation ordered_but V pos :=
  (∀ j child parent, (0 < j)%nat → j ≠ pos →
     V !! j = Some child → V !! ((j - 1) / 2)%nat = Some parent →
     parent.1 ≤ child.1).
Local Abbreviation children_above V pos :=
  ((0 < pos)%nat → ∀ j child parent, (0 < j)%nat → ((j - 1) / 2)%nat = pos →
     V !! j = Some child → V !! ((pos - 1) / 2)%nat = Some parent →
     parent.1 ≤ child.1).

Lemma siftdown_spec fuel H pos x :
  (pos < length H)%nat → (pos ≤ fuel)%nat →
  (∀ j e, j ≠ pos → H !! j = Some e → e.1 ≠ x.1) →
  ordered_but (<[pos := x]> H) pos →
  children_above (<[pos := x]> H) pos →
  ∃ H', _siftdown fuel H 0 pos x = (Ok (), H') ∧
        H' ≡ₚ <[pos := x]> H ∧ heap_ordered H'.
Proof.
  revert H pos. induction fuel as [|fuel IH]; intros H pos Hpos Hfuel Hnd HA HB.
  - assert (pos = 0%nat) as -> by lia. cbn [_siftdown].
    rewrite bool_decide_eq_false_2 by lia.
    exists (<[0%nat := x]> H). split; [done|]. split; [done|].
    intros j c p Hj. apply HA; [done|lia].
  - cbn [_siftdown]. case_bool_decide as Hgt; cycle 1.
    { assert (pos = 0%nat) as -> by lia.
      exists (<[0%nat := x]> H). split; [done|]. split; [done|].
      intros j c p Hj. apply HA; [done|lia]. }
    set (q := ((pos - 1) / 2)%nat).
    assert (Hq : (q < pos)%nat) by (apply parent_lt; lia).
    set (V := <[pos := x]> H) in *.
    assert (HVpos : V !! pos = Some x) by by apply list_lookup_insert_eq.
    destruct (lookup_lt_is_Some_2 H q) as [parent Hparent]; [lia|].
    assert (HVq : V !! q = Some parent).
    { subst V. rewrite list_lookup_insert_ne by lia. done. }
    rewrite Hparent.
    assert (Hxp : x.1 ≠ parent.1).
    { intros Heq. by apply (Hnd q parent ltac:(lia) Hparent). }
    rewrite (entry_lt_priority x parent Hxp).
    case_bool_decide as Hlt.
    + (* the parent moves down, the hole moves up *)
      set (V2 := <[q := x]> (<[pos := parent]> H)).
      assert (HV2 : V2 = <[q := x]> (<[pos := parent]> V)).
      { subst V2 V. by rewrite list_insert_insert_eq. }
      assert (Hperm : V2 ≡ₚ V).
      { rewrite HV2. by apply Permutation_insert_swap. }
      assert (Hlook : ∀ k, V2 !! k =
                if decide (k = q) then Some x
                else if decide (k = pos) then Some parent else V !! k).
      { intros k. rewrite HV2. apply lookup_exchange; [done|done|lia]. }
      destruct (IH (<[pos := parent]> H) q) as (H' & Hrun & Hp' & Hord).
      * rewrite length_insert. lia.
      * lia.
      * intros j e Hjq. destruct (decide (j = pos)) as [->|Hjp].
        -- rewrite list_lookup_insert_eq by done. intros [= <-]. congruence.
        -- rewrite list_lookup_insert_ne by done. by apply Hnd.
      * fold V2. intros j c p Hj Hjq. rewrite !Hlook.
        rewrite (decide_False (P := j = q)) by done.
        destruct (decide (j = pos)) as [->|Hjp].
        -- fold q. rewrite decide_True by done.
           intros [= <-] [= <-]. lia.
        -- intros Hc. destruct (decide ((j - 1) / 2 = q)%nat) as [Hpq|Hpq].
           ++ intros [= <-]. pose proof (HA j c parent Hj Hjp Hc) as Hle.
              rewrite Hpq in Hle. specialize (Hle HVq). lia.
           ++ destruct (decide ((j - 1) / 2 = pos)%nat) as [Hpp|Hpp].
              ** intros [= <-]. apply (HB ltac:(lia) j c parent Hj Hpp Hc HVq).
              ** intros Hp. by apply (HA j c p Hj Hjp Hc).
      * fold V2. intros Hq0 j c p Hj Hjq. rewrite !Hlook.
        assert (Hqq : ((q - 1) / 2 < q)%nat) by by apply parent_lt.
        rewrite (decide_False (P := j = q))
          by (pose proof (parent_lt j Hj); lia).
        rewrite (decide_False (P := ((q - 1) / 2)%nat = q)) by lia.
        rewrite (decide_False (P := ((q - 1) / 2)%nat = pos)) by lia.
        intros Hc Hp.
        pose proof (HA q parent p Hq0 ltac:(lia) HVq Hp) as Hle.
        destruct (decide (j = pos)) as [->|Hjp].
        -- injection Hc as <-. done.
        -- pose proof (HA j c parent Hj Hjp Hc) as Hle'.
           rewrite Hjq in Hle'. specialize (Hle' HVq). lia.
      * exists H'. split; [done|]. split; [|done].
        by rewrite Hp', <- Hperm.
    + (* the new item stays in the hole *)
      exists V. split; [done|]. split; [done|].
      intros j c p Hj Hc Hp.
      destruct (decide (j = pos)) as [->|Hjp]; [|by apply (HA j c p)].
      fold q in Hp. rewrite HVq in Hp. rewrite HVpos in Hc.
      injection Hp as <-. injection Hc as <-. lia.
Qed.

(** Putting an entry whose priority is not yet in the queue never
    raises: the queue gains exactly that entry and stays in heap
    order. *)
Lemma heappush_fresh heap (item : entry) :
  heap_ordered heap → item.1 ∉ heap.*1 →
  ∃ heap', heappush heap item = (Ok (), heap') ∧
           heap' ≡ₚ item :: heap ∧
           heap_ordered heap'.
Proof.
  intros Hord Hfresh. unfold heappush.
  rewrite length_app. simpl length.
  replace (length heap + 1 - 1)%nat with (length heap) by lia.
  assert (Hlast : (heap ++ [item]) !! length heap = Some item)
    by by rewrite list_lookup_middle.
  assert (Hid : <[length heap := item]> (heap ++ [item]) = heap ++ [item])
    by by apply list_insert_id.
  destruct (siftdown_spec (length heap + 1) (heap ++ [item]) (length heap) item)
    as (heap' & Hrun & Hperm & Hord').
  - rewrite length_app. simpl. lia.
  - lia.
  - intros j e Hj He Heq. apply Hfresh. rewrite <- Heq.
    apply list_elem_of_fmap. exists e. split; [done|].
    assert (Hlt : (j < length heap)%nat).
    { apply lookup_lt_Some in He. rewrite length_app in He. simpl in He. lia. }
    rewrite lookup_app_l in He by done. by eapply list_elem_of_lookup_2.
  - rewrite Hid. intros j c p Hj Hne Hc Hp.
    assert (Hlt : (j < length heap)%nat).
    { apply lookup_lt_Some in Hc. rewrite length_app in Hc. simpl in Hc. lia. }
    pose proof (parent_lt j Hj).
    rewrite lookup_app_l in Hc, Hp by lia. by apply (Hord j c p).
  - rewrite Hid. intros Hpos j c p Hj Hpar Hc Hp.
    apply lookup_lt_Some in Hc. rewrite length_app in Hc. simpl in Hc.
    pose proof (parent_spec j Hj). lia.
  - rewrite Hid in Hperm. exists heap'. split; [done|].
    split; [by rewrite Hperm, Permutation_app_comm|]. done.
Qed.

(** What [heappush] leaves on a tie: the new entry at the end. *)
Lemma heappush_tie (heap : list entry) (item : entry) :
  heap ≠ [] →
  Forall (λ e, e.1 = item.1 ∧ future e.2 ≠ future item.2) heap →
  ∃ msg, heappush heap item = (Raise (TypeError msg), heap ++ [item]).
Proof.
  intros Hne Hall. unfold heappush.
  rewrite length_app. simpl length.
  destruct heap as [|e0 heap]; [done|]. cbn [length].
  replace (S (length heap) + 1)%nat with (S (S (length heap))) by lia.
  replace (S (S (length heap)) - 1)%nat with (S (length heap)) by lia.
  cbn [_siftdown]. rewrite bool_decide_eq_true_2 by lia.
  assert (Hlt : ((S (length heap) - 1) / 2 < length (e0 :: heap))%nat).
  { cbn [length]. pose proof (parent_lt (S (length heap))). lia. }
  destruct (lookup_lt_is_Some_2 _ _ Hlt) as [parent Hparent].
  rewrite lookup_app_l by done. rewrite Hparent.
  assert (Hin : parent ∈ e0 :: heap) by by eapply list_elem_of_lookup_2.
  rewrite Forall_forall in Hall. destruct (Hall parent Hin) as [Hp Hf].
  destruct (entry_lt_tie item parent) as [msg Hmsg]; [done|done|].
  rewrite Hmsg. eauto.
Qed.

(** X17. A submission whose priority is new to a queue in heap order is
    enqueued without an exception, whatever else the queue holds: it
    gets a fresh pending future at the end of the store, the other
    futures are kept, and the queue gains its entry and stays in heap
    order, so the entry at the front has the lowest priority value of
    all; priorities that were pairwise distinct stay so. *)
Theorem submit_put_fresh_priority (hash_id : dict → string)
    (payload : dict) (priority now : Z) (store : list Future) (queue : list entry) :
  heap_ordered queue → priority ∉ queue.*1 →
  let request := mkBatchRequest (hash_id payload) payload priority now
                                (length store) in
  ∃ queue',
    submit_put hash_id payload priority now (store, queue) =
      (Ok request, (store ++ [Pending], queue')) ∧
    (store ++ [Pending]) !! future request = Some Pending ∧
    queue' ≡ₚ (priority, request) :: queue ∧
    heap_ordered queue' ∧
    (NoDup queue.*1 → NoDup queue'.*1) ∧
    ∃ front, queue' !! 0%nat = Some front ∧
             ∀ e, e ∈ queue' → front.1 ≤ e.1.
Proof.
  intros Hord Hfresh request. unfold submit_put. fold request.
  destruct (heappush_fresh queue (priority, request))
    as (queue' & Hpush & Hperm & Hord'); [done|done|].
  rewrite Hpush. exists queue'. split; [done|].
  split; [by rewrite list_lookup_middle|].
  split; [done|]. split; [done|]. split.
  { intros Hnd. rewrite Hperm. simpl. by apply NoDup_cons. }
  destruct queue' as [|front queue'].
  { apply Permutation_nil_l in Hperm. discriminate. }
  exists front. split; [done|]. intros e He.
  apply list_elem_of_lookup in He as [j Hj].
  by apply (heap_ordered_root (front :: queue') front Hord' eq_refl j e).
Qed.

(** X18. A submission that ties with what is queued (a queue that is not
    empty and holds only entries of the same priority) fails with
    [TypeError], yet its request stays in the queue, at the end, with a
    pending future that no caller awaits. *)
Theorem submit_put_tie (hash_id : dict → string)
    (payload : dict) (priority now : Z) (store : list Future) (queue : list entry) :
  queue ≠ [] →
  Forall (λ e, e.1 = priority ∧ (future e.2 < length store)%nat) queue →
  let request := mkBatchRequest (hash_id payload) payload priority now
                                (length store) in
  ∃ msg,
    submit_put hash_id payload priority now (store, queue) =
      (Raise (TypeError msg),
       (store ++ [Pending], queue ++ [(priority, request)])).
Proof.
  intros Hne Hall request. unfold submit_put. fold request.
  destruct (heappush_tie queue (priority, request)) as [msg Hpush]; [done| |].
  - eapply Forall_impl; [exact Hall|]. simpl. intros e [Hp Hf].
    split; [done|lia].
  - rewrite Hpush. eauto.
Qed.

(** *** [_siftup]: the hole moves down *)

Local Abbreviation ordered_apart V pos :=
  (∀ j child parent, (0 < j)%nat → j ≠ pos → ((j - 1) / 2)%nat ≠ pos →
     V !! j = Some child → V !! ((j - 1) / 2)%nat = Some parent →
     parent.1 ≤ child.1).

Lemma smaller_child_spec V (pos : nat) :
  NoDup V.*1 → (2 * pos + 1 < length V)%nat →
  ∃ c m, smaller_child V (length V) (2 * pos + 1) = Ok c ∧
         (c = 2 * pos + 1 ∨ c = 2 * pos + 2)%nat ∧
         V !! c = Some m ∧
         ∀ j cj, (j = 2 * pos + 1 ∨ j = 2 * pos + 2)%nat →
                 V !! j = Some cj → m.1 ≤ cj.1.
Proof.
  intros Hnd Hchild. unfold smaller_child.
  destruct (lookup_lt_is_Some_2 V (2 * pos + 1)) as [l Hl]; [done|].
  case_bool_decide as Hright.
  - destruct (lookup_lt_is_Some_2 V (2 * pos + 1 + 1)) as [r Hr]; [done|].
    rewrite Hl, Hr.
    rewrite (entry_lt_distinct V (2 * pos + 1) (2 * pos + 1 + 1) l r)
      by (try done; lia).
    case_bool_decide as Hlt.
    + exists (2 * pos + 1)%nat, l. split; [done|]. split; [lia|].
      split; [done|]. intros j cj [->| ->] Hj.
      * rewrite Hl in Hj. injection Hj as <-. lia.
      * replace (2 * pos + 2)%nat with (2 * pos + 1 + 1)%nat in Hj by lia.
        rewrite Hr in Hj. injection Hj as <-. lia.
    + exists (2 * pos + 1 + 1)%nat, r. split; [done|]. split; [lia|].
      split; [done|]. intros j cj [->| ->] Hj.
      * rewrite Hl in Hj. injection Hj as <-. lia.
      * replace (2 * pos + 2)%nat with (2 * pos + 1 + 1)%nat in Hj by lia.
        rewrite Hr in Hj. injection Hj as <-. lia.
  - exists (2 * pos + 1)%nat, l. split; [done|]. split; [lia|].
    split; [done|]. intros j cj [->| ->] Hj.
    + rewrite Hl in Hj. injection Hj as <-. lia.
    + apply lookup_lt_Some in Hj. lia.
Qed.

Lemma smaller_child_hole H (pos : nat) x :
  smaller_child (<[pos := x]> H) (length H) (2 * pos + 1) =
  smaller_child H (length H) (2 * pos + 1).
Proof.
  unfold smaller_child. by rewrite !list_lookup_insert_ne by lia.
Qed.

Lemma siftup_loop_spec fuel H (pos : nat) x :
  (pos < length H)%nat → (length H - pos ≤ fuel)%nat →
  NoDup (<[pos := x]> H).*1 →
  ordered_apart (<[pos := x]> H) pos →
  children_above (<[pos := x]> H) pos →
  ∃ pos' H', siftup_loop fuel H (length H) pos = (Ok pos', H') ∧
             length H' = length H ∧ (pos' < length H)%nat ∧
             <[pos' := x]> H' ≡ₚ <[pos := x]> H ∧
             ordered_but (<[pos' := x]> H') pos' ∧
             children_above (<[pos' := x]> H') pos'.
Proof.
  revert H pos. induction fuel as [|fuel IH];
    intros H pos Hpos Hfuel Hnd HA HB; [lia|].
  cbn [siftup_loop]. case_bool_decide as Hchild; cycle 1.
  { (* the hole is a leaf *)
    exists pos, H. split; [done|]. split; [done|]. split; [done|].
    split; [done|]. split; [|done].
    intros j c p Hj Hjp Hc Hp.
    destruct (decide ((j - 1) / 2 = pos)%nat) as [Hpar|Hpar];
      [|by apply (HA j c p)].
    apply lookup_lt_Some in Hc. rewrite length_insert in Hc.
    pose proof (parent_spec j Hj). lia. }
  set (V := <[pos := x]> H) in *.
  assert (HlenV : length V = length H) by apply length_insert.
  assert (HVpos : V !! pos = Some x) by by apply list_lookup_insert_eq.
  destruct (smaller_child_spec V pos) as (c & m & Hchosen & Hc & Hm & Hmin);
    [done|lia|].
  rewrite HlenV in Hchosen. unfold V in Hchosen.
  rewrite smaller_child_hole in Hchosen. rewrite Hchosen.
  assert (Hcpos : c ≠ pos) by lia.
  assert (HHc : H !! c = Some m).
  { unfold V in Hm. by rewrite list_lookup_insert_ne in Hm by lia. }
  rewrite HHc.
  set (V2 := <[c := x]> (<[pos := m]> H)).
  assert (HV2 : V2 = <[c := x]> (<[pos := m]> V)).
  { subst V2 V. by rewrite list_insert_insert_eq. }
  assert (Hperm : V2 ≡ₚ V).
  { rewrite HV2. by apply Permutation_insert_swap. }
  assert (Hlook : ∀ k, V2 !! k =
            if decide (k = c) then Some x
            else if decide (k = pos) then Some m else V !! k).
  { intros k. rewrite HV2. apply lookup_exchange; [done|done|lia]. }
  assert (Hparc : ((c - 1) / 2)%nat = pos) by (apply parent_of_child; lia).
  destruct (IH (<[pos := m]> H) c) as (pos' & H' & Hrun & Hlen & Hpos' & Hp' & HA' & HB').
  - rewrite length_insert. apply lookup_lt_Some in HHc. lia.
  - rewrite length_insert. lia.
  - fold V2. by rewrite Hperm.
  - fold V2. intros j cj p Hj Hjc Hparj. rewrite !Hlook.
    rewrite (decide_False (P := j = c)) by done.
    rewrite (decide_False (P := ((j - 1) / 2)%nat = c)) by done.
    destruct (decide (j = pos)) as [->|Hjp].
    + pose proof (parent_lt pos Hj).
      rewrite (decide_False (P := ((pos - 1) / 2)%nat = pos)) by lia.
      intros [= <-] Hp.
      apply (HB Hj c m p ltac:(lia) Hparc Hm Hp).
    + intros Hcj. destruct (decide ((j - 1) / 2 = pos)%nat) as [Hpp|Hpp].
      * intros [= <-]. apply (Hmin j cj); [|done].
        pose proof (parent_spec j Hj). lia.
      * intros Hp. by apply (HA j cj p).
  - fold V2. intros Hc0 j cj p Hj Hparj. rewrite !Hlook.
    pose proof (parent_spec j Hj).
    rewrite (decide_False (P := j = c)) by lia.
    rewrite (decide_False (P := j = pos)) by lia.
    rewrite Hparc. rewrite (decide_False (P := pos = c)) by lia.
    rewrite decide_True by done.
    intros Hcj [= <-].
    pose proof (HA j cj m Hj ltac:(lia) ltac:(lia) Hcj) as Hle.
    rewrite Hparj in Hle. by apply Hle.
  - rewrite length_insert in Hrun, Hlen, Hpos'.
    exists pos', H'. split; [done|]. split; [done|]. split; [done|].
    split; [|done]. fold V2 in Hp'. by rewrite Hp', Hperm.
Qed.

Lemma siftup_root_spec V x :
  V !! 0%nat = Some x → NoDup V.*1 → ordered_apart V 0%nat →
  ∃ V', _siftup V 0 = (Ok (), V') ∧ V' ≡ₚ V ∧ heap_ordered V'.
Proof.
  intros Hx Hnd HA. unfold _siftup. rewrite Hx.
  assert (Hid : <[0%nat := x]> V = V) by by apply list_insert_id.
  assert (Hlen : (0 < length V)%nat) by by eapply lookup_lt_Some.
  destruct (siftup_loop_spec (length V) V 0 x)
    as (pos' & H' & Hrun & HlenH & Hpos' & Hperm & HA' & HB').
  - done.
  - lia.
  - by rewrite Hid.
  - by rewrite Hid.
  - intros Hpos. lia.
  - rewrite Hrun. rewrite Hid in Hperm.
    destruct (siftdown_spec (length (<[pos' := x]> H')) (<[pos' := x]> H') pos' x)
      as (V' & Hdown & Hperm' & Hord).
    + rewrite length_insert. lia.
    + rewrite length_insert. lia.
    + apply (distinct_elsewhere (<[pos' := x]> H') pos' x).
      * by rewrite Hperm.
      * apply list_lookup_insert_eq. lia.
    + by rewrite list_insert_insert_eq.
    + by rewrite list_insert_insert_eq.
    + rewrite list_insert_insert_eq in Hperm'.
      exists V'. split; [done|]. split; [|done]. by rewrite Hperm', Hperm.
Qed.

(** X19. [queue.get()] on a queue in heap order with distinct priorities
    never raises: it returns the entry at the front, whose priority value
    is the lowest of all, and leaves the other entries, in heap order. *)
Theorem heappop_lowest_priority heap :
  heap_ordered heap → NoDup heap.*1 → heap ≠ [] →
  ∃ front heap',
    heappop heap = Some (Ok front, heap') ∧
    heap !! 0%nat = Some front ∧
    (∀ e, e ∈ heap → front.1 ≤ e.1) ∧
    heap ≡ₚ front :: heap' ∧
    heap_ordered heap' ∧ NoDup heap'.*1.
Proof.
  intros Hord Hnd Hne.
  assert (Hmin : ∀ front, heap !! 0%nat = Some front →
                   ∀ e, e ∈ heap → front.1 ≤ e.1).
  { intros front Hfront e He. apply list_elem_of_lookup in He as [j Hj].
    by apply (heap_ordered_root heap front Hord Hfront j e). }
  destruct (last heap) as [lastelt|] eqn:Hlast;
    [|by apply last_None in Hlast].
  apply last_Some in Hlast as [init ->].
  unfold heappop. rewrite last_snoc.
  assert (Htake : take (length (init ++ [lastelt]) - 1) (init ++ [lastelt])
                  = init).
  { rewrite length_app. simpl.
    replace (length init + 1 - 1)%nat with (length init) by lia.
    by rewrite take_app_length. }
  rewrite Htake. destruct init as [|root init].
  - exists lastelt, []. split; [done|]. split; [done|].
    split; [by apply Hmin|]. split; [done|]. split; [|constructor].
    intros j c p _ Hc. by rewrite lookup_nil in Hc.
  - cbn [insert list_insert].
    assert (Hperm0 : (root :: init) ++ [lastelt] ≡ₚ root :: lastelt :: init).
    { simpl. constructor. by rewrite Permutation_app_comm. }
    destruct (siftup_root_spec (lastelt :: init) lastelt)
      as (V' & Hrun & Hperm & Hord').
    + done.
    + rewrite Hperm0 in Hnd. simpl in Hnd. by apply NoDup_cons in Hnd as [_ ?].
    + intros j c p Hj _ Hpar Hc Hp.
      assert (Hjlt : (j < S (length init))%nat) by by apply lookup_lt_Some in Hc.
      pose proof (parent_lt j Hj) as Hplt.
      apply (Hord j c p Hj).
      * destruct j as [|j]; [lia|]. simpl in *.
        rewrite lookup_app_l by lia. done.
      * destruct ((j - 1) / 2)%nat as [|k]; [done|]. simpl in *.
        rewrite lookup_app_l by lia. done.
    + rewrite Hrun. exists root, V'. split; [done|]. split; [done|].
      split; [by apply Hmin|]. split; [by rewrite Hperm0, Hperm|].
      split; [done|]. rewrite Hperm.
      rewrite Hperm0 in Hnd. simpl in Hnd. by apply NoDup_cons in Hnd as [_ ?].
Qed.

(** X29. [queue.get()] raises [TypeError] when the second and the third
    entry of the queue tie: [heappop] moves the last entry to the front
    and [_siftup] then compares the two children of the front. The front
    entry has been taken out although it is not returned: the queue is
    left with the other entries. *)
Theorem heappop_tied_children_raises (front second third : entry)
    (rest : list entry) :
  second.1 = third.1 → future second.2 ≠ future third.2 →
  ∃ msg heap',
    heappop (front :: second :: third :: rest) =
      Some (Raise (TypeError msg), heap') ∧
    heap' ≡ₚ second :: third :: rest.
Proof.
  intros Hp Hf.
  destruct (entry_lt_tie second third Hp Hf) as [msg23 H23].
  destruct (entry_lt_tie third second) as [msg32 H32]; [done|done|].
  destruct (decide (rest = [])) as [->|Hne].
  - exists msg32, [second; third]. split; [|done].
    unfold heappop, _siftup. cbn.
    rewrite bool_decide_eq_true_2 by lia. unfold smaller_child at 1.
    rewrite bool_decide_eq_false_2 by lia. cbn.
    rewrite bool_decide_eq_false_2 by lia. cbn.
    rewrite bool_decide_eq_true_2 by lia. by rewrite H32.
  - destruct (last rest) as [lastelt|] eqn:Hlast;
      [|by apply last_None in Hlast].
    apply last_Some in Hlast as [init ->].
    exists msg23, (lastelt :: second :: third :: init). split.
    + unfold heappop.
      change (front :: second :: third :: init ++ [lastelt])
        with ((front :: second :: third :: init) ++ [lastelt]).
      rewrite last_snoc, length_app. cbn [length].
      replace (S (S (S (length init))) + 1 - 1)%nat
        with (length (front :: second :: third :: init)) by (simpl; lia).
      rewrite take_app_length. cbn [insert list_insert].
      unfold _siftup. cbn [lookup list_lookup length siftup_loop].
      rewrite bool_decide_eq_true_2 by lia.
      unfold smaller_child. rewrite bool_decide_eq_true_2 by lia.
      cbn [lookup list_lookup Nat.add Nat.mul]. by rewrite H23.
    + apply (Permutation_cons_append (second :: third :: init) lastelt).
Qed.

End QueueMore.

(** ** The performance monitor *)

Section MonitorFacts.
Import PerformanceMonitor.
Context {V : Type}.
Variable lt : V → V → bool.
Variable sub : V → V → V.
Variable mean : list V → V.

Local Abbreviation metrics_map := (gmap string (list (@MetricPoint V))).
Implicit Types (metrics : metrics_map) (name : string).

Lemma record_metric_lookup name v tags now metrics :
  get_metrics name (record_metric name v tags now metrics) =
    get_metrics name metrics ++ [mkMetricPoint v now (default ∅ tags)] ∧
  ∀ other, other ≠ name →
    get_metrics other (record_metric name v tags now metrics) =
    get_metrics other metrics.
Proof.
  unfold get_metrics, record_metric. rewrite lookup_insert_eq. simpl.
  split; [done|]. intros other Hne. by rewrite lookup_insert_ne.
Qed.

(** X20. Recording and reading back: a recorded point is the latest of
    its name, the points of that name grow by exactly this one, at the
    end, and the points of every other name are left alone; missing
    tags are stored as the empty dictionary. *)
Theorem record_metric_round_trip name v tags now metrics :
  let point := mkMetricPoint v now (default ∅ tags) in
  let metrics' := record_metric name v tags now metrics in
  get_latest name metrics' = Some point ∧
  get_metrics name metrics' = get_metrics name metrics ++ [point] ∧
  ∀ other, other ≠ name → get_metrics other metrics' = get_metrics other metrics.
Proof.
  intros point metrics'. subst metrics'.
  destruct (record_metric_lookup name v tags now metrics) as [Hrec Hother].
  unfold get_latest. rewrite Hrec. split; [apply last_snoc|]. done.
Qed.

Lemma py_min_in (first : V) rest : py_min lt first rest ∈ first :: rest.
Proof.
  unfold py_min. revert first. induction rest as [|item rest IH]; intros first.
  - left.
  - simpl. specialize (IH (if lt item first then item else first)).
    apply elem_of_cons in IH as [->|IH].
    + destruct (lt item first); [right; left|left].
    + right. by right.
Qed.

Lemma py_max_in (first : V) rest : py_max lt first rest ∈ first :: rest.
Proof.
  unfold py_max. revert first. induction rest as [|item rest IH]; intros first.
  - left.
  - simpl. specialize (IH (if lt first item then item else first)).
    apply elem_of_cons in IH as [->|IH].
    + destruct (lt first item); [right; left|left].
    + right. by right.
Qed.

Section Ordered.
Hypothesis lt_irrefl : ∀ a, lt a a = false.
Hypothesis lt_trans : ∀ a b c, lt a b = true → lt b c = true → lt a c = true.

Lemma py_min_least (first : V) rest :
  (py_min lt first rest = first ∨ lt (py_min lt first rest) first = true) ∧
  ∀ v, v ∈ first :: rest → lt v (py_min lt first rest) = false.
Proof.
  unfold py_min. revert first. induction rest as [|item rest IH]; intros first.
  - simpl. split; [by left|]. intros v Hv.
    apply list_elem_of_singleton in Hv as ->. apply lt_irrefl.
  - simpl. destruct (IH (if lt item first then item else first))
      as [Hm Hleast].
    set (m := foldl _ _ rest) in *.
    destruct (lt item first) eqn:Hlt.
    + split.
      * right. destruct Hm as [->|Hm]; [done|]. by apply (lt_trans _ item).
      * intros v Hv. apply elem_of_cons in Hv as [->|Hv]; [|by apply Hleast].
        destruct (lt first m) eqn:Hf; [|done].
        pose proof (lt_trans _ _ _ Hlt Hf) as Hc.
        by rewrite (Hleast item ltac:(left)) in Hc.
    + split; [done|].
      intros v Hv. apply elem_of_cons in Hv as [->|Hv]; [apply Hleast; left|].
      apply elem_of_cons in Hv as [->|Hv]; [|apply Hleast; by right].
      destruct Hm as [->|Hm]; [done|].
      destruct (lt item m) eqn:Hi; [|done].
      pose proof (lt_trans _ _ _ Hi Hm) as Hc. by rewrite Hlt in Hc.
Qed.

Lemma py_max_greatest (first : V) rest :
  (py_max lt first rest = first ∨ lt first (py_max lt first rest) = true) ∧
  ∀ v, v ∈ first :: rest → lt (py_max lt first rest) v = false.
Proof.
  unfold py_max. revert first. induction rest as [|item rest IH]; intros first.
  - simpl. split; [by left|]. intros v Hv.
    apply list_elem_of_singleton in Hv as ->. apply lt_irrefl.
  - simpl. destruct (IH (if lt first item then item else first))
      as [Hm Hgreatest].
    set (m := foldl _ _ rest) in *.
    destruct (lt first item) eqn:Hlt.
    + split.
      * right. destruct Hm as [->|Hm]; [done|]. by apply (lt_trans _ item).
      * intros v Hv. apply elem_of_cons in Hv as [->|Hv]; [|by apply Hgreatest].
        destruct (lt m first) eqn:Hf; [|done].
        pose proof (lt_trans _ _ _ Hf Hlt) as Hc.
        by rewrite (Hgreatest item ltac:(left)) in Hc.
    + split; [done|].
      intros v Hv.
      apply elem_of_cons in Hv as [->|Hv]; [apply Hgreatest; left|].
      apply elem_of_cons in Hv as [->|Hv]; [|apply Hgreatest; by right].
      destruct Hm as [->|Hm]; [done|].
      destruct (lt m item) eqn:Hi; [|done].
      pose proof (lt_trans _ _ _ Hm Hi) as Hc. by rewrite Hlt in Hc.
Qed.

End Ordered.

(** X21. The summary of a name: it is empty exactly when no point was
    recorded; otherwise its count is the number of points, its minimum
    and maximum are recorded values, and - [<] being irreflexive and
    transitive, as it is on floats - no recorded value is below the
    minimum or above the maximum. *)
Theorem get_summary_spec name metrics :
  (∀ a, lt a a = false) →
  (∀ a b c, lt a b = true → lt b c = true → lt a c = true) →
  let values := value <$> get_metrics name metrics in
  (get_summary lt mean name metrics = None ↔ get_metrics name metrics = []) ∧
  ∀ s, get_summary lt mean name metrics = Some s →
    s_count s = length (get_metrics name metrics) ∧
    s_avg s = mean values ∧
    s_min s ∈ values ∧ s_max s ∈ values ∧
    ∀ v, v ∈ values → lt v (s_min s) = false ∧ lt (s_max s) v = false.
Proof.
  intros Hirr Htrans values. subst values. unfold get_summary.
  destruct (get_metrics name metrics) as [|p points]; simpl.
  - split; [done|]. discriminate.
  - split; [split; discriminate|]. intros s [= <-]. simpl.
    destruct (py_min_least Hirr Htrans (value p) (value <$> points))
      as [_ Hmin].
    destruct (py_max_greatest Hirr Htrans (value p) (value <$> points))
      as [_ Hmax].
    rewrite length_fmap. split; [done|]. split; [done|].
    split; [apply py_min_in|]. split; [apply py_max_in|].
    intros v Hv. split; [by apply Hmin|by apply Hmax].
Qed.

(** X22. Timing is recorded on both exits: whatever the measured body
    does - return or raise - [measure] hands its outcome on and records
    exactly one point, [stop - start], under [name + "_duration"], after
    the points the body recorded itself; no other name changes. *)
Theorem measure_records_once {E A} name tags start stop now
    (body : metrics_map → result E A * metrics_map) metrics :
  let out := measure sub name tags start stop now body metrics in
  let duration := name +:+ "_duration" in
  out.1 = (body metrics).1 ∧
  get_metrics duration out.2 =
    get_metrics duration (body metrics).2
      ++ [mkMetricPoint (sub stop start) now (default ∅ tags)] ∧
  ∀ other, other ≠ duration →
    get_metrics other out.2 = get_metrics other (body metrics).2.
Proof.
  intros out duration. subst out duration. unfold measure.
  destruct (body metrics) as [r metrics']. simpl.
  destruct (record_metric_lookup (name +:+ "_duration") (sub stop start)
              tags now metrics') as (Hrec & Hother).
  done.
Qed.

End MonitorFacts.

Lemma get_summary_spec_witness :
  let metrics : gmap string (list (@PerformanceMonitor.MetricPoint Z)) :=
    PerformanceMonitor.record_metric "latency" 5 None 2
      (PerformanceMonitor.record_metric "latency" 3 None 1 ∅) in
  PerformanceMonitor.get_summary Z.ltb (λ l, foldr Z.add 0 l `div` Z.of_nat (length l))
    "latency" metrics = None ↔
  PerformanceMonitor.get_metrics "latency" metrics = [].
Proof.
  intros metrics.
  destruct (get_summary_spec Z.ltb
              (λ l, foldr Z.add 0 l `div` Z.of_nat (length l)) "latency" metrics)
    as [Hnone _].
  - intros a. apply Z.ltb_irrefl.
  - intros a b c Hab Hbc. apply Z.ltb_lt in Hab, Hbc. apply Z.ltb_lt. lia.
  - exact Hnone.
Defined.

(** ** The summary of historical data *)

Section SummarizeFacts.
Import ContextManager.
Context {A : Type}.
Implicit Types (data : list A).

Lemma slice_step_one fuel data :
  (length data ≤ fuel)%nat → slice_step fuel data 1 = data.
Proof.
  revert data. induction fuel as [|fuel IH]; intros data Hfuel.
  - destruct data; [done|simpl in Hfuel; lia].
  - destruct data as [|x data]; [done|]. simpl. rewrite drop_0.
    f_equal. apply IH. simpl in Hfuel. lia.
Qed.

Lemma slice_step_length fuel data step :
  (1 ≤ step)%nat → (length data ≤ fuel)%nat → data ≠ [] →
  let n := length (slice_step fuel data step) in
  (1 ≤ n)%nat ∧ ((n - 1) * step < length data)%nat ∧ (length data ≤ n * step)%nat.
Proof.
  intros Hstep. revert data. induction fuel as [|fuel IH];
    intros data Hfuel Hne.
  - destruct data; [done|simpl in Hfuel; lia].
  - destruct data as [|x data]; [done|]. cbn [slice_step length].
    set (rest := drop step (x :: data)).
    assert (Hrest : length rest = (S (length data) - step)%nat)
      by (subst rest; by rewrite length_drop).
    destruct (decide (rest = [])) as [Hnil|Hnn].
    + rewrite Hnil. assert (length rest = 0%nat) by by rewrite Hnil.
      destruct fuel; simpl; lia.
    + destruct (IH rest) as (Hn1 & Hn2 & Hn3); [simpl in Hfuel; lia|done|].
      assert (length rest ≠ 0%nat) by by destruct rest.
      simpl in *. nia.
Qed.

Lemma slice_step_sublist fuel data step :
  (1 ≤ step)%nat → slice_step fuel data step `sublist_of` data.
Proof.
  intros Hstep. revert data. induction fuel as [|fuel IH]; intros data.
  - apply sublist_nil_l.
  - destruct data as [|x data]; [done|]. simpl.
    destruct step as [|step]; [lia|]. simpl.
    apply sublist_skip. etrans; [apply IH|]. apply sublist_drop.
Qed.

(** X23. The summary of historical data keeps the first point and the
    order of the points; data of fewer than 20 points is returned whole,
    and longer data is cut to at most 19 points (not 10). *)
Theorem summarize_historical_data_spec data :
  _summarize_historical_data data `sublist_of` data ∧
  head (_summarize_historical_data data) = head data ∧
  ((length data < 20)%nat → _summarize_historical_data data = data) ∧
  (length (_summarize_historical_data data) ≤ 19)%nat.
Proof.
  unfold _summarize_historical_data.
  destruct data as [|x rest] eqn:Hdata; [by repeat split; simpl; try lia|].
  rewrite <- Hdata.
  assert (Hne : data ≠ []) by by rewrite Hdata.
  set (len := length data).
  assert (Hlen : (1 ≤ len)%nat) by (subst len; rewrite Hdata; simpl; lia).
  set (step := Nat.max 1 (len / Nat.min len 10)).
  assert (Hstep : (1 ≤ step)%nat) by lia.
  assert (Hsmall : (len < 20)%nat → step = 1%nat).
  { intros Hlt. subst step.
    destruct (decide (len ≤ 10)%nat).
    - rewrite Nat.min_l by lia. rewrite Nat.div_same by lia. done.
    - rewrite Nat.min_r by lia.
      assert (len / 10 < 2)%nat by (apply Nat.Div0.div_lt_upper_bound; lia).
      lia. }
  split; [by apply slice_step_sublist|]. split; [|split].
  - clear Hsmall Hstep Hlen. subst step len. by rewrite Hdata.
  - intros Hlt. rewrite (Hsmall Hlt). by apply slice_step_one.
  - destruct (decide (len < 20)%nat) as [Hlt|Hge].
    + rewrite (Hsmall Hlt), slice_step_one by done. fold len. lia.
    + destruct (slice_step_length len data step Hstep ltac:(done) Hne)
        as (Hn1 & Hn2 & _).
      fold len in Hn2.
      assert (Hq : step = (len / 10)%nat).
      { subst step. rewrite Nat.min_r by lia.
        assert (1 ≤ len / 10)%nat by (apply Nat.div_le_lower_bound; lia).
        lia. }
      pose proof (Nat.div_mod_eq len 10) as Hdm.
      pose proof (Nat.mod_upper_bound len 10 ltac:(lia)) as Hmod.
      rewrite <- Hq in Hdm.
      assert (2 ≤ step)%nat by (rewrite Hq; apply Nat.div_le_lower_bound; lia).
      nia.
Qed.

End SummarizeFacts.

(** Nineteen points are kept whole, twenty are cut to ten. *)
Example summarize_19_and_20 :
  length (ContextManager._summarize_historical_data (seq 0 19)) = 19%nat ∧
  ContextManager._summarize_historical_data (seq 0 20) =
    [0; 2; 4; 6; 8; 10; 12; 14; 16; 18]%nat.
Proof. vm_compute. done. Qed.

(** ** The further properties at concrete inputs *)

Lemma request_rate_limited_witness :
  (APIHandler.request RateLimiter.the_config (λ _, None) (λ s, Ok s)
     Fixtures.one_second_clock Fixtures.refused_network
     "GET" "binance" "/ping" None None Fixtures.fresh_gateway).1 =
  Raise (RateLimiter.APIError (RateLimiter.rate_limit_message "binance")).
Proof.
  destruct (request_rate_limited RateLimiter.the_config (λ _, None) (λ s, Ok s)
              Fixtures.one_second_clock Fixtures.refused_network
              "GET" "binance" "/ping" None None Fixtures.fresh_gateway
              (RateLimiter.APIError (RateLimiter.rate_limit_message "binance")))
    as (Hout & _).
  - vm_compute. reflexivity.
  - exact Hout.
Defined.

Lemma request_success_witness :
  (APIHandler.request RateLimiter.the_config (λ _, None) (λ s, Ok s)
     Fixtures.one_second_clock (MoreFixtures.answering 200 "{}")
     "GET" "coingecko" "/ping" None None Fixtures.fresh_gateway).1 = Ok "{}".
Proof.
  destruct (request_success RateLimiter.the_config (λ _, None) (λ s, Ok s)
              Fixtures.one_second_clock (MoreFixtures.answering 200 "{}")
              "GET" "coingecko" "/ping" None None Fixtures.fresh_gateway 200 "{}")
    as (Hout & _).
  - vm_compute. reflexivity.
  - reflexivity.
  - lia.
  - exact (Hout "{}" eq_refl).
Defined.



Lemma batch_success_single_call_witness :
  ∃ new,
    BatchProcessor.trace
      (BatchProcessor.process_collected Fixtures.scripted 3 Fixtures.abc
         (Fixtures.all_pending [Fixtures.one_two_three])).2 = [] ++ new ∧
    BatchProcessor.calls_of new =
      [BatchProcessor._combine_contexts (BatchProcessor.data <$> Fixtures.abc)].
Proof.
  destruct (batch_success_single_call Fixtures.scripted 3 Fixtures.abc
              (Fixtures.all_pending [Fixtures.one_two_three])
              [("results", BatchProcessor.VList
                  [BatchProcessor.VInt 1; BatchProcessor.VInt 2;
                   BatchProcessor.VInt 3])]
              (BatchProcessor.VList
                 [BatchProcessor.VInt 1; BatchProcessor.VInt 2;
                  BatchProcessor.VInt 3]))
    as (new & Htrace & Hcalls & _).
  - reflexivity.
  - reflexivity.
  - reflexivity.
  - exists new. split; [exact Htrace|exact Hcalls].
Defined.

Lemma other_futures_untouched_witness :
  BatchProcessor.futures
    (BatchProcessor.process_collected Fixtures.picky 3
       [Fixtures.req_a; Fixtures.req_b] (Fixtures.all_pending 0%nat)).2 !! 2%nat
  = Some BatchProcessor.Pending.
Proof.
  destruct (other_futures_untouched Fixtures.picky 3
              [Fixtures.req_a; Fixtures.req_b] (Fixtures.all_pending 0%nat) 2)
    as (Hsame & _).
  - apply (bool_decide_unpack _). vm_compute. exact I.
  - rewrite Hsame. reflexivity.
Defined.

Lemma fallback_skips_done_requests_witness :
  BatchProcessor.client
    (BatchProcessor._handle_batch_error MoreFixtures.failing 3 Fixtures.abc
       (BatchProcessor.BatchProcessingError "Invalid batch response format")
       (MoreFixtures.all_done 0%nat)).2 = 0%nat.
Proof.
  rewrite (fallback_skips_done_requests MoreFixtures.failing 3 Fixtures.abc
             (BatchProcessor.BatchProcessingError "Invalid batch response format")
             (MoreFixtures.all_done 0%nat)).
  - reflexivity.
  - intros r Hr. unfold Fixtures.abc in Hr.
    repeat (apply elem_of_cons in Hr as [->|Hr]); try discriminate.
    by apply elem_of_nil in Hr.
Defined.

Lemma heap_ordered_singleton (e : BatchProcessor.entry) :
  PriorityQueue.heap_ordered [e].
Proof.
  intros j child parent Hj Hchild _. destruct j as [|j]; [lia|]. discriminate.
Qed.

Lemma heap_ordered_tied_pair :
  PriorityQueue.heap_ordered [MoreFixtures.entry_one; MoreFixtures.entry_tie].
Proof.
  intros j child parent Hj Hchild Hparent.
  destruct j as [|[|j]]; [lia| |discriminate].
  injection Hchild as <-. injection Hparent as <-. done.
Qed.

Lemma submit_put_fresh_priority_witness :
  ∃ queue',
    BatchProcessor.submit_put (λ _, "id") [] 0 5
      ([BatchProcessor.Pending; BatchProcessor.Pending; BatchProcessor.Pending],
       [MoreFixtures.entry_one; MoreFixtures.entry_tie]) =
    (Ok (BatchProcessor.mkBatchRequest "id" [] 0 5 3),
     ([BatchProcessor.Pending; BatchProcessor.Pending; BatchProcessor.Pending]
        ++ [BatchProcessor.Pending], queue')) ∧
    queue' ≡ₚ (0, BatchProcessor.mkBatchRequest "id" [] 0 5 3)
              :: [MoreFixtures.entry_one; MoreFixtures.entry_tie].
Proof.
  destruct (submit_put_fresh_priority (λ _, "id") [] 0 5
              [BatchProcessor.Pending; BatchProcessor.Pending;
               BatchProcessor.Pending]
              [MoreFixtures.entry_one; MoreFixtures.entry_tie])
    as (queue' & Hput & _ & Hperm & _).
  - apply heap_ordered_tied_pair.
  - apply (bool_decide_unpack _). vm_compute. exact I.
  - exists queue'. split; [exact Hput|exact Hperm].
Defined.

Lemma submit_put_tie_witness :
  ∃ msg,
    BatchProcessor.submit_put (λ _, "id") [] 1 5 ([BatchProcessor.Pending],
                                                   [MoreFixtures.entry_one]) =
    (Raise (BatchProcessor.TypeError msg),
     ([BatchProcessor.Pending] ++ [BatchProcessor.Pending],
      [MoreFixtures.entry_one]
        ++ [(1, BatchProcessor.mkBatchRequest "id" [] 1 5 1)])).
Proof.
  apply (submit_put_tie (λ _, "id") [] 1 5
           [BatchProcessor.Pending] [MoreFixtures.entry_one]).
  - discriminate.
  - repeat constructor.
Defined.

Lemma heappop_lowest_priority_witness :
  ∃ front heap',
    PriorityQueue.heappop [MoreFixtures.entry_one; MoreFixtures.entry_two] =
      Some (Ok front, heap') ∧
    [MoreFixtures.entry_one; MoreFixtures.entry_two] !! 0%nat = Some front.
Proof.
  destruct (heappop_lowest_priority
              [MoreFixtures.entry_one; MoreFixtures.entry_two])
    as (front & heap' & Hpop & Hfront & _).
  - intros j child parent Hj Hchild Hparent.
    destruct j as [|[|j]]; [lia| |discriminate].
    injection Hchild as <-. injection Hparent as <-. simpl. lia.
  - apply (bool_decide_unpack _). vm_compute. exact I.
  - discriminate.
  - exists front, heap'. split; [exact Hpop|exact Hfront].
Defined.

Lemma cancelled_future_aborts_fallback_witness :
  (Cancellation._handle_batch_error Fixtures.picky 3 Callers.a_during_own_call
     ([] ++ Fixtures.req_a :: [Fixtures.req_b])
     (BatchProcessor.BatchProcessingError "Invalid batch response format")
     (Fixtures.all_pending 0%nat)).1 =
  Raise (BatchProcessor.InvalidStateError "invalid state").
Proof.
  rewrite (cancelled_future_aborts_fallback Fixtures.picky 3
             Callers.a_during_own_call [] Fixtures.req_a [Fixtures.req_b]
             (BatchProcessor.BatchProcessingError "Invalid batch response format")
             (Fixtures.all_pending 0%nat)).
  - reflexivity.
  - reflexivity.
  - reflexivity.
  - vm_compute. discriminate.
Defined.

Lemma exactly_once_without_cancellation_witness :
  (Cancellation.process_collected Fixtures.picky 3 Callers.nobody Fixtures.abc
     (Fixtures.all_pending 0%nat)).1 = Ok ().
Proof.
  destruct (exactly_once_without_cancellation Fixtures.picky 3 Callers.nobody
              Fixtures.abc (Fixtures.all_pending 0%nat)) as (new & Hok & _).
  - intros tr. reflexivity.
  - intros r Hr. unfold Fixtures.abc in Hr.
    repeat (apply elem_of_cons in Hr as [->|Hr]); try (by eexists).
    by apply elem_of_nil in Hr.
  - exact Hok.
Defined.

Lemma fallback_isolation_without_cancellation_witness :
  BatchProcessor.futures
    (Cancellation._handle_batch_error Fixtures.picky 3 Callers.nobody
       ([Fixtures.req_c] ++ Fixtures.req_b :: [Fixtures.req_a])
       (BatchProcessor.BatchProcessingError "Invalid batch response format")
       (Fixtures.all_pending 0%nat)).2 !! 1%nat =
  Some (BatchProcessor.Finished
          (BatchProcessor.VDict [("echo", BatchProcessor.VStr "b")])).
Proof.
  destruct (fallback_isolation_without_cancellation Fixtures.picky 3
              Callers.nobody [Fixtures.req_c] Fixtures.req_b [Fixtures.req_a]
              (BatchProcessor.BatchProcessingError "Invalid batch response format")
              (Fixtures.all_pending 0%nat))
    as (_ & Hown & _).
  - intros tr. reflexivity.
  - apply (bool_decide_unpack _). vm_compute. exact I.
  - reflexivity.
  - exact Hown.
Defined.

Lemma heappop_tied_children_raises_witness :
  ∃ msg heap',
    PriorityQueue.heappop
      [MoreFixtures.entry_zero; MoreFixtures.entry_one; MoreFixtures.entry_tie] =
    Some (Raise (BatchProcessor.TypeError msg), heap').
Proof.
  destruct (heappop_tied_children_raises MoreFixtures.entry_zero
              MoreFixtures.entry_one MoreFixtures.entry_tie [])
    as (msg & heap' & Hpop & _).
  - reflexivity.
  - vm_compute. discriminate.
  - exists msg, heap'. exact Hpop.
Defined.

(** Three submissions with priorities 0, 1 and 1 are all enqueued without
    an exception, and the first [queue.get()] then raises: the request of
    priority 0 is taken out of the queue and never returned. *)
Example get_after_successful_submits :
  let first := BatchProcessor.submit_put (λ _, "id") [] 0 0 ([], []) in
  let second := BatchProcessor.submit_put (λ _, "id") [] 1 1 first.2 in
  let third := BatchProcessor.submit_put (λ _, "id") [] 1 2 second.2 in
  is_ok first.1 = true ∧ is_ok second.1 = true ∧ is_ok third.1 = true ∧
  match PriorityQueue.heappop third.2.2 with
  | Some (Raise (BatchProcessor.TypeError _), queue) =>
      (λ e : BatchProcessor.entry, BatchProcessor.future e.2) <$> queue
      = [1%nat; 2%nat]
  | _ => False
  end.
Proof. vm_compute. done. Qed.

(** A body that is not JSON: a [ContentTypeError] of the decoding is
    surfaced as an [APIError], a [JSONDecodeError] as it is, both after one
    network attempt and without a wait. *)
Example decoding_failure_run :
  let undeclared : string → result RateLimiter.exn string :=
    λ _, Raise (RateLimiter.ClientError "Attempt to decode JSON with unexpected mimetype") in
  let malformed : string → result RateLimiter.exn string :=
    λ _, Raise (RateLimiter.ValueError "Expecting value") in
  let run decode :=
    APIHandler.request RateLimiter.the_config (λ _, None) decode
      Fixtures.one_second_clock (MoreFixtures.answering 200 "<html>")
      "GET" "coingecko" "/ping" None None Fixtures.fresh_gateway in
  (run undeclared).1 =
    Raise (RateLimiter.APIError
             "API request failed: Attempt to decode JSON with unexpected mimetype") ∧
  (run malformed).1 = Raise (RateLimiter.ValueError "Expecting value") ∧
  APIHandler.attempts (run undeclared).2 = 1%nat ∧
  APIHandler.attempts (run malformed).2 = 1%nat ∧
  APIHandler.backoffs (run malformed).2 = [].
Proof. vm_compute. done. Qed.
